(** * The GoMarble MCP bridge: a shallow embedding and its properties

    The development follows the files of the repository:
    - [server-eventsource.js]: the line-oriented event-stream reader
      (module [EventStream]) and the [EventSource] class around it
      (module [EventSourceClass]);
    - the bridge server (Express application): the request correlator
      ([postRpc] and the [message] listener), the session
      ([mcpSessionCall] with [settle] and [doInitialize]), the retry
      wrapper ([mcpToolCall]), the call queue, the reconnect route and
      the loading of [.env];
    - the browser side: [executeDirectCall] and [mcpCall] of
      [claude.js], and the cache of [cache.js].

    JavaScript strings are sequences of UTF-16 code units, modelled as
    [list N]; literals are written with [js]. *)

From Stdlib Require Import ZArith NArith List String Ascii Bool Lia QArith Lqa.
From Stdlib Require Import DecimalString Qminmax.
From stdpp Require Import gmap.
Import ListNotations.
Local Open Scope Z_scope.
Set Warnings "-register-all".
Set Default Proof Using "Type".

(** ** JavaScript strings *)

Module JsString.

Definition jstring := list N.

Definition js (s : string) : jstring :=
  List.map N_of_ascii (list_ascii_of_string s).

Definition NL : N := 10%N.

(** [String.prototype.startsWith]. *)
Fixpoint startsWith (s p : jstring) {struct p} : bool :=
  match p, s with
  | [], _ => true
  | _ :: _, [] => false
  | c :: p', d :: s' => N.eqb c d && startsWith s' p'
  end.

(** [String.prototype.slice(k)] for a non-negative [k]. *)
Definition slice (k : nat) (s : jstring) : jstring := skipn k s.

(** ECMAScript WhiteSpace and LineTerminator code units, the ones
    [String.prototype.trim] strips. *)
Definition is_ws (c : N) : bool :=
  ((9 <=? c) && (c <=? 13) || (c =? 32) || (c =? 160) || (c =? 5760)
   || (8192 <=? c) && (c <=? 8202) || (c =? 8232) || (c =? 8233)
   || (c =? 8239) || (c =? 8287) || (c =? 12288) || (c =? 65279))%N.

Fixpoint trimStart (s : jstring) : jstring :=
  match s with
  | c :: s' => if is_ws c then trimStart s' else s
  | [] => []
  end.

Definition trimEnd (s : jstring) : jstring := rev (trimStart (rev s)).

Definition trim (s : jstring) : jstring := trimEnd (trimStart s).

(** [s.split('\n')]: never empty; the last element is the text after
    the last newline. *)
Fixpoint split_nl (s : jstring) : list jstring :=
  match s with
  | [] => [[]]
  | c :: s' =>
      if N.eqb c NL then [] :: split_nl s'
      else match split_nl s' with
           | l :: ls => (c :: l) :: ls
           | [] => [[c]]
           end
  end.

(** [String.prototype.includes]. *)
Fixpoint includes (s p : jstring) : bool :=
  startsWith s p ||
  match s with
  | [] => false
  | _ :: s' => includes s' p
  end.

Definition jstring_eqb (a b : jstring) : bool :=
  bool_decide (a = b).

(** A string is truthy when it is not empty. *)
Definition truthy_str (s : jstring) : bool :=
  match s with [] => false | _ => true end.

End JsString.
Import JsString.

(** ** server-eventsource.js: the event-stream reader *)

Module EventStream.

(** The three variables the response callback closes over. *)
Record reader := Reader {
  buffer : jstring;
  currentEvent : jstring;
  currentData : jstring
}.

(** What [_emit(event, data)] hands to the listeners. *)
Definition StreamEvent := (jstring * jstring)%type.

Definition initial : reader :=
  Reader [] (js "message") [].

(** One iteration of [for (const line of lines)], with the event handed
    to [_emit] put on a list.  This is the reader as long as [_emit]
    returns; [_emit] throws for a name [_listeners] inherits, and the
    loop with that exception is [EventSourceClass.lines_loop]. *)
Definition on_line (st : jstring * jstring * list StreamEvent) (line : jstring)
  : jstring * jstring * list StreamEvent :=
  let '(ev, dat, out) := st in
  if startsWith line (js "event:") then (trim (slice 6 line), dat, out)
  else if startsWith line (js "data:") then (ev, trim (slice 5 line), out)
  else match line with
       | [] =>
           if truthy_str dat then (js "message", [], out ++ [(ev, dat)])
           else (ev, dat, out)
       | _ :: _ => (ev, dat, out)
       end.

(** [res.on('data', chunk => ...)]: returns the new variables and the
    events handed to [_emit] while handling this chunk. *)
Definition on_data (r : reader) (chunk : jstring) : reader * list StreamEvent :=
  let buf := buffer r ++ chunk in
  let lines := split_nl buf in
  let rest := List.last lines [] in        (* buffer = lines.pop() *)
  let lines := removelast lines in
  let '(ev, dat, out) :=
    fold_left on_line lines (currentEvent r, currentData r, []) in
  (Reader rest ev dat, out).

(** A whole connection: the chunks in arrival order. *)
Fixpoint feed (r : reader) (chunks : list jstring) : reader * list StreamEvent :=
  match chunks with
  | [] => (r, [])
  | c :: cs =>
      let '(r1, out1) := on_data r c in
      let '(r2, out2) := feed r1 cs in
      (r2, out1 ++ out2)
  end.

(** A frame on the wire: an optional [event:] line, one [data:] line and
    the blank line.  The fields hold the text after the colon. *)
Record frame := Frame {
  fevent : option jstring;
  fdata : jstring
}.

Definition no_newline (s : jstring) : Prop := ~ In NL s.

Definition well_formed (f : frame) : Prop :=
  match fevent f with Some e => no_newline e | None => True end
  /\ no_newline (fdata f)
  /\ trim (fdata f) <> [].

Definition encode (f : frame) : jstring :=
  match fevent f with
  | Some e => js "event:" ++ e ++ [NL]
  | None => []
  end ++ js "data:" ++ fdata f ++ [NL] ++ [NL].

Definition encode_all (fs : list frame) : jstring :=
  concat (List.map encode fs).

(** The (eventName, payload) pair a frame stands for. *)
Definition frame_event (f : frame) : StreamEvent :=
  (match fevent f with Some e => trim e | None => js "message" end,
   trim (fdata f)).

End EventStream.

(** ** JSON values, as [JSON.parse] returns them *)

Module Json.

(** Numbers are restricted to the integers that print in full
    (identifiers, error codes and HTTP statuses are all the bridge
    looks at; from 1e21 on JavaScript prints an exponent). *)
Inductive value :=
| VUndef
| VNull
| VBool (b : bool)
| VNum (n : Z)
| VStr (s : jstring)
| VArr (items : list value)
| VObj (fields : list (jstring * value)).

(** ToBoolean. *)
Definition truthy (v : value) : bool :=
  match v with
  | VUndef | VNull | VBool false | VNum 0 | VStr [] => false
  | _ => true
  end.

(** [v == null], true of [null] and [undefined] only. *)
Definition nullish (v : value) : bool :=
  match v with VUndef | VNull => true | _ => false end.

Fixpoint assoc (k : jstring) (fs : list (jstring * value)) : value :=
  match fs with
  | [] => VUndef
  | (k', v) :: fs' => if bool_decide (k = k') then v else assoc k fs'
  end.

(** [v.k] for one of the keys the bridge reads: [None] is the TypeError
    of reading a property of [null] or [undefined]. *)
Definition prop (v : value) (k : string) : option value :=
  match v with
  | VUndef | VNull => None
  | VObj fs => Some (assoc (js k) fs)
  | _ => Some VUndef
  end.

(** [v === 'lit'] for a string literal. *)
Definition is_string (v : value) (lit : jstring) : bool :=
  match v with VStr s => bool_decide (s = lit) | _ => false end.

(** [v?.k]. *)
Definition prop_opt (v : value) (k : string) : value :=
  match prop v k with Some x => x | None => VUndef end.

Definition Z_to_jstring (n : Z) : jstring :=
  js (NilZero.string_of_int (Z.to_int n)).

(** ToString, which template literals apply. *)
Fixpoint toStr (v : value) : jstring :=
  match v with
  | VUndef => js "undefined"
  | VNull => js "null"
  | VBool true => js "true"
  | VBool false => js "false"
  | VNum n => Z_to_jstring n
  | VStr s => s
  | VArr l =>
      (fix join (l : list value) : jstring :=
         match l with
         | [] => []
         | x :: r =>
             (if nullish x then [] else toStr x)
             ++ match r with [] => [] | _ :: _ => js "," ++ join r end
         end) l
  | VObj _ => js "[object Object]"
  end.

End Json.
Import Json.

(** ** server-eventsource.js: the [EventSource] class *)

Module EventSourceClass.
Import EventStream.

Definition CONNECTING : nat := 0.
Definition OPEN : nat := 1.
Definition CLOSED : nat := 2.

(** What an instance does to the outside: it calls a listener with
    [{data, type}], calls [onerror] with an error, or destroys its
    request.  Listeners and handlers are known by a number. *)
Inductive call :=
| Listener (fn : nat) (type data : jstring)
| OnError (h : nat) (message : jstring)
| Destroy.

Record source := Source {
  readyState : nat;
  _listeners : gmap jstring (list nat);   (* the own properties of [_listeners] *)
  onerror : option nat;
  _req : bool;                            (* [_req] is not null *)
  vars : option reader                    (* the variables of the response
                                             callback, once it ran with 200 *)
}.

(** The constructor (lines 15-20), once the request is sent. *)
Definition create : source := Source CONNECTING ∅ None true None.

Definition listeners_of (s : source) (type : jstring) : list nat :=
  match _listeners s !! type with
  | Some l => l
  | None => []
  end.

Section WithPrototype.

(** The names every object answers through [Object.prototype]
    ([constructor], [toString], ...): under such a name [_listeners]
    holds something that is truthy and is not an array. *)
Variable inherited : jstring -> bool.

(** [addEventListener] (lines 22-25): [None] is the TypeError of
    [push] on what is not an array. *)
Definition addEventListener (event : jstring) (fn : nat) (s : source)
  : option source :=
  if inherited event && negb (bool_decide (is_Some (_listeners s !! event)))
  then None
  else Some (Source (readyState s)
               (<[event := listeners_of s event ++ [fn]]> (_listeners s))
               (onerror s) (_req s) (vars s)).

(** [_emit] (lines 35-38): the calls made, or [None] for the TypeError
    of [forEach] on what is not an array. *)
Definition _emit (event data : jstring) (s : source) : option (list call) :=
  if inherited event && negb (bool_decide (is_Some (_listeners s !! event)))
  then None
  else Some (List.map (fun fn => Listener fn event data) (listeners_of s event)).

(** The loop of lines 75-88 from the given variables: the variables and
    the calls when it ends, and whether it ended by an exception. *)
Fixpoint lines_loop (s : source) (lines : list jstring) (ev dat : jstring)
    (out : list call) : jstring * jstring * list call * bool :=
  match lines with
  | [] => (ev, dat, out, false)
  | line :: rest =>
      if startsWith line (js "event:") then
        lines_loop s rest (trim (slice 6 line)) dat out
      else if startsWith line (js "data:") then
        lines_loop s rest ev (trim (slice 5 line)) out
      else match line with
           | [] =>
               if truthy_str dat then
                 match _emit ev dat s with
                 | Some calls => lines_loop s rest (js "message") [] (out ++ calls)
                 | None => (ev, dat, out, true)
                 end
               else lines_loop s rest ev dat out
           | _ :: _ => lines_loop s rest ev dat out
           end
  end.

(** [res.on('data', ...)] (lines 70-89); nothing listens before a
    response with status 200. *)
Definition on_chunk (chunk : jstring) (s : source) : source * list call * bool :=
  match vars s with
  | None => (s, [], false)
  | Some r =>
      let lines := split_nl (buffer r ++ chunk) in
      let '(ev, dat, out, threw) :=
        lines_loop s (removelast lines) (currentEvent r) (currentData r) [] in
      (Source (readyState s) (_listeners s) (onerror s) (_req s)
         (Some (Reader (List.last lines []) ev dat)),
       out, threw)
  end.

(** The data callback on the chunks of a connection, in arrival order:
    the instance, the calls made, and whether a callback ended by an
    exception.  An exception leaves the variables as the callback had
    them; the next chunk, if the process gets to it, starts from
    there. *)
Fixpoint on_chunks (chunks : list jstring) (s : source)
  : source * list call * bool :=
  match chunks with
  | [] => (s, [], false)
  | c :: cs =>
      let '(s1, out1, threw1) := on_chunk c s in
      let '(s2, out2, threw2) := on_chunks cs s1 in
      (s2, out1 ++ out2, threw1 || threw2)
  end.

End WithPrototype.

(** [if (this.onerror) this.onerror(new Error(message))]. *)
Definition report_error (message : jstring) (s : source) : list call :=
  match onerror s with
  | Some h => [OnError h message]
  | None => []
  end.

Definition closed (s : source) : source :=
  Source CLOSED (_listeners s) (onerror s) (_req s) (vars s).

(** The callback of [mod.request] (lines 56-100). *)
Definition on_response (status : Z) (s : source) : source * list call :=
  if status =? 200 then
    (Source OPEN (_listeners s) (onerror s) (_req s) (Some initial), [])
  else
    (closed s, report_error (js "SSE HTTP " ++ Json.Z_to_jstring status) s).

(** [res.on('end')] and [res.on('error')] (lines 91-99), which exist
    after a response with status 200 only. *)
Definition on_end (s : source) : source * list call :=
  match vars s with
  | Some _ => (closed s, report_error (js "SSE connection ended") s)
  | None => (s, [])
  end.

Definition on_res_error (message : jstring) (s : source) : source * list call :=
  match vars s with
  | Some _ => (closed s, report_error message s)
  | None => (s, [])
  end.

(** [_req.on('error')] (lines 102-105). *)
Definition on_req_error (message : jstring) (s : source) : source * list call :=
  (closed s, report_error message s).

(** [close()] (lines 27-33). *)
Definition close (s : source) : source * list call :=
  (Source CLOSED (_listeners s) (onerror s) false (vars s),
   if _req s then [Destroy] else []).

(** What happens to an instance. *)
Inductive input :=
| AddEventListener (event : jstring) (fn : nat)
| SetOnError (h : option nat)
| Close
| Response (status : Z)
| Data (chunk : jstring)
| End
| ResError (message : jstring)
| ReqError (message : jstring).

Section Run.
Variable inherited : jstring -> bool.

(** One input: the instance after it and the calls made; an exception
    leaves the instance as the handler left it. *)
Definition handle (s : source) (i : input) : source * list call :=
  match i with
  | AddEventListener event fn =>
      match addEventListener inherited event fn s with
      | Some s' => (s', [])
      | None => (s, [])
      end
  | SetOnError h =>
      (Source (readyState s) (_listeners s) h (_req s) (vars s), [])
  | Close => close s
  | Response status => on_response status s
  | Data chunk => let '(s', out, _) := on_chunk inherited chunk s in (s', out)
  | End => on_end s
  | ResError m => on_res_error m s
  | ReqError m => on_req_error m s
  end.

Fixpoint handle_all (s : source) (ins : list input) : source * list call :=
  match ins with
  | [] => (s, [])
  | i :: rest =>
      let '(s1, out1) := handle s i in
      let '(s2, out2) := handle_all s1 rest in
      (s2, out1 ++ out2)
  end.

End Run.

(** The calls the events make with the listeners of [s]. *)
Definition dispatch (s : source) (events : list StreamEvent) : list call :=
  concat (List.map (fun e => List.map (fun fn => Listener fn (fst e) (snd e))
                                (listeners_of s (fst e))) events).

End EventSourceClass.

(** ** The bridge server: one session ([mcpSessionCall]) *)

Module Session.

Definition error := jstring.        (* [err.message] of an [Error] *)

Inductive outcome :=
| Resolved (v : value)              (* [resolveOuter(v)] *)
| Rejected (e : error).             (* [rejectOuter(new Error(e))] *)

Inductive phase_t := connecting | initializing | calling | done.

Inductive timer_state := Armed | Cleared | Fired.

Inductive promise_state :=
| Pending
| Fulfilled (v : value)
| Failed (e : error).

(** One call of [postRpc]: its promise, its 30 s timer and its [fetch]. *)
Record request := Request {
  rq_id : Z;
  rq_method : jstring;
  rq_owner : nat;                   (* the [doInitialize] run awaiting it *)
  rq_timer : timer_state;
  rq_promise : promise_state;
  rq_fetch_done : bool
}.

(** Where a run of [doInitialize] is suspended. *)
Inductive pc :=
| Sleeping                          (* line 159: the backoff wait *)
| AwaitInit (r : nat)               (* line 161: [await postRpc(1, ...)] *)
| Pausing                           (* line 176: the 500 ms pause *)
| AwaitCall (r : nat)               (* line 181: [await postRpc(2, ...)] *)
| Returned
| Thrown (e : error).

(** The local variables of one run of [doInitialize]. *)
Record task := Task {
  start : Z;
  delay : Q;
  lastErr : option error;
  at_pc : pc
}.

(** What the session does to the outside, in order. *)
Inductive effect :=
| EArmSessionTimer (ms : Z)         (* line 67 *)
| EConnect (authorization : jstring)          (* line 75 *)
| EClose                            (* [es.close()] *)
| EClearSessionTimer                (* [clearTimeout(timer)] *)
| ESettle (o : outcome)             (* [fn(val)] in [settle] *)
| EPost (url : jstring) (authorization : jstring)
        (id : option Z) (method : jstring)    (* [fetch(msgUrl, ...)] *)
| ESleep (t : nat) (ms : Q)         (* line 159 *)
| EPause (t : nat) (ms : Z).        (* line 176 *)

Record session := Sess {
  toolName : jstring;
  toolArgs : value;
  API_KEY : jstring;                (* the module-level variable *)
  settled : bool;
  es : bool;                        (* [es] is not null *)
  timer : bool;                     (* [timer] is not null *)
  msgUrl : jstring;
  phase : phase_t;
  pending : gmap Z nat;             (* id -> the request whose [resolve] it holds *)
  requests : list request;
  tasks : list task;
  log : list (Z * effect)           (* each effect with the clock when it happened *)
}.

(** What the event loop can deliver; each comes with [Date.now()]. *)
Inductive event_kind :=
| SseEndpoint (data : jstring)
| SseMessage (data : jstring)
| SseError (message : option jstring)
| SessionTimer                      (* the timer of line 67 fires *)
| Wake (t : nat)                    (* the [setTimeout] task [t] sleeps on fires *)
| RpcTimer (r : nat)                (* the 30 s timer of request [r] fires *)
| FetchStatus (r : nat) (status : Z) (body : jstring)
| FetchFailed (r : nat) (e : error)
| Reconfigure (apiKey : jstring)    (* POST /api/mcp/reconnect with this body.apiKey *)
| SseReconnect.                     (* the [EventSource] connects again: it calls
                                       the [fetch] option of lines 76-79 *)

Definition event := (Z * event_kind)%type.

(** *** Field updates *)

Definition set_API_KEY (k : jstring) (s : session) : session :=
  Sess (toolName s) (toolArgs s) k (settled s) (es s) (timer s) (msgUrl s)
       (phase s) (pending s) (requests s) (tasks s) (log s).
Definition set_guard (b e t : bool) (s : session) : session :=
  Sess (toolName s) (toolArgs s) (API_KEY s) b e t (msgUrl s)
       (phase s) (pending s) (requests s) (tasks s) (log s).
Definition set_msgUrl (u : jstring) (s : session) : session :=
  Sess (toolName s) (toolArgs s) (API_KEY s) (settled s) (es s) (timer s) u
       (phase s) (pending s) (requests s) (tasks s) (log s).
Definition set_phase (p : phase_t) (s : session) : session :=
  Sess (toolName s) (toolArgs s) (API_KEY s) (settled s) (es s) (timer s)
       (msgUrl s) p (pending s) (requests s) (tasks s) (log s).
Definition set_pending (m : gmap Z nat) (s : session) : session :=
  Sess (toolName s) (toolArgs s) (API_KEY s) (settled s) (es s) (timer s)
       (msgUrl s) (phase s) m (requests s) (tasks s) (log s).
Definition set_requests (l : list request) (s : session) : session :=
  Sess (toolName s) (toolArgs s) (API_KEY s) (settled s) (es s) (timer s)
       (msgUrl s) (phase s) (pending s) l (tasks s) (log s).
Definition set_tasks (l : list task) (s : session) : session :=
  Sess (toolName s) (toolArgs s) (API_KEY s) (settled s) (es s) (timer s)
       (msgUrl s) (phase s) (pending s) (requests s) l (log s).
Definition emit (now : Z) (e : effect) (s : session) : session :=
  Sess (toolName s) (toolArgs s) (API_KEY s) (settled s) (es s) (timer s)
       (msgUrl s) (phase s) (pending s) (requests s) (tasks s)
       (log s ++ [(now, e)]).

Definition set_task (t : nat) (k : task) (s : session) : session :=
  set_tasks (<[t := k]> (tasks s)) s.
Definition set_request (r : nat) (q : request) (s : session) : session :=
  set_requests (<[r := q]> (requests s)) s.

Definition bearer (key : jstring) : jstring := js "Bearer " ++ key.

(** *** [settle] (lines 59-65) *)

Definition settle (now : Z) (o : outcome) (s : session) : session :=
  if settled s then s
  else
    let s := set_guard true (es s) (timer s) s in
    let s := if es s then set_guard (settled s) false (timer s) (emit now EClose s)
             else s in
    let s := if timer s
             then set_guard (settled s) (es s) false (emit now EClearSessionTimer s)
             else s in
    emit now (ESettle o) s.

(** *** The body of the promise executor (lines 58-109), up to the first
    time control returns to the event loop. *)

Definition GOMARBLE_ORIGIN : jstring := js "https://apps.gomarble.ai".

Definition new_session (key toolName : jstring) (toolArgs : value)
    (timeoutMs now : Z) : session :=
  emit now (EConnect (bearer key))
    (emit now (EArmSessionTimer timeoutMs)
       (Sess toolName toolArgs key false true true [] connecting ∅ [] [] [])).

(** *** The request correlator: [postRpc] (lines 112-141) *)

Definition postRpc (now : Z) (t : nat) (id : Z) (method : jstring)
    (s : session) : nat * session :=
  let r := length (requests s) in
  let s := set_requests (requests s ++ [Request id method t Armed Pending false]) s in
  let s := set_pending (<[id := r]> (pending s)) s in
  let s := emit now (EPost (msgUrl s) (bearer (API_KEY s)) (Some id) method) s in
  (r, s).

(** [notify] (lines 144-150). *)
Definition notify (now : Z) (method : jstring) (s : session) : session :=
  emit now (EPost (msgUrl s) (bearer (API_KEY s)) None method) s.

(** [clearTimeout(timeout)] inside [postRpc]'s closures. *)
Definition clear_rpc_timer (r : nat) (s : session) : session :=
  match requests s !! r with
  | Some q =>
      match rq_timer q with
      | Armed =>
          set_request r (Request (rq_id q) (rq_method q) (rq_owner q) Cleared
                           (rq_promise q) (rq_fetch_done q)) s
      | _ => s
      end
  | None => s
  end.

Definition set_promise (r : nat) (p : promise_state) (s : session) : session :=
  match requests s !! r with
  | Some q =>
      set_request r (Request (rq_id q) (rq_method q) (rq_owner q) (rq_timer q)
                       p (rq_fetch_done q)) s
  | None => s
  end.

(** *** [doInitialize] (lines 152-217), one suspension point at a time *)

Definition with_pc (k : task) (p : pc) : task :=
  Task (start k) (delay k) (lastErr k) p.

(** The run of [doInitialize] rejects; its [.catch] (line 89) settles. *)
Definition finish_thrown (now : Z) (t : nat) (k : task) (e : error)
    (s : session) : session :=
  settle now (Rejected e) (set_task t (with_pc k (Thrown e)) s).

(** Line 158, and line 216 when the condition fails. *)
Definition loop_head (now : Z) (t : nat) (k : task) (s : session) : session :=
  if now - start k <? 20000 then
    set_task t (with_pc k Sleeping) (emit now (ESleep t (delay k)) s)
  else
    finish_thrown now t k
      (match lastErr k with
       | Some e => e
       | None => js "Transport never became ready"
       end) s.

Definition next_delay (d : Q) : Q := Qred (Qmin (d * (3 # 2)) 3000).

Definition isTransport (msg : error) : bool :=
  includes msg (js "No transport found") || includes msg (js "POST 400").

(** The [catch] block (lines 204-214). *)
Definition on_catch (now : Z) (t : nat) (k : task) (err : error)
    (s : session) : session :=
  let k := Task (start k) (delay k) (Some err) (at_pc k) in
  if isTransport err then
    loop_head now t (Task (start k) (next_delay (delay k)) (lastErr k) (at_pc k)) s
  else finish_thrown now t k err s.

Definition mcp_error (e : value) : error :=
  js "MCP error " ++ toStr (prop_opt e "code") ++ js ": "
     ++ toStr (prop_opt e "message").

Definition type_error (what : string) : error := js what.

Section WithJsonParse.

(** [JSON.parse] is the platform's: [None] is its SyntaxError. *)
Variable JSON_parse : jstring -> option value.

(** [content.find(c => c.type === 'text')] on an array. *)
Fixpoint find_text (l : list value) : error + value :=
  match l with
  | [] => inr VUndef
  | c :: l' =>
      match prop c "type" with
      | None => inl (type_error "Cannot read properties of null (reading 'type')")
      | Some ty =>
          if is_string ty (js "text") then inr c else find_text l'
      end
  end.

(** Lines 193-201: what is settled with, or the exception raised on the way. *)
Definition extract_result (result : value) : error + value :=
  let fallback := inr (let r := prop_opt result "result" in
                       if truthy r then r else result) in
  let content := prop_opt (prop_opt result "result") "content" in
  if truthy content then
    match content with
    | VArr l =>
        match find_text l with
        | inl e => inl e
        | inr tc =>
            if truthy tc then
              match JSON_parse (toStr (prop_opt tc "text")) with
              | Some v => inr v
              | None => inr (VObj [(js "data", prop_opt tc "text")])
              end
            else fallback
        end
    | _ => inl (type_error "result.result.content.find is not a function")
    end
  else fallback.

(** Lines 172-176, after a good initialize response. *)
Definition after_initialize (now : Z) (t : nat) (k : task) (s : session) : session :=
  let s := notify now (js "notifications/initialized") s in
  set_task t (with_pc k Pausing) (emit now (EPause t 500) s).

(** Lines 179-184, after the pause. *)
Definition start_call (now : Z) (t : nat) (k : task) (s : session) : session :=
  let s := set_phase calling s in
  let isToolsList := bool_decide (toolName s = js "__tools_list__") in
  let '(r, s) := postRpc now t 2
                   (if isToolsList then js "tools/list" else js "tools/call") s in
  set_task t (with_pc k (AwaitCall r)) s.

(** Lines 186-202, with the response of the tool call. *)
Definition after_call (now : Z) (t : nat) (k : task) (result : value)
    (s : session) : session :=
  match prop result "error" with
  | None => on_catch now t k
              (type_error "Cannot read properties of null (reading 'error')") s
  | Some e =>
      if truthy e then
        settle now (Rejected (mcp_error e)) (set_task t (with_pc k Returned) s)
      else
        let s := set_phase done s in
        match extract_result result with
        | inr v => settle now (Resolved v) (set_task t (with_pc k Returned) s)
        | inl err => on_catch now t k err s
        end
  end.

(** The task awaiting request [r] continues with the settled promise. *)
Definition resume (now : Z) (r : nat) (res : promise_state) (s : session) : session :=
  match requests s !! r with
  | None => s
  | Some q =>
      let t := rq_owner q in
      match tasks s !! t with
      | None => s
      | Some k =>
          match at_pc k, res with
          | AwaitInit r', Fulfilled resp =>
              if bool_decide (r' = r) then
                match prop resp "error" with
                | None => on_catch now t k
                    (type_error "Cannot read properties of null (reading 'error')") s
                | Some e =>
                    if truthy e then on_catch now t k (mcp_error e) s
                    else after_initialize now t k s
                end
              else s
          | AwaitCall r', Fulfilled result =>
              if bool_decide (r' = r) then after_call now t k result s else s
          | AwaitInit r', Failed err | AwaitCall r', Failed err =>
              if bool_decide (r' = r) then on_catch now t k err s else s
          | _, _ => s
          end
      end
  end.

(** [resolve(data)] or [reject(err)] of request [r]'s promise: only the
    first call has an effect. *)
Definition settle_request (now : Z) (r : nat) (res : promise_state)
    (s : session) : session :=
  match requests s !! r with
  | Some q =>
      match rq_promise q with
      | Pending => resume now r res (set_promise r res s)
      | _ => s
      end
  | None => s
  end.

(** The [message] listener (lines 93-102). *)
Definition on_message (now : Z) (data : jstring) (s : session) : session :=
  match JSON_parse data with
  | None => s
  | Some d =>
      match prop d "id" with
      | None => s
      | Some (VNum n) =>
          match pending s !! n with
          | Some r =>
              let s := set_pending (delete n (pending s)) s in
              let s := clear_rpc_timer r s in
              settle_request now r (Fulfilled d) s
          | None => s
          end
      | Some _ => s
      end
  end.

(** The [endpoint] listener (lines 83-90). *)
Definition on_endpoint (now : Z) (data : jstring) (s : session) : session :=
  let s := set_msgUrl (GOMARBLE_ORIGIN ++ data) s in
  let s := set_phase initializing s in
  let t := length (tasks s) in
  let k := Task now 500 None Sleeping in
  loop_head now t k (set_tasks (tasks s ++ [k]) s).

(** The [error] listener (lines 104-109). *)
Definition on_error (now : Z) (message : option jstring) (s : session) : session :=
  match phase s with
  | connecting =>
      settle now
        (Rejected (js "SSE connection failed: "
                     ++ match message with
                        | Some m => if truthy_str m then m else js "unknown"
                        | None => js "unknown"
                        end)) s
  | _ => s
  end.

(** A timer a run of [doInitialize] sleeps on fires. *)
Definition on_wake (now : Z) (t : nat) (s : session) : session :=
  match tasks s !! t with
  | Some k =>
      match at_pc k with
      | Sleeping =>
          let '(r, s) := postRpc now t 1 (js "initialize") s in
          set_task t (with_pc k (AwaitInit r)) s
      | Pausing => start_call now t k s
      | _ => s
      end
  | None => s
  end.

(** The 30 s timer of a request fires (lines 114-117). *)
Definition on_rpc_timer (now : Z) (r : nat) (s : session) : session :=
  match requests s !! r with
  | Some q =>
      match rq_timer q with
      | Armed =>
          let s := set_request r (Request (rq_id q) (rq_method q) (rq_owner q)
                                    Fired (rq_promise q) (rq_fetch_done q)) s in
          let s := set_pending (delete (rq_id q) (pending s)) s in
          settle_request now r
            (Failed (js "Timeout waiting for " ++ rq_method q ++ js " response")) s
      | _ => s
      end
  | None => s
  end.

(** The rejection paths of the [fetch] in [postRpc] (lines 127-139). *)
Definition fetch_rejects (now : Z) (r : nat) (q : request) (e : error)
    (s : session) : session :=
  let s := clear_rpc_timer r s in
  let s := set_pending (delete (rq_id q) (pending s)) s in
  settle_request now r (Failed e) s.

Definition mark_fetch_done (r : nat) (s : session) : session :=
  match requests s !! r with
  | Some q =>
      set_request r (Request (rq_id q) (rq_method q) (rq_owner q) (rq_timer q)
                       (rq_promise q) true) s
  | None => s
  end.

Definition on_fetch_status (now : Z) (r : nat) (status : Z) (body : jstring)
    (s : session) : session :=
  match requests s !! r with
  | Some q =>
      if rq_fetch_done q then s
      else
        let s := mark_fetch_done r s in
        if negb (status =? 200) && negb (status =? 202) then
          fetch_rejects now r q
            (js "POST " ++ Z_to_jstring status ++ js ": " ++ body) s
        else s
  | None => s
  end.

Definition on_fetch_failed (now : Z) (r : nat) (e : error) (s : session) : session :=
  match requests s !! r with
  | Some q =>
      if rq_fetch_done q then s
      else fetch_rejects now r q e (mark_fetch_done r s)
  | None => s
  end.

(** The reconnect route (lines 281-287). *)
Definition on_reconfigure (apiKey : jstring) (s : session) : session :=
  if truthy_str apiKey then set_API_KEY apiKey s else s.

(** The [fetch] option (lines 76-79), called by the [EventSource] each
    time it connects: by the constructor (in [new_session]) and again
    whenever it connects anew after the stream ended or failed.  The
    header is built from [API_KEY] at the call. *)
Definition on_reconnect (now : Z) (s : session) : session :=
  emit now (EConnect (bearer (API_KEY s))) s.

(** One turn of the event loop.  The stream delivers nothing and does
    not connect again once closed, and a timer that was cleared or has
    fired does not fire. *)
Definition step (s : session) (ev : event) : session :=
  let '(now, k) := ev in
  match k with
  | SseEndpoint data => if es s then on_endpoint now data s else s
  | SseMessage data => if es s then on_message now data s else s
  | SseError m => if es s then on_error now m s else s
  | SessionTimer =>
      if timer s then settle now (Rejected (js "Session timeout")) s else s
  | Wake t => on_wake now t s
  | RpcTimer r => on_rpc_timer now r s
  | FetchStatus r status body => on_fetch_status now r status body s
  | FetchFailed r e => on_fetch_failed now r e s
  | Reconfigure apiKey => on_reconfigure apiKey s
  | SseReconnect => if es s then on_reconnect now s else s
  end.

Definition run (s : session) (evs : list event) : session :=
  fold_left step evs s.

(** How the returned promise stands: the value [fn(val)] was called with. *)
Definition result_of (s : session) : option outcome :=
  List.find (fun _ => true)
    (omap (fun e => match snd e with ESettle o => Some o | _ => None end) (log s)).

End WithJsonParse.

End Session.

(** ** The request correlator on its own *)

Module Correlator.
Import Session.

(** What can happen to a session seen as a correlator: a caller sends a
    request with [postRpc], or the event loop delivers an event. *)
Inductive op :=
| Call (t : nat) (id : Z) (method : jstring)
| Deliver (k : event_kind).

Definition apply_op (JSON_parse : jstring -> option value) (s : session)
    (o : Z * op) : session :=
  match snd o with
  | Call t id m => snd (postRpc (fst o) t id m s)
  | Deliver k => step JSON_parse s (fst o, k)
  end.

Definition exec (JSON_parse : jstring -> option value) (s : session)
    (ops : list (Z * op)) : session :=
  fold_left (apply_op JSON_parse) ops s.

Definition ids (s : session) : list Z := List.map rq_id (requests s).

End Correlator.

(** ** The retry wrapper ([mcpToolCall], lines 222-240) *)

Module Retry.
Import Session.

(** How an [async] call ends: with a value, with an exception, or never
    (the events given leave an awaited promise pending). *)
Inductive call_result :=
| Return (v : value)
| Throw (e : error)
| Awaiting
| OutOfFuel.

Definition isTransient (msg : error) : bool :=
  includes msg (js "No transport found") || includes msg (js "POST 400")
  || includes msg (js "SSE") || includes msg (js "Transport never").

(** One session attempt as the wrapper ran it: the state its executor
    left and the state the events led to. *)
Record attempt_record := Attempt {
  began : session;
  ended : session
}.

Record report := Report {
  result : call_result;
  attempts : list attempt_record;   (* in order *)
  delays : list Z;                  (* the waits of line 234, in order *)
  key_after : jstring               (* [API_KEY] when the call ended *)
}.

Section WithJsonParse.

Variable JSON_parse : jstring -> option value.

(** [mcpSessionCall(toolName, toolArgs)] with the default [timeoutMs]. *)
Definition mcpSessionCall (key toolName : jstring) (toolArgs : value)
    (now : Z) (evs : list event) : attempt_record :=
  let s0 := new_session key toolName toolArgs 60000 now in
  Attempt s0 (run JSON_parse s0 evs).

(** The [for] loop.  [env attempt] is what the outside does during that
    attempt: the clock when it starts and the events its session gets. *)
Fixpoint attempt_loop (fuel : nat) (attempt maxRetries : Z) (key toolName : jstring)
    (toolArgs : value) (env : Z -> Z * list event)
    (done : list attempt_record) (slept : list Z) : report :=
  if attempt <? maxRetries then
    match fuel with
    | O => Report OutOfFuel done slept key
    | S fuel' =>
        let a := mcpSessionCall key toolName toolArgs
                   (fst (env attempt)) (snd (env attempt)) in
        let key' := API_KEY (ended a) in
        match result_of (ended a) with
        | None => Report Awaiting (done ++ [a]) slept key'
        | Some (Resolved v) => Report (Return v) (done ++ [a]) slept key'
        | Some (Rejected err) =>
            if isTransient err && (attempt <? maxRetries - 1) then
              let delay := 3000 * (attempt + 1) in
              attempt_loop fuel' (attempt + 1) maxRetries key' toolName toolArgs
                env (done ++ [a]) (slept ++ [delay])
            else Report (Throw err) (done ++ [a]) slept key'
        end
    end
  else Report (Return VUndef) done slept key.

Definition mcpToolCall (key toolName : jstring) (toolArgs : value)
    (maxRetries : Z) (env : Z -> Z * list event) : report :=
  attempt_loop (Z.to_nat maxRetries) 0 maxRetries key toolName toolArgs env [] [].

End WithJsonParse.

End Retry.

(** ** The call queue (lines 249-266) *)

Module CallQueue.
Import Session Retry.

Inductive response :=
| Json (v : value)                  (* [res.json(result)] *)
| Status500 (msg : error)           (* [res.status(500).json({error})] *)
| Status400.                        (* missing tool name *)

(** A promise of the chain: whether it is fulfilled, and the jobs whose
    handler [then] registered on it. *)
Record promise := Promise {
  fulfilled : bool;
  reactions : list nat
}.

(** An accepted request: its tool, its [res] and the promise [then]
    returned for its handler. *)
Record job := Job {
  jname : jstring;
  jargs : value;
  jres : nat;
  jpromise : nat
}.

Inductive entry :=
| Started (j : nat)                 (* the handler calls [mcpToolCall] *)
| Responded (res : nat) (r : response).

Record server := Server {
  promises : list promise;
  callQueue : nat;
  jobs : list job;
  running : list nat;               (* handlers awaiting their [mcpToolCall] *)
  qlog : list entry
}.

(** A POST whose body was parsed, with [name] and [arguments] as the
    body has them (an empty [name] when it has none), and the end of the
    tool call of a job. *)
Inductive qevent :=
| Submit (name : jstring) (args : value) (res : nat)
| Complete (j : nat) (r : call_result).

(** [let callQueue = Promise.resolve()]. *)
Definition boot : server := Server [Promise true []] 0 [] [] [].

(** The handler of job [j] starts: lines 256-258. *)
Definition start_job (j : nat) (s : server) : server :=
  Server (promises s) (callQueue s) (jobs s) (running s ++ [j])
         (qlog s ++ [Started j]).

(** [callQueue = callQueue.then(handler)]. *)
Definition submit (name : jstring) (args : value) (res : nat) (s : server) : server :=
  if truthy_str name then
    let j := length (jobs s) in
    let d := length (promises s) in
    let p := callQueue s in
    let s1 := Server (promises s ++ [Promise false []]) d
                (jobs s ++ [Job name args res d]) (running s) (qlog s) in
    match promises s !! p with
    | Some (Promise true _) => start_job j s1
    | Some (Promise false rs) =>
        Server (<[p := Promise false (rs ++ [j])]> (promises s1)) (callQueue s1)
               (jobs s1) (running s1) (qlog s1)
    | None => s1
    end
  else
    Server (promises s) (callQueue s) (jobs s) (running s)
           (qlog s ++ [Responded res Status400]).

(** Lines 260 and 263: what the handler answers with. *)
Definition respond (r : call_result) : option response :=
  match r with
  | Return v => Some (Json v)
  | Throw e => Some (Status500 e)
  | Awaiting | OutOfFuel => None
  end.

(** The awaited [mcpToolCall] of job [j] ends: lines 259-264, then the
    handler's promise is fulfilled and its reactions run. *)
Definition complete (j : nat) (r : call_result) (s : server) : server :=
  if bool_decide (j ∈ running s) then
    match jobs s !! j, respond r with
    | Some jb, Some resp =>
        let rs := match promises s !! jpromise jb with
                  | Some p => reactions p
                  | None => []
                  end in
        let s1 := Server (<[jpromise jb := Promise true []]> (promises s))
                    (callQueue s) (jobs s)
                    (filter (fun x => x ≠ j) (running s))
                    (qlog s ++ [Responded (jres jb) resp]) in
        fold_left (fun acc x => start_job x acc) rs s1
    | _, _ => s
    end
  else s.

Definition qstep (s : server) (ev : qevent) : server :=
  match ev with
  | Submit name args res => submit name args res s
  | Complete j r => complete j r s
  end.

Definition qrun (evs : list qevent) : server := fold_left qstep evs boot.

End CallQueue.

(** ** Concrete runs *)

Module Scenarios.
Import EventStream Session Correlator Retry CallQueue.

(** JSON text written with apostrophes for the double quotes. *)
Definition jsq (s : string) : jstring :=
  List.map (fun c => if (c =? 39)%N then 34%N else c) (js s).

(** A stand-in for [JSON.parse] that knows the texts of a run. *)
Definition parse_table (tbl : list (jstring * value)) (data : jstring)
  : option value :=
  snd <$> List.find (fun p => bool_decide (fst p = data)) tbl.

Definition init_ok : jstring := jsq "{'jsonrpc':'2.0','id':1,'result':{}}".
Definition init_ok_v : value :=
  VObj [(js "jsonrpc", VStr (js "2.0")); (js "id", VNum 1);
        (js "result", VObj [])].

(** A tool-call response whose error message mentions the stream. *)
Definition call_err : jstring :=
  jsq "{'jsonrpc':'2.0','id':2,'error':{'code':-32000,'message':'SSE stream closed'}}".
Definition call_err_v : value :=
  VObj [(js "jsonrpc", VStr (js "2.0")); (js "id", VNum 2);
        (js "error", VObj [(js "code", VNum (-32000));
                           (js "message", VStr (js "SSE stream closed"))])].

(** An initialize response with an error that matches no pattern. *)
Definition bad_key : jstring :=
  jsq "{'jsonrpc':'2.0','id':1,'error':{'code':-32000,'message':'bad key'}}".
Definition bad_key_v : value :=
  VObj [(js "jsonrpc", VStr (js "2.0")); (js "id", VNum 1);
        (js "error", VObj [(js "code", VNum (-32000));
                           (js "message", VStr (js "bad key"))])].

(** A tool-call response whose text is not JSON. *)
Definition call_text : jstring :=
  jsq "{'jsonrpc':'2.0','id':2,'result':{'content':[{'type':'image','data':'x'},{'type':'text','text':'not json'}]}}".
Definition call_text_v : value :=
  VObj [(js "jsonrpc", VStr (js "2.0")); (js "id", VNum 2);
        (js "result",
         VObj [(js "content",
                VArr [VObj [(js "type", VStr (js "image")); (js "data", VStr (js "x"))];
                      VObj [(js "type", VStr (js "text"));
                            (js "text", VStr (js "not json"))]])])].

Definition parse : jstring -> option value :=
  parse_table [(init_ok, init_ok_v); (call_err, call_err_v);
               (bad_key, bad_key_v); (call_text, call_text_v)].

(** A tool-call response whose content is a string, and one whose
    content list has a null before its text entry. *)
Definition call_plain : jstring :=
  jsq "{'jsonrpc':'2.0','id':2,'result':{'content':'plain text'}}".
Definition call_plain_v : value :=
  VObj [(js "jsonrpc", VStr (js "2.0")); (js "id", VNum 2);
        (js "result", VObj [(js "content", VStr (js "plain text"))])].
Definition call_null : jstring :=
  jsq "{'jsonrpc':'2.0','id':2,'result':{'content':[null,{'type':'text','text':'7'}]}}".
Definition call_null_v : value :=
  VObj [(js "jsonrpc", VStr (js "2.0")); (js "id", VNum 2);
        (js "result",
         VObj [(js "content",
                VArr [VNull;
                      VObj [(js "type", VStr (js "text"));
                            (js "text", VStr (js "7"))]])])].

(** An initialize response that reports the transport as not ready. *)
Definition not_ready : jstring :=
  jsq "{'jsonrpc':'2.0','id':1,'error':{'code':-32000,'message':'No transport found'}}".
Definition not_ready_v : value :=
  VObj [(js "jsonrpc", VStr (js "2.0")); (js "id", VNum 1);
        (js "error", VObj [(js "code", VNum (-32000));
                           (js "message", VStr (js "No transport found"))])].

Definition parse_more : jstring -> option value :=
  parse_table [(init_ok, init_ok_v); (call_plain, call_plain_v);
               (call_null, call_null_v); (not_ready, not_ready_v);
               (jsq "7", VNum 7)].

Definition endpoint_path : jstring := js "/mcp-api/messages?sessionId=abc".

(** The handshake succeeds and the tool call is answered with [last]. *)
Definition call_script (last : jstring) : list event :=
  [ (100, SseEndpoint endpoint_path);
    (600, Wake 0%nat);
    (650, FetchStatus 0%nat 202 (js "Accepted"));
    (700, SseMessage init_ok);
    (1200, Wake 0%nat);
    (1250, FetchStatus 1%nat 202 (js "Accepted"));
    (1300, SseMessage last) ].

(** The initialize request is answered with an error. *)
Definition bad_key_script : list event :=
  [ (100, SseEndpoint endpoint_path);
    (600, Wake 0%nat);
    (650, FetchStatus 0%nat 202 (js "Accepted"));
    (700, SseMessage bad_key) ].

(** The credential is replaced while the attempt waits before its first
    initialize request. *)
Definition reconfigured_script (key : jstring) : list event :=
  [ (100, SseEndpoint endpoint_path);
    (300, Reconfigure key);
    (600, Wake 0%nat);
    (650, FetchStatus 0%nat 202 (js "Accepted"));
    (700, SseMessage bad_key) ].

(** The credential is replaced, then the stream ends and the
    [EventSource] connects again, three seconds later. *)
Definition reconnected_script (key : jstring) : list event :=
  [ (100, SseEndpoint endpoint_path);
    (150, Reconfigure key);
    (200, SseError None);
    (3200, SseReconnect) ].

(** One poll: the wait ends at [wake], the POST is answered 400 after
    50 ms. *)
Definition poll (r : nat) (wake : Z) : list event :=
  [ (wake, Wake 0%nat);
    (wake + 50, FetchStatus r 400 (js "No transport found for sessionId")) ].

(** The transport never becomes ready: every poll is answered 400, each
    wait lasting what [setTimeout] was asked for (rounded down). *)
Definition never_ready_script : list event :=
  (1000, SseEndpoint endpoint_path)
  :: poll 0 1500 ++ poll 1 2300 ++ poll 2 3475 ++ poll 3 5212 ++ poll 4 7793
  ++ poll 5 10843 ++ poll 6 13893 ++ poll 7 16943 ++ poll 8 19993
  ++ poll 9 23043.

Definition session0 (evs : list event) : session :=
  run parse (new_session (js "key-1") (js "get_ads") VNull 60000 0) evs.

Definition session1 (evs : list event) : session :=
  run parse_more (new_session (js "key-1") (js "get_ads") VNull 60000 0) evs.

(** The polling loop and the correlator: the first initialize request
    is answered over the stream, as not ready, before its POST is; the
    loop sends the second one under the same id; then the POST of the
    first is refused; then the response to the second arrives. *)
Definition overtaken_script : list event :=
  [ (100, SseEndpoint endpoint_path);
    (600, Wake 0%nat);
    (650, SseMessage not_ready);
    (1400, Wake 0%nat);
    (1450, FetchStatus 0%nat 400 (js "No transport found for sessionId"));
    (1500, SseMessage init_ok);
    (1550, FetchStatus 1%nat 202 (js "Accepted")) ].

(** The 30 s timer of the second request fires. *)
Definition overtaken_timeout : list event :=
  overtaken_script ++ [ (31400, RpcTimer 1%nat) ].

(** When the promise of a session was settled. *)
Definition settled_at (s : session) : option Z :=
  fst <$> List.find (fun e => match snd e with ESettle _ => true | _ => false end)
            (log s).

(** Two frames in five chunks, cut in the middle of lines, and the
    beginning of a third frame. *)
Definition demo_frames : list frame :=
  [ Frame (Some (js " endpoint")) (js " /mcp-api/messages?sessionId=abc");
    Frame None (js " payload-2") ].
Definition demo_partial : jstring := js "data: par".
Definition demo_chunks : list jstring :=
  [ js "eve"; js "nt: endpoint" ++ [NL] ++ js "da";
    js "ta: /mcp-api/messages?sessionId=abc" ++ [NL];
    [NL] ++ js "data: payload-2" ++ [NL] ++ [NL] ++ js "dat"; js "a: par" ].

(** Two requests in flight; the second is answered first, then the
    first times out, then its response arrives too late. *)
Definition frame7 : jstring := jsq "{'jsonrpc':'2.0','id':7,'result':{}}".
Definition frame7_v : value :=
  VObj [(js "jsonrpc", VStr (js "2.0")); (js "id", VNum 7); (js "result", VObj [])].
Definition frame8 : jstring := jsq "{'jsonrpc':'2.0','id':8,'result':{}}".
Definition frame8_v : value :=
  VObj [(js "jsonrpc", VStr (js "2.0")); (js "id", VNum 8); (js "result", VObj [])].
Definition parse78 : jstring -> option value :=
  parse_table [(frame7, frame7_v); (frame8, frame8_v)].
Definition two_requests : list (Z * op) :=
  [ (10, Call 0%nat 7 (js "first")); (20, Call 0%nat 8 (js "second")) ].
Definition correlated_ops : list (Z * op) :=
  two_requests
  ++ (500, Deliver (SseMessage frame8))
  :: [ (30010, Deliver (RpcTimer 0%nat)); (30500, Deliver (SseMessage frame7)) ].

(** After that the POST of the first request is answered at last, a
    third request takes its id, and the response to that one arrives. *)
Definition reused_ops : list (Z * op) :=
  correlated_ops
  ++ [ (30600, Deliver (FetchStatus 0%nat 202 []));
       (30700, Call 0%nat 7 (js "third")) ].
Definition reused_answered : list (Z * op) :=
  reused_ops ++ [ (30800, Deliver (SseMessage frame7)) ].

(** A request is answered before its POST is; a second request takes
    its id; then the POST of the first is refused. *)
Definition overtaken_ops : list (Z * op) :=
  [ (10, Call 0%nat 7 (js "first")); (20, Deliver (SseMessage frame7));
    (30, Call 0%nat 7 (js "second"));
    (40, Deliver (FetchStatus 0%nat 400 (js "Bad Request")));
    (50, Deliver (SseMessage frame7)) ].

(** The credential is replaced, then the stream fails before the
    endpoint is announced. *)
Definition dropped_script : list event :=
  [ (50, Reconfigure (js "key-2")); (100, SseError (Some (js "socket hang up"))) ].
Definition dropped_then_bad_key (attempt : Z) : Z * list event :=
  if attempt =? 0 then (0, dropped_script) else (5000, bad_key_script).


(** The attempts and values the runs above end with. *)
Definition sse_closed : value :=
  VObj [(js "code", VNum (-32000)); (js "message", VStr (js "SSE stream closed"))].
Definition sse_attempt : attempt_record :=
  mcpSessionCall parse (js "key-1") (js "get_ads") VNull 0 (call_script call_err).
Definition bad_key_error : value :=
  VObj [(js "code", VNum (-32000)); (js "message", VStr (js "bad key"))].
Definition bad_key_attempt : attempt_record :=
  mcpSessionCall parse (js "key-1") (js "get_ads") VNull 0 bad_key_script.
Definition never_ready_task : task :=
  Task 1000 3000 (Some (js "POST 400: No transport found for sessionId"))
    (Thrown (js "POST 400: No transport found for sessionId")).
Definition dropped_attempt : attempt_record :=
  mcpSessionCall parse (js "key-1") (js "get_ads") VNull 0 dropped_script.
Definition second_attempt : attempt_record :=
  mcpSessionCall parse (js "key-2") (js "get_ads") VNull 5000 bad_key_script.

End Scenarios.

(** * Invariants and the vocabulary of the properties *)

(** ** Settlement of a session *)

Module SettleSpec.
Import Session.

Definition is_settlement (e : effect) : bool :=
  match e with
  | EClose | EClearSessionTimer | ESettle _ => true
  | _ => false
  end.

(** The closes, timer cancellations and promise settlements of a
    session, in the order they happened. *)
Definition settlement (s : session) : list effect :=
  List.filter is_settlement (List.map snd (log s)).

(** Either nothing of the kind has happened and the guard is open, or the
    guard is shut and exactly one close, one cancellation and one
    settlement happened, in this order. *)
Inductive guard_inv (s : session) : Prop :=
| guard_open :
    settled s = false -> es s = true -> timer s = true ->
    settlement s = [] -> guard_inv s
| guard_shut o :
    settled s = true -> es s = false -> timer s = false ->
    settlement s = [EClose; EClearSessionTimer; ESettle o] -> guard_inv s.

End SettleSpec.

(** ** Entries of a content list *)

Module ExtractSpec.
Import Session.



End ExtractSpec.

(** ** Derivations of the retry loop *)

Module RetrySpec.
Import Session Retry.

Section Loop.
Variable JSON_parse : jstring -> option value.
Variables (toolName : jstring) (toolArgs : value) (maxRetries : Z)
          (env : Z -> Z * list event).

(** The iterations of the loop from attempt [k] on, as a derivation:
    the attempts made, the waits between them, how the call ends and
    the credential left behind. *)
Inductive loop_from (k : Z) (key : jstring)
  : list attempt_record -> list Z -> call_result -> jstring -> Prop :=
| loop_exit :
    maxRetries <= k ->
    loop_from k key [] [] (Return VUndef) key
| loop_await a :
    k < maxRetries ->
    a = mcpSessionCall JSON_parse key toolName toolArgs (fst (env k)) (snd (env k)) ->
    result_of (ended a) = None ->
    loop_from k key [a] [] Awaiting (API_KEY (ended a))
| loop_return a v :
    k < maxRetries ->
    a = mcpSessionCall JSON_parse key toolName toolArgs (fst (env k)) (snd (env k)) ->
    result_of (ended a) = Some (Resolved v) ->
    loop_from k key [a] [] (Return v) (API_KEY (ended a))
| loop_throw a e :
    k < maxRetries ->
    a = mcpSessionCall JSON_parse key toolName toolArgs (fst (env k)) (snd (env k)) ->
    result_of (ended a) = Some (Rejected e) ->
    isTransient e = false \/ maxRetries - 1 <= k ->
    loop_from k key [a] [] (Throw e) (API_KEY (ended a))
| loop_retry a e rest ds res key' :
    k < maxRetries ->
    a = mcpSessionCall JSON_parse key toolName toolArgs (fst (env k)) (snd (env k)) ->
    result_of (ended a) = Some (Rejected e) ->
    isTransient e = true -> k < maxRetries - 1 ->
    loop_from (k + 1) (API_KEY (ended a)) rest ds res key' ->
    loop_from k key (a :: rest) (3000 * (k + 1) :: ds) res key'.

(** The key each attempt of a derivation starts with. *)
Fixpoint key_before (key : jstring) (done : list attempt_record) : jstring :=
  match done with
  | [] => key
  | a :: rest => key_before (API_KEY (ended a)) rest
  end.

(** What a derivation says about the attempts, the waits and the result. *)
Definition loop_facts (k : Z) (key : jstring) (news : list attempt_record)
    (ds : list Z) (res : call_result) : Prop :=
  res <> OutOfFuel
  /\ ds = List.map (fun i => 3000 * (k + Z.of_nat i + 1))
            (seq 0 (length news - 1))
  /\ (forall i a, news !! i = Some a ->
        a = mcpSessionCall JSON_parse (key_before key (take i news)) toolName
              toolArgs (fst (env (k + Z.of_nat i))) (snd (env (k + Z.of_nat i)))
        /\ k + Z.of_nat i < maxRetries)
  /\ (forall i a e, news !! i = Some a ->
        result_of (ended a) = Some (Rejected e) ->
        (S i < length news)%nat
        <-> isTransient e = true /\ k + Z.of_nat i < maxRetries - 1)
  /\ (forall i a, news !! i = Some a -> (S i < length news)%nat ->
        exists e, result_of (ended a) = Some (Rejected e))
  /\ match last news with
     | None => res = Return VUndef /\ maxRetries <= k
     | Some a =>
         match result_of (ended a) with
         | None => res = Awaiting
         | Some (Resolved v) => res = Return v
         | Some (Rejected e) => res = Throw e
         end
     end.

End Loop.

End RetrySpec.

(** ** Credentials on the wire *)

Module CredentialSpec.
Import Session.

(** The [Authorization] header of an effect that is an HTTP request. *)
Definition authorization_of (e : effect) : option jstring :=
  match e with
  | EConnect a => Some a
  | EPost _ a _ _ => Some a
  | _ => None
  end.

(** An HTTP request carries this credential; other effects carry none. *)
Definition carries (key : jstring) (e : Z * effect) : Prop :=
  match authorization_of (snd e) with
  | Some a => a = bearer key
  | None => True
  end.

Section Sent.
(** The credential and the log when an event handler starts. *)
Variables (K : jstring) (L0 : list (Z * effect)).

(** The credential is untouched and whatever was sent since carries it. *)
Definition sent_with_K (s : session) : Prop :=
  API_KEY s = K
  /\ exists news, log s = L0 ++ news /\ Forall (carries K) news.

End Sent.

End CredentialSpec.

(** ** The backoff sequence and the waits of a run *)

Module BackoffSpec.
Import Session.

(** The waits of the polling loop: 500, then 1.5 times the last, capped. *)
Fixpoint backoff (n : nat) : Q :=
  match n with
  | O => 500
  | S n' => next_delay (backoff n')
  end.

Definition sleep_of (t : nat) (e : Z * effect) : option (Z * Q) :=
  match snd e with
  | ESleep t' d => if bool_decide (t' = t) then Some (fst e, d) else None
  | _ => None
  end.

(** The backoff waits run [t] of [doInitialize] has started, each with
    the clock at that moment. *)
Definition sleeps (t : nat) (s : session) : list (Z * Q) :=
  omap (sleep_of t) (log s).

Definition alive (p : pc) : Prop :=
  match p with Returned | Thrown _ => False | _ => True end.

(** The waits started so far are the first of the backoff sequence and
    each began before the deadline. *)
Definition polled_ok (s : session) (t : nat) (k : task) : Prop :=
  List.map snd (sleeps t s) = List.map backoff (seq 0 (length (sleeps t s)))
  /\ Forall (fun p => fst p - start k < 20000) (sleeps t s).

Definition task_ok (s : session) (t : nat) (k : task) : Prop :=
  polled_ok s t k
  /\ (alive (at_pc k) ->
      sleeps t s <> [] /\ delay k = backoff (length (sleeps t s) - 1)).

Definition backoff_inv (s : session) : Prop :=
  (forall t k, tasks s !! t = Some k -> task_ok s t k)
  /\ (forall t, (length (tasks s) <= t)%nat -> sleeps t s = []).

(** Steps that touch neither the runs nor their waits. *)
Definition same_tasks (s s' : session) : Prop :=
  tasks s' = tasks s /\ forall t, sleeps t s' = sleeps t s.

End BackoffSpec.

(** ** The state of the correlator *)

Module CorrelatorSpec.
Import Session Correlator.

Definition upd (q : request) (tm : timer_state) (pr : promise_state)
    (fd : bool) : request :=
  Request (rq_id q) (rq_method q) (rq_owner q) tm pr fd.

(** Timer and promise of a request go together. *)
Definition req_ok (q : request) : Prop :=
  match rq_promise q with
  | Pending => rq_timer q = Armed
  | Fulfilled d =>
      rq_timer q = Cleared /\ prop d "id" = Some (VNum (rq_id q))
  | Failed _ => rq_timer q <> Armed
  end.

(** The map holds only requests that wait for their response. *)
Definition corr_inv (s : session) : Prop :=
  (forall id r, pending s !! id = Some r ->
     exists q, requests s !! r = Some q /\ rq_id q = id /\ rq_promise q = Pending)
  /\ (forall r q, requests s !! r = Some q -> req_ok q).

(** Every request that waits for its response is in the map. *)
Definition findable (s : session) : Prop :=
  forall r q, requests s !! r = Some q -> rq_promise q = Pending ->
              pending s !! rq_id q = Some r.

Definition same_reqs (s s' : session) : Prop :=
  requests s' = requests s /\ pending s' = pending s.

(** A request is spent when its promise is settled and its POST has
    been answered: nothing of it is left that could still happen. *)
Definition spentb (q : request) : bool :=
  match rq_promise q with
  | Pending => false
  | _ => rq_fetch_done q
  end.

(** No request in [s] with this id has anything left to happen. *)
Definition fresh_idb (s : session) (id : Z) : bool :=
  forallb (fun q => negb (rq_id q =? id) || spentb q) (requests s).

(** The requests a step added use ids that were free. *)
Definition registers_ok (s s' : session) : bool :=
  forallb (fun q => fresh_idb s (rq_id q))
    (skipn (length (requests s)) (requests s')).

(** Along the run, an id is taken again only once the request that had
    it is spent. *)
Fixpoint disciplined (JSON_parse : jstring -> option value) (s : session)
    (ops : list (Z * op)) : bool :=
  match ops with
  | [] => true
  | o :: rest =>
      registers_ok s (apply_op JSON_parse s o)
      && disciplined JSON_parse (apply_op JSON_parse s o) rest
  end.

(** Of two requests with the same id, the earlier one is spent. *)
Definition ids_disciplined (s : session) : Prop :=
  forall r1 r2 q1 q2,
    (r1 < r2)%nat -> requests s !! r1 = Some q1 -> requests s !! r2 = Some q2 ->
    rq_id q1 = rq_id q2 -> spentb q1 = true.

(** How one request may change in one step. *)
Inductive touch (s : session) (r : nat) (q q' : request) : option Z -> Prop :=
| touch_resolved d :
    rq_promise q = Pending -> pending s !! rq_id q = Some r ->
    prop d "id" = Some (VNum (rq_id q)) ->
    q' = upd q Cleared (Fulfilled d) (rq_fetch_done q) ->
    touch s r q q' (Some (rq_id q))
| touch_failed tm e fd :
    rq_promise q = Pending -> tm <> Armed ->
    q' = upd q tm (Failed e) fd ->
    touch s r q q' (Some (rq_id q))
| touch_stale :
    rq_promise q <> Pending -> rq_fetch_done q = false ->
    q' = upd q (rq_timer q) (rq_promise q) true ->
    touch s r q q' (Some (rq_id q))
| touch_flag :
    rq_fetch_done q = false ->
    q' = upd q (rq_timer q) (rq_promise q) true ->
    touch s r q q' None.

(** What one step does to the correlator. *)
Inductive effect_on (s s' : session) : Prop :=
| eff_frame : same_reqs s s' -> effect_on s s'
| eff_register id m t :
    requests s' = requests s ++ [Request id m t Armed Pending false] ->
    pending s' = <[id := length (requests s)]> (pending s) ->
    effect_on s s'
| eff_touch r q q' del :
    requests s !! r = Some q ->
    requests s' = <[r := q']> (requests s) ->
    pending s' = match del with
                 | Some k => delete k (pending s)
                 | None => pending s
                 end ->
    touch s r q q' del ->
    effect_on s s'.

End CorrelatorSpec.

(** ** The shape of the promise chain *)

Module CallQueueSpec.
Import Session Retry CallQueue.

(** The entries of the handlers (the refusals of requests without a
    tool name are answered outside the queue). *)
Definition in_queue (e : entry) : bool :=
  match e with
  | Responded _ Status400 => false
  | _ => true
  end.

Definition queue_log (s : server) : list entry := List.filter in_queue (qlog s).




End CallQueueSpec.

(** * The rest of the code *)

(** ** Strings that [trim] leaves alone *)

Module JsStringSpec.

(** A string [trim] leaves as it is. *)
Definition trimmed (s : jstring) : Prop := trim s = s.

End JsStringSpec.

(** ** The reader on streams that are not made of well-formed frames *)

Module EventStreamText.
Import EventStream JsStringSpec.

Definition CR : N := 13%N.

(** A text whose lines all end in CR LF. *)
Definition crlf_text (lines : list jstring) : jstring :=
  concat (List.map (fun l => l ++ [CR; NL]) lines).

(** The variables hold trimmed strings, and what is emitted has trimmed
    strings and a payload that is not empty. *)
Definition clean (st : jstring * jstring * list StreamEvent) : Prop :=
  trimmed (fst (fst st)) /\ trimmed (snd (fst st))
  /\ Forall (fun e => trimmed (fst e) /\ trimmed (snd e) /\ snd e <> []) (snd st).

End EventStreamText.

(** ** What one turn of the event loop leaves alone *)

Module SessionFrame.
Import Session.

Definition is_post (e : effect) : bool :=
  match e with EPost _ _ _ _ => true | _ => false end.

(** A request on the wire goes to the URL announced by the stream, with
    the current credential, and is sent by a run of [doInitialize]. *)
Definition post_from (s : session) (e : Z * effect) : Prop :=
  match snd e with
  | EPost url a _ _ => url = msgUrl s /\ a = bearer (API_KEY s) /\ tasks s <> []
  | _ => True
  end.

(** What the handling of an event other than [endpoint] and than a
    reconfiguration keeps. *)
Record keeps (s s' : session) : Prop := Keeps {
  k_name : toolName s' = toolName s;
  k_args : toolArgs s' = toolArgs s;
  k_key : API_KEY s' = API_KEY s;
  k_url : msgUrl s' = msgUrl s;
  k_tasks : length (tasks s') = length (tasks s);
  k_reqs : (length (requests s) <= length (requests s'))%nat;
  k_phase : phase s <> connecting -> phase s' <> connecting;
  k_idle : tasks s = [] -> phase s' = phase s;
  k_settled : settled s = true -> settled s' = true;
  k_log : exists news, log s' = log s ++ news /\ Forall (post_from s) news
}.

(** From [s] to [s'] effects were added to the log, no request among
    them. *)
Definition quiet (s s' : session) : Prop :=
  exists news, log s' = log s ++ news
               /\ Forall (fun e => is_post (snd e) = false) news.

(** The [data] of the [endpoint] events among the events. *)
Definition announced (evs : list event) : list jstring :=
  omap (fun ev => match snd ev with SseEndpoint d => Some d | _ => None end) evs.

(** The URL of a request on the wire is one the stream announced. *)
Definition to_announced (evs : list event) (e : Z * effect) : Prop :=
  match snd e with
  | EPost url _ _ _ => exists d, In d (announced evs) /\ url = GOMARBLE_ORIGIN ++ d
  | _ => True
  end.

(** The requests sent so far went to announced URLs, and so will the
    next ones. *)
Definition url_inv (s : session) (pre : list event) : Prop :=
  Forall (to_announced pre) (log s)
  /\ (tasks s <> [] ->
      exists d, In d (announced pre) /\ msgUrl s = GOMARBLE_ORIGIN ++ d).

End SessionFrame.

(** ** The order of the handshake *)

Module Handshake.
Import Session.

(** Lines 180-183: the method of the second request. *)
Definition tools_method (tool : jstring) : jstring :=
  if bool_decide (tool = js "__tools_list__") then js "tools/list"
  else js "tools/call".

(** Run [t] of [doInitialize] got a response without [error] to an
    initialize request of its own. *)
Definition initialized (s : session) (t : nat) : Prop :=
  exists r q d e,
    requests s !! r = Some q /\ rq_owner q = t /\ rq_id q = 1
    /\ rq_method q = js "initialize"
    /\ rq_promise q = Fulfilled d /\ prop d "error" = Some e /\ truthy e = false.

(** The [notifications/initialized] message went out. *)
Definition notified (s : session) : Prop :=
  exists now url a,
    In (now, EPost url a None (js "notifications/initialized")) (log s).

(** A request keeps its identity, and its response once it has one. *)
Definition req_keeps (q q' : request) : Prop :=
  rq_id q' = rq_id q /\ rq_method q' = rq_method q /\ rq_owner q' = rq_owner q
  /\ forall d, rq_promise q = Fulfilled d -> rq_promise q' = Fulfilled d.

(** A place a run can be put at without a word on the handshake. *)
Definition harmless (p : pc) : Prop :=
  match p with
  | Pausing | AwaitInit _ => False
  | _ => True
  end.

(** Changes that send no request and move no run forward in the
    handshake. *)
Record safe (s s' : session) : Prop := Safe {
  sf_name : toolName s' = toolName s;
  sf_reqs : Forall2 req_keeps (requests s) (requests s');
  sf_tasks : forall t k', tasks s' !! t = Some k' ->
               tasks s !! t = Some k' \/ harmless (at_pc k');
  sf_log : exists news, log s' = log s ++ news
}.

(** Where the handshake stands, for the tool [tool]. *)
Record order_inv (tool : jstring) (s : session) : Prop := OrderInv {
  oi_name : toolName s = tool;
  oi_req : forall r q, requests s !! r = Some q ->
      (rq_id q = 1 /\ rq_method q = js "initialize")
      \/ (rq_id q = 2 /\ rq_method q = tools_method tool
          /\ initialized s (rq_owner q) /\ notified s);
  oi_pause : forall t k, tasks s !! t = Some k -> at_pc k = Pausing ->
      initialized s t /\ notified s;
  oi_init : forall t k r, tasks s !! t = Some k -> at_pc k = AwaitInit r ->
      exists q, requests s !! r = Some q /\ rq_owner q = t /\ rq_id q = 1
                /\ rq_method q = js "initialize"
}.

End Handshake.

(** ** How long the retry wrapper waits *)

Module RetryCost.
Import Session Retry.

(** The time spent in the waits of line 234, in milliseconds. *)
Definition total_wait (rep : report) : Z := fold_right Z.add 0 (delays rep).

(** The error of the 30 s timer of [postRpc] (line 116). *)
Definition rpc_timeout (method : jstring) : error :=
  js "Timeout waiting for " ++ method ++ js " response".

End RetryCost.

(** ** The call queue as its callers see it *)

Module CallQueueUse.
Import Session Retry CallQueue CallQueueSpec.



(** The [res] refused for lack of a tool name, in order. *)
Definition refused (s : server) : list nat :=
  omap (fun e => match e with Responded res Status400 => Some res | _ => None end)
       (qlog s).

Definition named (ev : qevent) : bool :=
  match ev with
  | Submit name _ _ => truthy_str name
  | Complete _ _ => true
  end.

(** The chain of two servers is the same. *)
Definition same_chain (s1 s2 : server) : Prop :=
  promises s1 = promises s2 /\ callQueue s1 = callQueue s2
  /\ jobs s1 = jobs s2 /\ running s1 = running s2
  /\ queue_log s1 = queue_log s2.

(** What reaches the route of line 251 and its handlers.  A POST comes
    with the body that was parsed, an object whose [name] is the given
    string (empty when it has none), or with no body at all: then
    [req.body] is undefined, the destructuring of line 252 throws and
    the handler ends there, leaving the answer to Express.  The end of
    a tool call is an event of the queue as before. *)
Inductive arrival :=
| Unparsed (res : nat)
| Parsed (ev : qevent).

(** The server, and the [res] of the requests whose handler threw. *)
Definition arrive (st : server * list nat) (a : arrival) : server * list nat :=
  match a with
  | Unparsed res => (fst st, snd st ++ [res])
  | Parsed ev => (qstep (fst st) ev, snd st)
  end.

Definition arrivals (l : list arrival) : server * list nat :=
  fold_left arrive l (boot, []).

Definition parsed (l : list arrival) : list qevent :=
  omap (fun a => match a with Parsed ev => Some ev | Unparsed _ => None end) l.

Definition unparsed (l : list arrival) : list nat :=
  omap (fun a => match a with Unparsed res => Some res | Parsed _ => None end) l.

(** The [res] of the requests whose body has no tool name. *)
Definition nameless (evs : list qevent) : list nat :=
  omap (fun ev => match ev with
                  | Submit name _ res => if truthy_str name then None else Some res
                  | Complete _ _ => None
                  end) evs.

End CallQueueUse.

(** ** The bridge server: loading [.env] (lines 12-25) *)

Module DotEnv.

(** [process.env]: the variables that are set. *)
Abbreviation environment := (gmap jstring jstring).

(** [String.prototype.indexOf] for one code unit: -1 when absent. *)
Fixpoint indexOf (s : jstring) (c : N) : Z :=
  match s with
  | [] => -1
  | d :: s' =>
      if N.eqb d c then 0
      else let i := indexOf s' c in if i <? 0 then -1 else i + 1
  end.

Definition EQUALS : N := 61%N.      (* = *)
Definition HASH : jstring := js "#".

(** What a line of the file defines, if anything (lines 15-20). *)
Definition parse_line (line : jstring) : option (jstring * jstring) :=
  let trimmed := trim line in
  if truthy_str trimmed && negb (startsWith trimmed HASH) then
    let eqIdx := indexOf trimmed EQUALS in
    if 0 <? eqIdx then
      Some (trim (take (Z.to_nat eqIdx) trimmed),
            trim (slice (Z.to_nat (eqIdx + 1)) trimmed))
    else None
  else None.

(** The text a C string holds: the code units before the first NUL.
    The platform keeps the names and the values of the environment as
    C strings, so that is what an assignment to [process.env] stores
    and what a lookup asks for. *)
Fixpoint c_string (s : jstring) : jstring :=
  match s with
  | [] => []
  | c :: s' => if N.eqb c 0 then [] else c :: c_string s'
  end.

(** [getenv]: no variable has the empty name. *)
Definition getenv (env : environment) (name : jstring) : option jstring :=
  match name with
  | [] => None
  | _ :: _ => env !! name
  end.

(** [setenv], which fails on the empty name; the assignment ignores
    that. *)
Definition setenv (name value : jstring) (env : environment) : environment :=
  match name with
  | [] => env
  | _ :: _ => <[name := value]> env
  end.

Section WithPrototype.

(** The names [process.env] answers through its prototype
    ([constructor], [toString], ...) when no variable has the name. *)
Variable inherited : jstring -> bool.

(** [process.env[key]] is truthy: the variable of that name if it is
    set, else what the prototype answers. *)
Definition env_truthy (env : environment) (key : jstring) : bool :=
  match getenv env (c_string key) with
  | Some v => truthy_str v
  | None => inherited key
  end.

(** Line 21. *)
Definition define (env : environment) (kv : jstring * jstring) : environment :=
  if env_truthy env (fst kv) then env
  else setenv (c_string (fst kv)) (c_string (snd kv)) env.

(** The callback of [forEach]. *)
Definition load_line (env : environment) (line : jstring) : environment :=
  match parse_line line with
  | Some kv => define env kv
  | None => env
  end.

(** The whole block: [None] is a file that cannot be read. *)
Definition load_env (content : option jstring) (env : environment) : environment :=
  match content with
  | Some c => fold_left load_line (split_nl c) env
  | None => env
  end.

End WithPrototype.

(** The definitions of a file, in order. *)
Definition definitions (c : jstring) : list (jstring * jstring) :=
  omap parse_line (split_nl c).

(** The definitions as the environment takes them: names and values cut
    at the first NUL, those left without a name dropped. *)
Definition stored (defs : list (jstring * jstring)) : list (jstring * jstring) :=
  omap (fun kv => match c_string (fst kv) with
                  | [] => None
                  | n => Some (n, c_string (snd kv))
                  end) defs.

(** The value a list of definitions gives a name: its first definition
    that is not empty, else the empty string if it is defined at all. *)
Fixpoint file_value (defs : list (jstring * jstring)) (k : jstring)
  : option jstring :=
  match defs with
  | [] => None
  | (k', v) :: rest =>
      if bool_decide (k' = k) then
        if truthy_str v then Some v
        else match file_value rest k with
             | Some v' => Some v'
             | None => Some []
             end
      else file_value rest k
  end.

(** A name that stands for itself in the environment. *)
Definition proper (k : jstring) : Prop := k <> [] /\ c_string k = k.

End DotEnv.

(** ** The browser side: the bridge's caller ([executeDirectCall]) *)

Module BridgeClient.
Import Session CallQueue.

(** What [response.json()] yields: the parsed body, or a rejection. *)
Inductive http_body :=
| BodyJson (v : value)
| BodyInvalid (e : error).

(** How a [fetch] of the tool route ends. *)
Inductive fetch_outcome :=
| FetchError (e : error)                     (* the promise rejects *)
| FetchResponse (status : Z) (body : http_body).

(** [response.ok]. *)
Definition ok (status : Z) : bool := (200 <=? status) && (status <=? 299).

(** [x.includes(lit)] for a string literal: the method of strings on a
    string, of arrays on an array, and a TypeError ([None]) on anything
    else that is truthy. *)
Definition js_includes (x : value) (lit : jstring) : option bool :=
  match x with
  | VStr s => Some (includes s lit)
  | VArr l => Some (existsb (fun y => is_string y lit) l)
  | _ => None
  end.

(** How the body of the [try] ends. *)
Inductive try_result :=
| TryReturn (v : value)
| TryContinue                                (* line 493 *)
| TryThrow (e : error).

(** What the browser asks of the bridge. *)
Inductive bridge_request :=
| ReqTool (name : jstring) (params : value)  (* POST /api/mcp/tool *)
| ReqReconnect (apiKey : value).             (* POST /api/mcp/reconnect *)

Inductive completion :=
| Ok (v : value)
| Err (e : error).

(** Lines 485-490: [errData.error || ''], after [response.json()] with
    its fallback. *)
Definition error_message (status : Z) (body : http_body) : option value :=
  let errData := match body with
                 | BodyJson v => v
                 | BodyInvalid _ =>
                     VObj [(js "error", VStr (js "HTTP " ++ Z_to_jstring status))]
                 end in
  match prop errData "error" with
  | None => None
  | Some e => Some (if truthy e then e else VStr [])
  end.

Definition bridge_error (toolName : jstring) (errMsg : value) : error :=
  js "Bridge error for " ++ toolName ++ js ": " ++ toStr errMsg.

(** Line 490: the test after [attempt === 0 &&]. *)
Definition session_error (errMsg : value) : option bool :=
  match js_includes errMsg (js "transport") with
  | None => None
  | Some true => Some true
  | Some false =>
      match js_includes errMsg (js "session") with
      | None => None
      | Some true => Some true
      | Some false => js_includes errMsg (js "Session")
      end
  end.

(** The body of the [try] (lines 477-503) for the given end of the
    [fetch]. *)
Definition try_body (attempt : nat) (toolName : jstring) (out : fetch_outcome)
  : try_result :=
  match out with
  | FetchError e => TryThrow e
  | FetchResponse status body =>
      if ok status then
        match body with
        | BodyJson v => TryReturn v
        | BodyInvalid e => TryThrow e
        end
      else
        match error_message status body with
        | None => TryThrow (type_error "Cannot read properties of null (reading 'error')")
        | Some errMsg =>
            if (attempt =? 0)%nat then
              match session_error errMsg with
              | None => TryThrow (type_error "errMsg.includes is not a function")
              | Some true => TryContinue
              | Some false => TryThrow (bridge_error toolName errMsg)
              end
            else TryThrow (bridge_error toolName errMsg)
        end
  end.

(** The [for] loop with its [catch] (lines 475-516): [left] attempts
    remain; [net] is how the [fetch] of each attempt ends. *)
Fixpoint direct_loop (left attempt : nat) (toolName : jstring) (params apiKey : value)
    (net : nat -> fetch_outcome) (sent : list bridge_request)
  : completion * list bridge_request :=
  match left with
  | O => (Ok VUndef, sent)
  | S left' =>
      let sent := sent ++ [ReqTool toolName params] in
      let again := direct_loop left' (S attempt) toolName params apiKey net
                     (sent ++ [ReqReconnect apiKey]) in
      match try_body attempt toolName (net attempt) with
      | TryReturn v => (Ok v, sent)
      | TryContinue => again
      | TryThrow e => if (attempt =? 0)%nat then again else (Err e, sent)
      end
  end.

Definition executeDirectCall (toolName : jstring) (params apiKey : value)
    (net : nat -> fetch_outcome) : completion * list bridge_request :=
  direct_loop 2 0 toolName params apiKey net [].

(** What the bridge's answer looks like to [fetch] (lines 253, 260,
    263 of the server). *)
Definition http_of (r : response) : fetch_outcome :=
  match r with
  | Json v => FetchResponse 200 (BodyJson v)
  | Status500 msg => FetchResponse 500 (BodyJson (VObj [(js "error", VStr msg)]))
  | Status400 =>
      FetchResponse 400 (BodyJson (VObj [(js "error", VStr (js "Missing tool name"))]))
  end.

(** The message of an answer of the bridge that is an error. *)
Definition refusal (r : response) : option error :=
  match r with
  | Json _ => None
  | Status500 msg => Some msg
  | Status400 => Some (js "Missing tool name")
  end.

(** [getTTLForTool] (lines 520-524), in milliseconds. *)
Definition getTTLForTool (toolName : jstring) : Z :=
  if includes toolName (js "insights") then 5 * 60 * 1000
  else if includes toolName (js "creative") then 60 * 60 * 1000
  else 30 * 60 * 1000.

End BridgeClient.

(** ** The browser side: the cache ([cache.js]) *)

Module Cache.

Record cache_entry := Entry {
  value_of : value;
  expiresAt : Z;
  cachedAt : Z
}.

(** [this.store], a [Map] keyed by strings. *)
Abbreviation store := (gmap jstring cache_entry).

(** [get(key)] at time [now]: what it returns and the store it leaves. *)
Definition get (now : Z) (key : jstring) (st : store) : value * store :=
  match st !! key with
  | None => (VNull, st)
  | Some entry =>
      if expiresAt entry <? now then (VNull, delete key st)
      else (value_of entry, st)
  end.

(** [set(key, value, ttl)]; [now] and [now'] are the two readings of the
    clock. *)
Definition set (now now' : Z) (key : jstring) (v : value) (ttl : Z) (st : store)
  : store :=
  <[key := Entry v (now + ttl) now']> st.

(** [has(key)]: [this.get(key) !== null]. *)
Definition has (now : Z) (key : jstring) (st : store) : bool * store :=
  let '(v, st') := get now key st in
  (match v with VNull => false | _ => true end, st').

(** [mcpCall] (lines 432-459) with its cache key, for a mode that runs
    [execute]: [None] is a call that throws.  Returns what the call
    yields, whether the executor ran, and the store. *)
Definition mcpCall (toolName key : jstring) (now : Z)
    (execute : option value) (now1 now2 : Z) (st : store)
  : option value * bool * store :=
  let ttl := BridgeClient.getTTLForTool toolName in
  let '(cached, st) := get now key st in
  if truthy cached then (Some cached, false, st)
  else match execute with
       | Some result => (Some result, true, set now1 now2 key result ttl st)
       | None => (None, true, st)
       end.

End Cache.

(** ** More concrete runs *)

Module MoreScenarios.
Import EventStream Session Correlator Retry CallQueue Scenarios.
Import EventStreamText BridgeClient EventSourceClass.

(** Three lines that end in CR LF: an event with its blank line. *)
Definition crlf_lines : list jstring :=
  [ js "event: endpoint"; js "data: /mcp-api/messages?sessionId=abc"; [] ].

(** The error response of [bad_key_script], then the deadline and a
    late response. *)
Definition late_events : list event :=
  [ (60000, SessionTimer); (60100, SseMessage init_ok) ].

Definition bad_key_outcome : outcome :=
  Rejected (js "MCP error -32000: bad key").

(** The tool request of the run [call_script call_text]. *)
Definition tool_request : request :=
  Request 2 (js "tools/call") 0 Cleared (Fulfilled call_text_v) true.

(** Every attempt goes like [call_script call_text]. *)
Definition always_text (attempt : Z) : Z * list event :=
  (0, call_script call_text).

(** Every attempt runs into its deadline with nothing else happening. *)
Definition always_silent (attempt : Z) : Z * list event :=
  (0, [ (60000, SessionTimer) ]).

Definition text_attempt : attempt_record :=
  mcpSessionCall parse (js "key-1") (js "get_ads") VNull 0 (call_script call_text).
Definition silent_attempt : attempt_record :=
  mcpSessionCall parse (js "key-1") (js "get_ads") VNull 0 [ (60000, SessionTimer) ].


(** The bridge answers 500 to the first request and 400 to the second. *)
Definition failing_bridge (attempt : nat) : fetch_outcome :=
  match attempt with
  | O => http_of (Status500 (js "Session timeout"))
  | _ => http_of Status400
  end.

(** No name is special. *)
Definition plain_names (name : jstring) : bool := false.

(** The names of the properties of [Object.prototype]. *)
Definition object_prototype (name : jstring) : bool :=
  bool_decide (name ∈ [ js "constructor"; js "hasOwnProperty"; js "isPrototypeOf";
                        js "propertyIsEnumerable"; js "toLocaleString";
                        js "toString"; js "valueOf"; js "__proto__";
                        js "__defineGetter__"; js "__defineSetter__";
                        js "__lookupGetter__"; js "__lookupSetter__" ]).

(** A frame whose payload is blank, then a frame without a name. *)
Definition blank_frames : list frame :=
  [ Frame (Some (js " endpoint")) (js " "); Frame None (js " x") ].

(** A frame named [constructor], then a frame without a name. *)
Definition constructor_frames : list frame :=
  [ Frame (Some (js " constructor")) (js " x"); Frame None (js " y") ].

(** A file with a comment, two definitions of one name, the first
    empty, and a line without [=]; and an environment in which [PORT]
    is set. *)
Definition sample_env : jstring :=
  js "# bridge" ++ [NL] ++ js "VITE_GOMARBLE_API_KEY=" ++ [NL]
  ++ js " VITE_GOMARBLE_API_KEY = abc " ++ [NL] ++ js "PORT=8080" ++ [NL]
  ++ js "verbose" ++ [NL].
Definition sample_environment : DotEnv.environment :=
  <[js "PORT" := js "3456"]> ∅.

(** A value and a name with a NUL inside. *)
Definition nul_env : jstring :=
  js "A=a" ++ [0%N] ++ js "b" ++ [NL] ++ js "K" ++ [0%N] ++ js "X=1".

(** A name that is [constructor] up to its first NUL, defined after
    [constructor] itself. *)
Definition alias_env : jstring :=
  js "constructor=5" ++ [NL] ++ js "constructor" ++ [0%N] ++ js "x=".

(** An open instance with two listeners for [endpoint] and one for
    [message]. *)
Definition listening : source :=
  Source OPEN
    (<[js "endpoint" := [1; 2]%nat]> (<[js "message" := [3%nat]]> ∅))
    None true (Some initial).

End MoreScenarios.

(** * Properties *)

(** ** The event-stream reader *)

Module EventStreamProps.
Import EventStream.

Lemma last_app_r {A} (l1 l2 : list A) d :
  l2 <> [] -> List.last (l1 ++ l2) d = List.last l2 d.
Proof.
  intros H. induction l1 as [|x l1 IH]; [reflexivity|].
  cbn [app]. destruct (l1 ++ l2) eqn:E; [|exact IH].
  apply app_eq_nil in E. tauto.
Qed.

Lemma split_nl_nonempty s : split_nl s <> [].
Proof.
  destruct s as [|c s]; simpl; [discriminate|].
  destruct (N.eqb c NL); [discriminate|].
  destruct (split_nl s); discriminate.
Qed.

Lemma split_nl_no_newline s : no_newline s -> split_nl s = [s].
Proof.
  unfold no_newline. induction s as [|c s IH]; simpl; intros H; [reflexivity|].
  destruct (N.eqb_spec c NL) as [->|Hc]; [exfalso; apply H; now left|].
  rewrite IH; [reflexivity|]. intros Hin. apply H. now right.
Qed.

(** Splitting distributes over a newline. *)
Lemma split_nl_newline a b :
  split_nl (a ++ NL :: b) = split_nl a ++ split_nl b.
Proof.
  induction a as [|c a IH]; simpl; [reflexivity|].
  destruct (N.eqb c NL); [now rewrite IH|].
  rewrite IH. destruct (split_nl a) eqn:E; [now apply split_nl_nonempty in E|].
  reflexivity.
Qed.

(** The lines of [a ++ b]: the complete lines of [a], then the lines of
    what [a] left unfinished followed by [b]. *)
Lemma split_nl_app a b :
  split_nl (a ++ b)
  = removelast (split_nl a) ++ split_nl (List.last (split_nl a) [] ++ b).
Proof.
  induction a as [|c a IH]; [reflexivity|].
  cbn [app split_nl]. destruct (N.eqb c NL) eqn:Ec.
  - rewrite IH. destruct (split_nl a) eqn:E; [now apply split_nl_nonempty in E|].
    reflexivity.
  - rewrite IH. destruct (split_nl a) as [|l [|l' ls]] eqn:E.
    + now apply split_nl_nonempty in E.
    + cbn. rewrite Ec. reflexivity.
    + reflexivity.
Qed.

Lemma last_split_no_newline s : no_newline (List.last (split_nl s) []).
Proof.
  unfold no_newline. induction s as [|c s IH]; simpl; [tauto|].
  destruct (N.eqb_spec c NL) as [->|Hc].
  - destruct (split_nl s) eqn:E; [now apply split_nl_nonempty in E|]. exact IH.
  - destruct (split_nl s) as [|l [|l' ls]] eqn:E.
    + now apply split_nl_nonempty in E.
    + simpl in *. intros [H|H]; [congruence|tauto].
    + exact IH.
Qed.

(** The events already emitted ride along the fold unchanged. *)
Lemma fold_on_line_out lines ev dat out :
  fold_left on_line lines (ev, dat, out)
  = let '(ev', dat', out') := fold_left on_line lines (ev, dat, []) in
    (ev', dat', out ++ out').
Proof.
  revert ev dat out. induction lines as [|l ls IH]; intros ev dat out.
  - simpl. now rewrite app_nil_r.
  - cbn [fold_left]. unfold on_line at 2 4.
    destruct (startsWith l (js "event:")); [apply IH|].
    destruct (startsWith l (js "data:")); [apply IH|].
    destruct l; [|apply IH].
    destruct (truthy_str dat); [|apply IH].
    rewrite IH. rewrite (IH _ _ ([] ++ _)).
    match goal with
    | |- context [fold_left on_line ls ?x] =>
        destruct (fold_left on_line ls x) as [[e d] o]
    end.
    now rewrite <- List.app_assoc.
Qed.

(** Handling [a ++ b] at once is handling [a] and then [b]. *)
Lemma on_data_app r a b :
  on_data r (a ++ b)
  = let '(r1, o1) := on_data r a in
    let '(r2, o2) := on_data r1 b in
    (r2, o1 ++ o2).
Proof.
  unfold on_data. rewrite app_assoc, split_nl_app.
  set (la := split_nl (buffer r ++ a)).
  rewrite removelast_app by apply split_nl_nonempty.
  rewrite last_app_r by apply split_nl_nonempty.
  rewrite fold_left_app.
  destruct (fold_left on_line (removelast la) (currentEvent r, currentData r, []))
    as [[e1 d1] o1].
  cbn [buffer currentEvent currentData].
  rewrite fold_on_line_out.
  destruct (fold_left on_line _ (e1, d1, [])) as [[e2 d2] o2].
  reflexivity.
Qed.

Lemma on_data_buffer r c : no_newline (buffer (fst (on_data r c))).
Proof.
  unfold on_data.
  destruct (fold_left on_line _ _) as [[e d] o]. cbn.
  apply last_split_no_newline.
Qed.

Lemma on_data_nil r : no_newline (buffer r) -> on_data r [] = (r, []).
Proof.
  intros H. unfold on_data. rewrite app_nil_r, split_nl_no_newline by exact H.
  cbn. now destruct r.
Qed.

(** Chunk boundaries do not matter: any chunking is handled like the
    concatenation delivered at once. *)
Lemma feed_concat chunks r :
  no_newline (buffer r) -> feed r chunks = on_data r (concat chunks).
Proof.
  revert r. induction chunks as [|c cs IH]; intros r H; cbn [feed concat].
  - now rewrite on_data_nil.
  - rewrite on_data_app. pose proof (on_data_buffer r c) as Hb.
    destruct (on_data r c) as [r1 o1]. cbn in Hb. now rewrite IH.
Qed.

Lemma split_nl_line l rest :
  no_newline l -> split_nl (l ++ NL :: rest) = l :: split_nl rest.
Proof.
  intros H. now rewrite split_nl_newline, split_nl_no_newline.
Qed.

Lemma no_newline_app a b : no_newline a -> no_newline b -> no_newline (a ++ b).
Proof.
  unfold no_newline. intros Ha Hb Hin. apply in_app_or in Hin. tauto.
Qed.

Lemma no_newline_event_prefix : no_newline (js "event:").
Proof. unfold no_newline. cbv. intuition discriminate. Qed.

Lemma no_newline_data_prefix : no_newline (js "data:").
Proof. unfold no_newline. cbv. intuition discriminate. Qed.

Lemma on_line_event st e :
  on_line st (js "event:" ++ e) = (trim e, snd (fst st), snd st).
Proof.
  destruct st as [[ev dat] out]. unfold on_line.
  replace (startsWith (js "event:" ++ e) (js "event:")) with true
    by (vm_compute; reflexivity).
  reflexivity.
Qed.

Lemma on_line_data st d :
  on_line st (js "data:" ++ d) = (fst (fst st), trim d, snd st).
Proof.
  destruct st as [[ev dat] out]. unfold on_line.
  replace (startsWith (js "data:" ++ d) (js "event:")) with false
    by (vm_compute; reflexivity).
  replace (startsWith (js "data:" ++ d) (js "data:")) with true
    by (vm_compute; reflexivity).
  reflexivity.
Qed.

Lemma on_line_blank ev dat out :
  dat <> [] ->
  on_line (ev, dat, out) [] = (js "message", [], out ++ [(ev, dat)]).
Proof. intros H. destruct dat; [congruence|reflexivity]. Qed.

Lemma no_newline_check s :
  forallb (fun c => negb (N.eqb c NL)) s = true -> no_newline s.
Proof.
  unfold no_newline. induction s as [|c s IH]; cbn [forallb In]; [tauto|].
  intros H. apply andb_prop in H as [Hc Hs]. intros [E|Hin]; [|tauto].
  rewrite <- E, N.eqb_refl in Hc. discriminate.
Qed.

(** One well-formed frame, read between frames, is emitted as its pair
    and leaves the reader between frames again. *)
Lemma on_data_frame f :
  well_formed f -> on_data initial (encode f) = (initial, [frame_event f]).
Proof.
  destruct f as [[e|] d]; unfold well_formed, encode, frame_event;
    cbn [fevent fdata]; intros (He & Hd & Ht).
  - unfold on_data. cbn [buffer initial app].
    match goal with
    | |- context [split_nl ?x] =>
        replace x
          with ((js "event:" ++ e) ++ NL :: ((js "data:" ++ d) ++ NL :: [] ++ NL :: []))
          by (now rewrite <- !List.app_assoc)
    end.
    rewrite !split_nl_line;
      auto using no_newline_app, no_newline_event_prefix, no_newline_data_prefix.
    2: { unfold no_newline; simpl; tauto. }
    cbn [split_nl removelast List.last fold_left currentEvent currentData initial].
    rewrite on_line_event, on_line_data. cbn [fst snd].
    now rewrite on_line_blank.
  - unfold on_data. cbn [buffer initial app].
    match goal with
    | |- context [split_nl ?x] =>
        replace x with ((js "data:" ++ d) ++ NL :: [] ++ NL :: [])
          by (now rewrite <- !List.app_assoc)
    end.
    rewrite !split_nl_line;
      auto using no_newline_app, no_newline_data_prefix.
    2: { unfold no_newline; simpl; tauto. }
    cbn [split_nl removelast List.last fold_left currentEvent currentData initial].
    rewrite on_line_data. cbn [fst snd].
    now rewrite on_line_blank.
Qed.

Lemma on_data_frames fs :
  Forall well_formed fs ->
  on_data initial (encode_all fs) = (initial, List.map frame_event fs).
Proof.
  induction 1 as [|f fs Hf _ IH]; [reflexivity|].
  unfold encode_all in *. cbn [List.map concat].
  now rewrite on_data_app, on_data_frame, IH.
Qed.

Lemma on_data_partial p :
  no_newline p -> on_data initial p = (Reader p (js "message") [], []).
Proof.
  intros H. unfold on_data. cbn [buffer initial app].
  now rewrite split_nl_no_newline.
Qed.

(** Whatever the chunk boundaries, chunks that together spell
    well-formed frames followed by an unfinished line make [feed] list
    the pairs of the frames, in order, and keep the unfinished line in
    the buffer. *)
Lemma feed_frames (fs : list frame) (partial : jstring) (chunks : list jstring) :
  Forall well_formed fs ->
  no_newline partial ->
  concat chunks = encode_all fs ++ partial ->
  feed initial chunks
    = (Reader partial (js "message") [], List.map frame_event fs).
Proof.
  intros Hfs Hp Hc.
  rewrite feed_concat by (cbn; unfold no_newline; tauto).
  rewrite Hc, on_data_app, on_data_frames, on_data_partial by assumption.
  now rewrite app_nil_r.
Qed.

End EventStreamProps.

(** ** The [EventSource] class *)

Module EventSourceClassProps.
Import EventStream EventStreamProps EventSourceClass.

Section WithPrototype.
Variable inherited : jstring -> bool.

Lemma _emit_own event data s :
  inherited event = false ->
  _emit inherited event data s
  = Some (List.map (fun fn => Listener fn event data) (listeners_of s event)).
Proof. intros H. unfold _emit. now rewrite H. Qed.

Lemma dispatch_app s a b : dispatch s (a ++ b) = dispatch s a ++ dispatch s b.
Proof. unfold dispatch. now rewrite List.map_app, concat_app. Qed.

Lemma fold_on_line_first lines ev dat e0 :
  fold_left on_line lines (ev, dat, [e0])
  = (fst (fst (fold_left on_line lines (ev, dat, []))),
     snd (fst (fold_left on_line lines (ev, dat, []))),
     e0 :: snd (fold_left on_line lines (ev, dat, []))).
Proof.
  rewrite fold_on_line_out.
  now destruct (fold_left on_line lines (ev, dat, [])) as [[a b] c].
Qed.

(** While no event is named after an inherited property, the loop
    calls the listeners of what the reader emits. *)
Lemma lines_loop_reader s lines : forall ev dat out,
  (forall e, In e (snd (fold_left on_line lines (ev, dat, []))) ->
             inherited (fst e) = false) ->
  lines_loop inherited s lines ev dat out
  = (fst (fst (fold_left on_line lines (ev, dat, []))),
     snd (fst (fold_left on_line lines (ev, dat, []))),
     out ++ dispatch s (snd (fold_left on_line lines (ev, dat, []))), false).
Proof.
  induction lines as [|line rest IH]; intros ev dat out Hin;
    cbn [lines_loop fold_left].
  - cbn. now rewrite app_nil_r.
  - cbn [fold_left] in Hin.
    destruct (startsWith line (js "event:")) eqn:E1.
    { assert (on_line (ev, dat, []) line = (trim (slice 6 line), dat, [])) as Hs
        by (unfold on_line; now rewrite E1).
      rewrite Hs in *. now apply IH. }
    destruct (startsWith line (js "data:")) eqn:E2.
    { assert (on_line (ev, dat, []) line = (ev, trim (slice 5 line), [])) as Hs
        by (unfold on_line; now rewrite E1, E2).
      rewrite Hs in *. now apply IH. }
    destruct line as [|c line].
    2: { assert (on_line (ev, dat, []) (c :: line) = (ev, dat, [])) as Hs
           by (unfold on_line; now rewrite E1, E2).
         rewrite Hs in *. now apply IH. }
    destruct (truthy_str dat) eqn:Hd.
    2: { assert (on_line (ev, dat, []) [] = (ev, dat, [])) as Hs
           by (unfold on_line; now rewrite E1, E2, Hd).
         rewrite Hs in *. now apply IH. }
    assert (on_line (ev, dat, []) [] = (js "message", [], [(ev, dat)])) as Hs
      by (unfold on_line; now rewrite E1, E2, Hd).
    rewrite Hs in *. rewrite fold_on_line_first.
    assert (forall e, In e ((ev, dat) :: snd (fold_left on_line rest
                                               (js "message", [], []))) ->
                      inherited (fst e) = false) as Hin'.
    { intros e He. apply Hin. now rewrite fold_on_line_first. }
    cbn [fst snd].
    rewrite _emit_own by (apply (Hin' (ev, dat)); now left).
    rewrite IH by (intros e He; apply Hin'; now right).
    change ((ev, dat) :: snd (fold_left on_line rest (js "message", [], [])))
      with ([(ev, dat)] ++ snd (fold_left on_line rest (js "message", [], []))).
    rewrite dispatch_app, <- List.app_assoc.
    assert (dispatch s [(ev, dat)]
            = List.map (fun fn => Listener fn ev dat) (listeners_of s ev)) as ->
      by (unfold dispatch; cbn [List.map concat fst snd]; apply app_nil_r).
    reflexivity.
Qed.

Lemma on_chunk_reader s chunk r :
  vars s = Some r ->
  (forall e, In e (snd (on_data r chunk)) -> inherited (fst e) = false) ->
  on_chunk inherited chunk s
  = (Source (readyState s) (_listeners s) (onerror s) (_req s)
       (Some (fst (on_data r chunk))),
     dispatch s (snd (on_data r chunk)), false).
Proof.
  intros Hv Hin. unfold on_chunk, on_data in *. rewrite Hv.
  rewrite lines_loop_reader.
  - destruct (fold_left on_line _ _) as [[ev dat] evs]. reflexivity.
  - intros e He. apply Hin.
    destruct (fold_left on_line _ _) as [[ev dat] evs]. exact He.
Qed.

Lemma dispatch_same s s' evs :
  _listeners s' = _listeners s -> dispatch s' evs = dispatch s evs.
Proof. intros E. unfold dispatch, listeners_of. now rewrite E. Qed.

(** While no event is named after an inherited property, the instance
    goes through the chunks as [feed] does, calling the listeners of
    what [feed] lists. *)
Lemma on_chunks_reader chunks : forall s r,
  vars s = Some r ->
  (forall e, In e (snd (feed r chunks)) -> inherited (fst e) = false) ->
  on_chunks inherited chunks s
  = (Source (readyState s) (_listeners s) (onerror s) (_req s)
       (Some (fst (feed r chunks))),
     dispatch s (snd (feed r chunks)), false).
Proof.
  induction chunks as [|c cs IH]; intros s r Hv Hin; cbn [on_chunks feed].
  - destruct s; cbn in Hv |- *. now subst.
  - cbn [feed] in Hin.
    destruct (on_data r c) as [r1 o1] eqn:E1.
    destruct (feed r1 cs) as [r2 o2] eqn:E2. cbn [fst snd] in *.
    rewrite (on_chunk_reader s c r Hv), E1; cbn [fst snd].
    2: { rewrite E1. intros e He. apply Hin, in_or_app. now left. }
    set (s1 := Source (readyState s) (_listeners s) (onerror s) (_req s) (Some r1)).
    rewrite (IH s1 r1 eq_refl), E2; cbn [fst snd s1 readyState _listeners onerror _req].
    2: { rewrite E2. intros e He. apply Hin, in_or_app. now right. }
    rewrite (dispatch_same s s1) by reflexivity. now rewrite dispatch_app.
Qed.

(** C4, as the code has it.  Take frames made of an optional [event:]
    line, one [data:] line whose payload is not blank and a blank line,
    none of them named after a property that every object inherits.
    Whatever the chunk boundaries, chunks that together spell [N] such
    frames followed by an unfinished line make an instance that has
    just received its response call, for each frame and in order, the
    listeners of the frame's name with the (trimmed) payload and name,
    with no exception; the instance is left between frames with the
    unfinished line in its buffer, and the pairs handed to [_emit] are
    exactly the [N] pairs of the frames. *)
Theorem frames_any_chunking (s : source) (fs : list frame) (partial : jstring)
    (chunks : list jstring) :
  vars s = Some initial ->
  Forall well_formed fs ->
  Forall (fun f => inherited (fst (frame_event f)) = false) fs ->
  no_newline partial ->
  concat chunks = encode_all fs ++ partial ->
  on_chunks inherited chunks s
  = (Source (readyState s) (_listeners s) (onerror s) (_req s)
       (Some (Reader partial (js "message") [])),
     dispatch s (List.map frame_event fs), false)
  /\ snd (feed initial chunks) = List.map frame_event fs
  /\ length (snd (feed initial chunks)) = length fs.
Proof.
  intros Hv Hfs Hni Hp Hc.
  pose proof (feed_frames fs partial chunks Hfs Hp Hc) as E.
  rewrite (on_chunks_reader chunks s initial Hv), E; cbn [fst snd].
  - split; [reflexivity|]. split; [reflexivity|]. apply length_map.
  - rewrite E. cbn [snd]. intros e He. apply in_map_iff in He as (f & <- & Hf).
    rewrite List.Forall_forall in Hni. now apply Hni.
Qed.

(** X1.  As long as the text received spells no event named after a
    property that every object inherits, what an open instance does
    with it, the calls to the listeners and the variables it is left
    with, depends on the text only, not on how it was cut into
    chunks. *)
Theorem chunking_is_irrelevant (s : source) (r : reader)
    (chunks1 chunks2 : list jstring) :
  vars s = Some r -> no_newline (buffer r) ->
  concat chunks1 = concat chunks2 ->
  (forall e, In e (snd (on_data r (concat chunks1))) -> inherited (fst e) = false) ->
  on_chunks inherited chunks1 s = on_chunks inherited chunks2 s
  /\ snd (on_chunks inherited chunks1 s) = false.
Proof.
  intros Hv Hb E Hin.
  rewrite !(on_chunks_reader _ s r Hv).
  - rewrite !feed_concat by exact Hb. now rewrite E.
  - rewrite feed_concat, <- E by exact Hb. exact Hin.
  - rewrite feed_concat by exact Hb. exact Hin.
Qed.

(** X21.  Once the response with status 200 has come, a chunk makes the
    instance call, for each event its reader emits and in that order,
    the listeners registered for the event's name, in the order of
    their registration, each with the event's payload and name, and no
    other listener; this as long as no event is named after a property
    every object inherits.  Registering a listener puts it last under
    its name and leaves the other names alone. *)
Theorem listeners_get_the_events (s : source) (chunk : jstring) (r : reader) :
  vars s = Some r ->
  (forall e, In e (snd (on_data r chunk)) -> inherited (fst e) = false) ->
  on_chunk inherited chunk s
  = (Source (readyState s) (_listeners s) (onerror s) (_req s)
       (Some (fst (on_data r chunk))),
     dispatch s (snd (on_data r chunk)), false)
  /\ (forall event fn,
        inherited event = false ->
        exists s', addEventListener inherited event fn s = Some s'
                   /\ listeners_of s' event = listeners_of s event ++ [fn]
                   /\ forall other, other <> event ->
                        listeners_of s' other = listeners_of s other).
Proof.
  intros Hv Hin. split.
  - unfold on_chunk, on_data in *. rewrite Hv.
    rewrite lines_loop_reader.
    + destruct (fold_left on_line _ _) as [[ev dat] evs]. reflexivity.
    + intros e He. apply Hin.
      destruct (fold_left on_line _ _) as [[ev dat] evs]. exact He.
  - intros event fn Hi. unfold addEventListener. rewrite Hi. cbn [andb].
    eexists. split; [reflexivity|]. unfold listeners_of. cbn [_listeners].
    split; [now rewrite lookup_insert_eq|].
    intros other Hne. now rewrite lookup_insert_ne by auto.
Qed.

Lemma quiet_handle s i :
  vars s = None -> readyState s <> OPEN -> i <> Response 200 ->
  vars (fst (handle inherited s i)) = None
  /\ readyState (fst (handle inherited s i)) <> OPEN
  /\ Forall (fun c => match c with Listener _ _ _ => False | _ => True end)
       (snd (handle inherited s i)).
Proof.
  intros Hv Hr Hi. destruct i as [event fn|h| |status|chunk| |m|m]; cbn [handle].
  - destruct (addEventListener inherited event fn s) as [s'|] eqn:E; cbn [fst snd].
    + unfold addEventListener in E. destruct (_ && _); [discriminate|].
      injection E as <-. cbn. auto.
    + auto.
  - cbn. auto.
  - unfold close. cbn. split; [exact Hv|]. split; [discriminate|].
    destruct (_req s); repeat constructor.
  - unfold on_response. destruct (Z.eqb_spec status 200) as [->|Hne]; [congruence|].
    cbn. split; [exact Hv|]. split; [discriminate|].
    unfold report_error. destruct (onerror s); repeat constructor.
  - unfold on_chunk. rewrite Hv. cbn. auto.
  - unfold on_end. rewrite Hv. cbn. auto.
  - unfold on_res_error. rewrite Hv. cbn. auto.
  - unfold on_req_error. cbn. split; [exact Hv|]. split; [discriminate|].
    unfold report_error. destruct (onerror s); repeat constructor.
Qed.

(** X22.  Nothing is delivered before the server has answered with
    status 200: whatever is done to a new instance and whatever the
    connection does, as long as no response with status 200 comes no
    listener is called and the instance is never [OPEN]; any other
    status closes it and is reported to [onerror], when there is one,
    as [SSE HTTP] and the status. *)
Theorem nothing_before_the_response (ins : list input) :
  In (Response 200) ins
  \/ (Forall (fun c => match c with Listener _ _ _ => False | _ => True end)
        (snd (handle_all inherited create ins))
      /\ readyState (fst (handle_all inherited create ins)) <> OPEN
      /\ forall status h s,
           status <> 200 -> onerror s = Some h ->
           on_response status s
           = (closed s, [OnError h (js "SSE HTTP " ++ Json.Z_to_jstring status)])).
Proof.
  assert (forall s, vars s = None -> readyState s <> OPEN ->
            In (Response 200) ins
            \/ (Forall (fun c => match c with Listener _ _ _ => False | _ => True end)
                  (snd (handle_all inherited s ins))
                /\ readyState (fst (handle_all inherited s ins)) <> OPEN)) as H.
  { induction ins as [|i ins IH]; intros s Hv Hr.
    - right. cbn. split; [constructor|exact Hr].
    - assert ({i = Response 200} + {i <> Response 200}) as [->|Hi].
      { destruct i as [| | |status| | | |]; try (right; discriminate).
        destruct (Z.eq_dec status 200) as [->|]; [now left|right; congruence]. }
      + left. now left.
      + destruct (quiet_handle s i Hv Hr Hi) as (Hv' & Hr' & Hc).
        cbn [handle_all]. destruct (handle inherited s i) as [s1 out1].
        cbn [fst snd] in *.
        destruct (IH s1 Hv' Hr') as [Hin|[Hq Hro]]; [left; now right|].
        right. destruct (handle_all inherited s1 ins) as [s2 out2].
        cbn [fst snd] in *. split; [|exact Hro].
        apply Forall_app. auto. }
  destruct (H create eq_refl) as [Hin|[A B]]; [discriminate|now left|].
  right. split; [exact A|]. split; [exact B|].
  intros status h s Hs Hh. unfold on_response, report_error.
  destruct (Z.eqb_spec status 200); [congruence|]. now rewrite Hh.
Qed.

End WithPrototype.

End EventSourceClassProps.

(** ** The session: settlement *)

Module SettleProps.
Import Session.
Export SettleSpec.

Lemma settlement_emit now e s :
  settlement (emit now e s)
  = settlement s ++ (if is_settlement e then [e] else []).
Proof.
  unfold settlement, emit. cbn [log].
  now rewrite List.map_app, List.filter_app.
Qed.

Lemma settlement_set_guard b e t s :
  settlement (set_guard b e t s) = settlement s.
Proof. reflexivity. Qed.

(** A step that leaves the guard and the settlement effects alone. *)
Lemma guard_inv_ext s s' :
  settled s' = settled s -> es s' = es s -> timer s' = timer s ->
  settlement s' = settlement s -> guard_inv s -> guard_inv s'.
Proof.
  intros E1 E2 E3 E4 [H1 H2 H3 H4 | o H1 H2 H3 H4];
    [apply guard_open | apply (guard_shut _ o)]; congruence.
Qed.

Lemma guard_emit now e s :
  is_settlement e = false -> guard_inv s -> guard_inv (emit now e s).
Proof.
  intros He. apply guard_inv_ext; try reflexivity.
  rewrite settlement_emit, He. apply app_nil_r.
Qed.

Lemma guard_set_API_KEY k s : guard_inv s -> guard_inv (set_API_KEY k s).
Proof. now apply guard_inv_ext. Qed.
Lemma guard_set_msgUrl u s : guard_inv s -> guard_inv (set_msgUrl u s).
Proof. now apply guard_inv_ext. Qed.
Lemma guard_set_phase p s : guard_inv s -> guard_inv (set_phase p s).
Proof. now apply guard_inv_ext. Qed.
Lemma guard_set_pending m s : guard_inv s -> guard_inv (set_pending m s).
Proof. now apply guard_inv_ext. Qed.
Lemma guard_set_requests l s : guard_inv s -> guard_inv (set_requests l s).
Proof. now apply guard_inv_ext. Qed.
Lemma guard_set_tasks l s : guard_inv s -> guard_inv (set_tasks l s).
Proof. now apply guard_inv_ext. Qed.
Lemma guard_set_task t k s : guard_inv s -> guard_inv (set_task t k s).
Proof. now apply guard_inv_ext. Qed.
Lemma guard_set_request r q s : guard_inv s -> guard_inv (set_request r q s).
Proof. now apply guard_inv_ext. Qed.

(** [settle] shuts an open guard with one close, one cancellation and
    one settlement, and does nothing to a shut one. *)
Lemma guard_settle now o s : guard_inv s -> guard_inv (settle now o s).
Proof.
  intros [H1 H2 H3 H4 | o' H1 H2 H3 H4]; unfold settle; rewrite H1.
  - cbn [set_guard es timer settled]. rewrite H2.
    cbn [set_guard emit es timer settled]. rewrite H3.
    apply (guard_shut _ o); try reflexivity.
    rewrite ?settlement_emit, ?settlement_set_guard.
    rewrite ?settlement_emit, ?settlement_set_guard.
    rewrite ?settlement_emit, ?settlement_set_guard.
    cbn [is_settlement]. rewrite H4. reflexivity.
  - now apply (guard_shut _ o').
Qed.

(** A settlement on an open guard is the one that counts. *)
Lemma settle_open now o s :
  guard_inv s -> settled s = false ->
  settlement (settle now o s) = [EClose; EClearSessionTimer; ESettle o].
Proof.
  intros [H1 H2 H3 H4 | o' H1 H2 H3 H4] Hs; [|congruence].
  unfold settle. rewrite H1. cbn [set_guard es timer settled]. rewrite H2.
  cbn [set_guard emit es timer settled]. rewrite H3.
  rewrite ?settlement_emit, ?settlement_set_guard.
  rewrite ?settlement_emit, ?settlement_set_guard.
  rewrite ?settlement_emit, ?settlement_set_guard.
  cbn [is_settlement]. now rewrite H4.
Qed.

Lemma result_of_settlement s :
  result_of s
  = List.find (fun _ => true)
      (omap (fun e => match e with ESettle o => Some o | _ => None end)
         (settlement s)).
Proof.
  unfold result_of, settlement. f_equal.
  induction (log s) as [|[n e] l IH]; [reflexivity|].
  cbn [List.map snd List.filter omap list_omap]. 
  destruct e; cbn; rewrite ?IH; reflexivity.
Qed.

Create HintDb guard.
#[export] Hint Resolve guard_emit guard_set_API_KEY guard_set_msgUrl guard_set_phase
  guard_set_pending guard_set_requests guard_set_tasks guard_set_task
  guard_set_request guard_settle : guard.

Lemma guard_postRpc now t id m s :
  guard_inv s -> guard_inv (snd (postRpc now t id m s)).
Proof.
  intros H. unfold postRpc. cbn [snd].
  apply guard_emit; [reflexivity|]. auto with guard.
Qed.

Ltac guard_tac :=
  repeat first
    [ progress eauto with guard
    | match goal with
      | |- guard_inv (let '(_, _) := postRpc ?a ?b ?c ?d ?e in _) =>
          let Hp := fresh "Hp" in
          pose proof (guard_postRpc a b c d e) as Hp;
          destruct (postRpc a b c d e); cbn [snd] in Hp
      | |- guard_inv (match ?x with _ => _ end) => destruct x eqn:?
      | |- guard_inv (emit _ _ _) => apply guard_emit; [reflexivity|]
      end ].

Lemma guard_notify now m s : guard_inv s -> guard_inv (notify now m s).
Proof. intros H. unfold notify. guard_tac. Qed.

Lemma guard_clear_rpc_timer r s : guard_inv s -> guard_inv (clear_rpc_timer r s).
Proof. intros H. unfold clear_rpc_timer. guard_tac. Qed.

Lemma guard_set_promise r p s : guard_inv s -> guard_inv (set_promise r p s).
Proof. intros H. unfold set_promise. guard_tac. Qed.

Lemma guard_mark_fetch_done r s : guard_inv s -> guard_inv (mark_fetch_done r s).
Proof. intros H. unfold mark_fetch_done. guard_tac. Qed.

Lemma guard_finish_thrown now t k e s :
  guard_inv s -> guard_inv (finish_thrown now t k e s).
Proof. intros H. unfold finish_thrown. guard_tac. Qed.

#[export] Hint Resolve guard_notify guard_clear_rpc_timer
  guard_set_promise guard_mark_fetch_done guard_finish_thrown : guard.

Lemma guard_loop_head now t k s : guard_inv s -> guard_inv (loop_head now t k s).
Proof. intros H. unfold loop_head. guard_tac. Qed.
#[export] Hint Resolve guard_loop_head : guard.

Lemma guard_on_catch now t k e s : guard_inv s -> guard_inv (on_catch now t k e s).
Proof. intros H. unfold on_catch. guard_tac. Qed.
#[export] Hint Resolve guard_on_catch : guard.

(** Past the deadline, a transport-not-ready error ends the run of
    [doInitialize] with that very error, which rejects a pending promise. *)
Lemma on_catch_deadline now t k err s :
  guard_inv s -> settled s = false ->
  isTransport err = true -> 20000 <= now - start k ->
  result_of (on_catch now t k err s) = Some (Rejected err).
Proof.
  intros Hg Hs Ht Hd. unfold on_catch. rewrite Ht. unfold loop_head.
  cbn [start lastErr]. destruct (Z.ltb_spec (now - start k) 20000); [lia|].
  unfold finish_thrown.
  rewrite result_of_settlement, settle_open;
    [reflexivity | auto with guard | exact Hs].
Qed.

Section WithJsonParse.
Variable JSON_parse : jstring -> option value.

Lemma guard_after_initialize now t k s :
  guard_inv s -> guard_inv (after_initialize now t k s).
Proof. intros H. unfold after_initialize. guard_tac. Qed.

Lemma guard_start_call now t k s : guard_inv s -> guard_inv (start_call now t k s).
Proof.
  intros H. unfold start_call. guard_tac.
Qed.

Lemma guard_after_call now t k v s :
  guard_inv s -> guard_inv (after_call JSON_parse now t k v s).
Proof. intros H. unfold after_call. guard_tac. Qed.

#[local] Hint Resolve guard_after_initialize guard_start_call guard_after_call : guard.

Lemma guard_resume now r res s :
  guard_inv s -> guard_inv (resume JSON_parse now r res s).
Proof. intros H. unfold resume. guard_tac. Qed.
#[local] Hint Resolve guard_resume : guard.

Lemma guard_settle_request now r res s :
  guard_inv s -> guard_inv (settle_request JSON_parse now r res s).
Proof. intros H. unfold settle_request. guard_tac. Qed.
#[local] Hint Resolve guard_settle_request : guard.

Lemma guard_step s ev : guard_inv s -> guard_inv (step JSON_parse s ev).
Proof.
  intros H. destruct ev as [now [d|d|m| |t|r|r st b|r e|k|]]; cbn [step].
  - unfold on_endpoint. guard_tac.
  - unfold on_message. guard_tac.
  - unfold on_error. guard_tac.
  - guard_tac.
  - unfold on_wake. guard_tac.
  - unfold on_rpc_timer. guard_tac.
  - unfold on_fetch_status, fetch_rejects. guard_tac.
  - unfold on_fetch_failed, fetch_rejects. guard_tac.
  - unfold on_reconfigure. guard_tac.
  - unfold on_reconnect. guard_tac.
Qed.

Lemma guard_run evs s : guard_inv s -> guard_inv (run JSON_parse s evs).
Proof.
  revert s. induction evs as [|ev evs IH]; intros s H; [exact H|].
  cbn [run fold_left]. apply IH. now apply guard_step.
Qed.

Lemma guard_new_session key tool args timeoutMs now :
  guard_inv (new_session key tool args timeoutMs now).
Proof. now apply guard_open. Qed.

(** C1.  In every run of a session, whatever events arrive and in
    whatever order, either the promise is still pending and the stream
    has not been closed nor the deadline timer cancelled, or the stream
    was closed exactly once, then the deadline timer was cancelled
    exactly once, and then the promise was resolved or rejected, once.
    Wherever the run stands, the deadline timer's firing leaves the
    promise settled: rejected with the timeout error if it was pending,
    and as it was, with nothing closed or cancelled again, otherwise. *)
Theorem settle_exactly_once (key toolName : jstring) (toolArgs : value)
    (timeoutMs now : Z) (evs : list event) :
  let s := run JSON_parse (new_session key toolName toolArgs timeoutMs now) evs in
  ((settled s = false /\ settlement s = [] /\ result_of s = None)
   \/ (exists o, settled s = true
                 /\ settlement s = [EClose; EClearSessionTimer; ESettle o]
                 /\ result_of s = Some o))
  /\ (forall t,
        let s' := step JSON_parse s (t, SessionTimer) in
        settled s' = true
        /\ (settled s = false ->
            settlement s'
            = [EClose; EClearSessionTimer; ESettle (Rejected (js "Session timeout"))])
        /\ (settled s = true -> s' = s)).
Proof.
  intros s.
  pose proof (guard_run evs _ (guard_new_session key toolName toolArgs timeoutMs now))
    as G. fold s in G. split.
  - destruct G as [H1 _ _ H4 | o H1 _ _ H4].
    + left. rewrite result_of_settlement, H4. auto.
    + right. exists o. rewrite result_of_settlement, H4. auto.
  - intros t s'. unfold s'. cbn [step].
    destruct G as [H1 H2 H3 H4 | o H1 H2 H3 H4]; rewrite H3.
    + pose proof (guard_open s H1 H2 H3 H4) as G.
      pose proof (settle_open t (Rejected (js "Session timeout")) s G H1) as E.
      split; [|split; [auto|congruence]].
      destruct (guard_settle t (Rejected (js "Session timeout")) s G)
        as [_ _ _ E' | o H' _ _ _]; [congruence|exact H'].
    + split; [exact H1|]. split; [congruence|reflexivity].
Qed.

End WithJsonParse.

End SettleProps.

(** ** The session: extracting the result of the tool call *)

Module ExtractProps.
Import Session SettleProps.
Export ExtractSpec.



Section WithJsonParse.
Variable JSON_parse : jstring -> option value.


End WithJsonParse.

End ExtractProps.

(** ** The retry wrapper *)

Module RetryProps.
Import Session SettleProps Retry.
Export RetrySpec.

Section WithJsonParse.
Variable JSON_parse : jstring -> option value.

Section Loop.
Variables (toolName : jstring) (toolArgs : value) (maxRetries : Z)
          (env : Z -> Z * list event).

Local Abbreviation loop_from :=
  (RetrySpec.loop_from JSON_parse toolName toolArgs maxRetries env).
Local Abbreviation loop_retry :=
  (RetrySpec.loop_retry JSON_parse toolName toolArgs maxRetries env).
Local Abbreviation loop_facts :=
  (RetrySpec.loop_facts JSON_parse toolName toolArgs maxRetries env).

(** With fuel for the attempts that remain, the loop function follows
    a derivation (and so never runs out of fuel). *)
Lemma attempt_loop_from fuel :
  forall k key done slept,
    (Z.to_nat (maxRetries - k) <= fuel)%nat ->
    exists news ds res key',
      attempt_loop JSON_parse fuel k maxRetries key toolName toolArgs env done slept
      = Report res (done ++ news) (slept ++ ds) key'
      /\ loop_from k key news ds res key'.
Proof.
  induction fuel as [|fuel IH]; intros k key done slept Hf; cbn [attempt_loop].
  - destruct (Z.ltb_spec k maxRetries) as [Hlt|Hge]; [lia|].
    exists [], [], (Return VUndef), key. rewrite !app_nil_r.
    split; [reflexivity|now constructor].
  - destruct (Z.ltb_spec k maxRetries) as [Hlt|Hge].
    2: { exists [], [], (Return VUndef), key. rewrite !app_nil_r.
         split; [reflexivity|now constructor]. }
    set (a := mcpSessionCall JSON_parse key toolName toolArgs
                (fst (env k)) (snd (env k))).
    destruct (result_of (ended a)) as [[v|e]|] eqn:Er.
    + exists [a], [], (Return v), (API_KEY (ended a)). rewrite app_nil_r.
      split; [reflexivity|now apply loop_return].
    + destruct (isTransient e) eqn:Et; cbn [andb].
      * destruct (Z.ltb_spec k (maxRetries - 1)) as [Hlt'|Hge'].
        -- destruct (IH (k + 1) (API_KEY (ended a)) (done ++ [a])
                       (slept ++ [3000 * (k + 1)])) as (news & ds & res & key' & E & L);
             [lia|].
           exists (a :: news), (3000 * (k + 1) :: ds), res, key'.
           rewrite E, <- !List.app_assoc. split; [reflexivity|].
           now apply (loop_retry _ _ a e).
        -- exists [a], [], (Throw e), (API_KEY (ended a)). rewrite app_nil_r.
           split; [reflexivity|]. apply loop_throw; auto.
      * exists [a], [], (Throw e), (API_KEY (ended a)). rewrite app_nil_r.
        split; [reflexivity|]. apply loop_throw; auto.
    + exists [a], [], Awaiting, (API_KEY (ended a)). rewrite app_nil_r.
      split; [reflexivity|now apply loop_await].
Qed.

Lemma mcpToolCall_from key :
  exists news ds res key',
    mcpToolCall JSON_parse key toolName toolArgs maxRetries env
    = Report res news ds key'
    /\ loop_from 0 key news ds res key'.
Proof.
  unfold mcpToolCall.
  destruct (attempt_loop_from (Z.to_nat maxRetries) 0 key [] [])
    as (news & ds & res & key' & E & L); [lia|]. eauto 6.
Qed.

Lemma loop_facts_single k key a res :
  k < maxRetries ->
  a = mcpSessionCall JSON_parse key toolName toolArgs (fst (env k)) (snd (env k)) ->
  (forall e, result_of (ended a) = Some (Rejected e) ->
             isTransient e = false \/ maxRetries - 1 <= k) ->
  res <> OutOfFuel ->
  match result_of (ended a) with
  | None => res = Awaiting
  | Some (Resolved v) => res = Return v
  | Some (Rejected e) => res = Throw e
  end ->
  loop_facts k key [a] [] res.
Proof.
  intros Hk Ha Hc Hf Hres. unfold RetrySpec.loop_facts.
  split; [exact Hf|]. split; [reflexivity|].
  split; [|split; [|split]].
  - intros [|i] b Hb; [|discriminate]. cbn in Hb. simplify_eq.
    cbn [take key_before]. rewrite Z.add_0_r. split; [reflexivity|lia].
  - intros [|i] b e Hb Hr; [|discriminate]. cbn in Hb. simplify_eq.
    cbn [length]. rewrite Z.add_0_r. split; [lia|].
    intros [Ht Hlt]. destruct (Hc e Hr); [congruence|lia].
  - intros [|i] b Hb Hlt; [|discriminate]. cbn [length] in Hlt. lia.
  - exact Hres.
Qed.

Lemma loop_from_facts k key news ds res key' :
  loop_from k key news ds res key' -> loop_facts k key news ds res.
Proof.
  induction 1 as [k key Hk | k key a Hk Ha Hr | k key a v Hk Ha Hr
                 | k key a e Hk Ha Hr Hc
                 | k key a e rest ds res key' Hk Ha Hr Ht Hk' Hrest IH].
  - unfold RetrySpec.loop_facts. repeat split; try discriminate; auto.
  - apply loop_facts_single; auto; try discriminate; now rewrite Hr.
  - apply loop_facts_single; auto; try discriminate; now rewrite Hr.
  - apply loop_facts_single; auto; try discriminate; rewrite Hr; auto.
    intros e' He'. congruence.
  - destruct IH as (I1 & I2 & I3 & I4 & I5 & I6).
    assert (rest <> []) as Hne.
    { intros ->. inversion Hrest; lia. }
    unfold RetrySpec.loop_facts.
    split; [exact I1|]. split; [|split; [|split; [|split]]].
    + destruct rest as [|b rest']; [congruence|].
      replace (length (a :: b :: rest') - 1)%nat with (S (length rest'))
        by (cbn [length]; lia).
      replace (length (b :: rest') - 1)%nat with (length rest') in I2
        by (cbn [length]; lia).
      cbn [seq List.map]. rewrite Z.add_0_r. f_equal.
      rewrite I2, <- seq_shift, List.map_map.
      apply List.map_ext. intros i. lia.
    + intros [|i] b Hb; cbn in Hb.
      * simplify_eq. cbn. rewrite Z.add_0_r. split; [reflexivity|lia].
      * destruct (I3 i b Hb) as [E Hlt]. cbn [take key_before].
        replace (k + Z.of_nat (S i)) with (k + 1 + Z.of_nat i) by lia.
        split; [exact E|lia].
    + intros [|i] b e' Hb Hr'; cbn in Hb.
      * simplify_eq. rewrite Z.add_0_r. cbn [length].
        split; [intros _; split; [congruence|lia]|].
        intros _. destruct rest; [congruence|cbn; lia].
      * cbn [length]. rewrite <- Nat.succ_lt_mono.
        rewrite (I4 i b e' Hb Hr').
        replace (k + Z.of_nat (S i)) with (k + 1 + Z.of_nat i) by lia.
        reflexivity.
    + intros [|i] b Hb Hlt; cbn in Hb.
      * simplify_eq. eauto.
      * cbn [length] in Hlt. apply (I5 i b Hb). lia.
    + destruct rest as [|b rest']; [congruence|]. rewrite last_cons_cons.
      destruct (last (b :: rest')) eqn:El; [exact I6|].
      apply last_None in El. discriminate.
Qed.

End Loop.

Lemma isTransport_isTransient e : isTransport e = true -> isTransient e = true.
Proof. unfold isTransport, isTransient. intros ->. reflexivity. Qed.

(** C10.  With a maximum of zero attempts or fewer, the wrapper makes
    no session attempt and waits for nothing: the call returns
    [undefined], and raises nothing. *)
Theorem no_attempts_returns_undefined (key toolName : jstring) (toolArgs : value)
    (maxRetries : Z) (env : Z -> Z * list event) :
  maxRetries <= 0 ->
  mcpToolCall JSON_parse key toolName toolArgs maxRetries env
  = Report (Return VUndef) [] [] key.
Proof.
  intros H. unfold mcpToolCall.
  replace (Z.to_nat maxRetries) with 0%nat by lia. cbn [attempt_loop].
  destruct (Z.ltb_spec 0 maxRetries); [lia|reflexivity].
Qed.

(** C6.  The wrapper always ends its loop.  After the attempt of index
    [i] it waits 3000 x (i + 1) ms, and it does so exactly when that
    attempt was rejected with a transient error and [i] is not the last
    index; every attempt is a new session, built from nothing but the
    current credential, the tool and its arguments; an error that ends
    the call is the last attempt's error, unchanged.  With at most three
    attempts, all failing with transient errors, there are exactly three
    attempts and the waits are 3000 and 6000. *)
Theorem retry_schedule (key toolName : jstring) (toolArgs : value)
    (maxRetries : Z) (env : Z -> Z * list event) :
  let rep := mcpToolCall JSON_parse key toolName toolArgs maxRetries env in
  result rep <> OutOfFuel
  /\ delays rep = List.map (fun i => 3000 * (Z.of_nat i + 1))
                    (seq 0 (length (attempts rep) - 1))
  /\ (forall i a, attempts rep !! i = Some a ->
        began a = new_session (key_before key (take i (attempts rep)))
                    toolName toolArgs 60000 (fst (env (Z.of_nat i)))
        /\ ended a = run JSON_parse (began a) (snd (env (Z.of_nat i))))
  /\ (forall i a e, attempts rep !! i = Some a ->
        result_of (ended a) = Some (Rejected e) ->
        (S i < length (attempts rep))%nat
        <-> isTransient e = true /\ Z.of_nat i < maxRetries - 1)
  /\ (forall a e, last (attempts rep) = Some a ->
        result_of (ended a) = Some (Rejected e) -> result rep = Throw e)
  /\ (maxRetries = 3 ->
      (forall a, a ∈ attempts rep ->
         exists e, result_of (ended a) = Some (Rejected e) /\ isTransient e = true) ->
      length (attempts rep) = 3%nat /\ delays rep = [3000; 6000]
      /\ exists e, result rep = Throw e).
Proof.
  intros rep. subst rep.
  destruct (mcpToolCall_from toolName toolArgs maxRetries env key)
    as (news & ds & res & key' & E & L).
  rewrite E. cbn [result attempts delays].
  apply loop_from_facts in L as (F1 & F2 & F3 & F4 & F5 & F6).
  assert (forall a e, last news = Some a ->
            result_of (ended a) = Some (Rejected e) -> res = Throw e) as Hlast.
  { intros a e Hl Hr. rewrite Hl, Hr in F6. exact F6. }
  split; [exact F1|]. split.
  { rewrite F2. apply List.map_ext. intros i. lia. }
  split.
  { intros i a Hi. destruct (F3 i a Hi) as [-> _]. rewrite Z.add_0_l.
    split; reflexivity. }
  split.
  { intros i a e Hi Hr. rewrite (F4 i a e Hi Hr), Z.add_0_l. reflexivity. }
  split; [exact Hlast|].
  intros -> Hall.
  destruct (last news) as [a|] eqn:El; [|lia].
  pose proof El as El'. rewrite last_lookup in El'.
  destruct (Hall a) as (e & Hr & Ht).
  { eapply list_elem_of_lookup_2. exact El'. }
  destruct (F3 _ _ El') as [_ Hlt]. pose proof (F4 _ _ _ El' Hr) as Hiff.
  assert (length news <> 0)%nat as Hn0.
  { intros H0. apply length_zero_iff_nil in H0. subst news. discriminate. }
  assert (length news = 3)%nat as Hlen.
  { destruct (Z_lt_dec (0 + Z.of_nat (pred (length news))) (3 - 1)) as [Hc|Hc].
    - assert (S (pred (length news)) < length news)%nat by (apply Hiff; auto). lia.
    - lia. }
  split; [exact Hlen|]. split.
  - rewrite F2, Hlen. reflexivity.
  - exists e. now apply (Hlast a).
Qed.

(** C2, as the code has it.  Whether a rejected attempt is followed by
    another one depends on the text of its error alone, whatever raised
    it: it is when the text contains one of the four transient patterns
    and the attempt is not the last allowed.  So a protocol error whose
    text contains none of them is never retried, and the error that ends
    the readiness polling at its deadline, a transport-not-ready error,
    always counts as transient. *)
Theorem retry_by_message (key toolName : jstring) (toolArgs : value)
    (maxRetries : Z) (env : Z -> Z * list event) :
  let rep := mcpToolCall JSON_parse key toolName toolArgs maxRetries env in
  (forall i a msg, attempts rep !! i = Some a ->
     result_of (ended a) = Some (Rejected msg) ->
     (S i < length (attempts rep))%nat
     <-> isTransient msg = true /\ Z.of_nat i < maxRetries - 1)
  /\ (forall i a e, attempts rep !! i = Some a ->
       result_of (ended a) = Some (Rejected (mcp_error e)) ->
       isTransient (mcp_error e) = false ->
       length (attempts rep) = S i /\ result rep = Throw (mcp_error e))
  /\ (forall now t k err s,
       guard_inv s -> settled s = false ->
       isTransport err = true -> 20000 <= now - start k ->
       result_of (on_catch now t k err s) = Some (Rejected err)
       /\ isTransient err = true).
Proof.
  intros rep. subst rep.
  destruct (mcpToolCall_from toolName toolArgs maxRetries env key)
    as (news & ds & res & key' & E & L).
  rewrite E. cbn [result attempts delays].
  apply loop_from_facts in L as (F1 & F2 & F3 & F4 & F5 & F6).
  split; [|split].
  - intros i a msg Hi Hr. rewrite (F4 i a msg Hi Hr), Z.add_0_l. reflexivity.
  - intros i a e Hi Hr Ht.
    assert (~ (S i < length news)%nat) as Hn.
    { rewrite (F4 i a _ Hi Hr). intros [Ht' _]. congruence. }
    apply lookup_lt_Some in Hi as Hlt.
    assert (length news = S i) as Hlen by lia. split; [exact Hlen|].
    assert (last news = Some a) as Hl.
    { rewrite last_lookup, Hlen. exact Hi. }
    rewrite Hl, Hr in F6. exact F6.
  - intros now t k err s Hg Hs Ht Hd. split.
    + now apply on_catch_deadline.
    + now apply isTransport_isTransient.
Qed.

End WithJsonParse.

End RetryProps.

(** ** The credential carried by outgoing requests *)

Module CredentialProps.
Import Session SettleProps Retry RetryProps.
Export CredentialSpec.

Section Sent.
(** The credential and the log when an event handler starts. *)
Variables (K : jstring) (L0 : list (Z * effect)).

Local Abbreviation sent_with_K := (CredentialSpec.sent_with_K K L0).

Lemma sent_ext s s' :
  API_KEY s' = API_KEY s -> log s' = log s -> sent_with_K s -> sent_with_K s'.
Proof. unfold CredentialSpec.sent_with_K. intros -> ->. auto. Qed.

Lemma sent_emit now e s :
  carries (API_KEY s) (now, e) -> sent_with_K s -> sent_with_K (emit now e s).
Proof.
  intros Hc (Hk & news & Hl & Hf). split; [exact Hk|].
  exists (news ++ [(now, e)]). cbn [emit log]. rewrite Hl, List.app_assoc.
  split; [reflexivity|]. apply Forall_app. split; [exact Hf|].
  constructor; [|constructor]. now rewrite <- Hk.
Qed.

Lemma sent_set_guard b e t s : sent_with_K s -> sent_with_K (set_guard b e t s).
Proof. now apply sent_ext. Qed.
Lemma sent_set_msgUrl u s : sent_with_K s -> sent_with_K (set_msgUrl u s).
Proof. now apply sent_ext. Qed.
Lemma sent_set_phase p s : sent_with_K s -> sent_with_K (set_phase p s).
Proof. now apply sent_ext. Qed.
Lemma sent_set_pending m s : sent_with_K s -> sent_with_K (set_pending m s).
Proof. now apply sent_ext. Qed.
Lemma sent_set_requests l s : sent_with_K s -> sent_with_K (set_requests l s).
Proof. now apply sent_ext. Qed.
Lemma sent_set_tasks l s : sent_with_K s -> sent_with_K (set_tasks l s).
Proof. now apply sent_ext. Qed.
Lemma sent_set_task t k s : sent_with_K s -> sent_with_K (set_task t k s).
Proof. now apply sent_ext. Qed.
Lemma sent_set_request r q s : sent_with_K s -> sent_with_K (set_request r q s).
Proof. now apply sent_ext. Qed.

Lemma sent_settle now o s : sent_with_K s -> sent_with_K (settle now o s).
Proof.
  intros H. unfold settle.
  repeat match goal with
         | |- sent_with_K (if ?b then _ else _) => destruct b
         | |- sent_with_K (emit _ _ _) => apply sent_emit; [exact I|]
         | |- sent_with_K (set_guard _ _ _ _) => apply sent_set_guard
         end; exact H.
Qed.

Lemma sent_postRpc now t id m s :
  sent_with_K s -> sent_with_K (snd (postRpc now t id m s)).
Proof.
  intros H. unfold postRpc. cbn [snd].
  apply sent_emit; [reflexivity|].
  now apply sent_set_pending, sent_set_requests.
Qed.

Lemma sent_notify now m s : sent_with_K s -> sent_with_K (notify now m s).
Proof. intros H. unfold notify. now apply sent_emit. Qed.

Create HintDb sent.
#[local] Hint Extern 1 (carries _ _) => exact I : sent.
#[local] Hint Resolve sent_emit sent_set_guard sent_set_msgUrl sent_set_phase
  sent_set_pending sent_set_requests sent_set_tasks sent_set_task
  sent_set_request sent_settle sent_notify : sent.

Ltac sent_tac :=
  repeat first
    [ progress eauto with sent
    | match goal with
      | |- sent_with_K (let '(_, _) := postRpc ?a ?b ?c ?d ?e in _) =>
          let Hp := fresh "Hp" in
          pose proof (sent_postRpc a b c d e) as Hp;
          destruct (postRpc a b c d e); cbn [snd] in Hp
      | |- sent_with_K (match ?x with _ => _ end) => destruct x eqn:?
      | |- sent_with_K (emit _ _ _) => apply sent_emit; [exact I|]
      end ].

Lemma sent_clear_rpc_timer r s : sent_with_K s -> sent_with_K (clear_rpc_timer r s).
Proof. intros H. unfold clear_rpc_timer. sent_tac. Qed.
Lemma sent_set_promise r p s : sent_with_K s -> sent_with_K (set_promise r p s).
Proof. intros H. unfold set_promise. sent_tac. Qed.
Lemma sent_mark_fetch_done r s : sent_with_K s -> sent_with_K (mark_fetch_done r s).
Proof. intros H. unfold mark_fetch_done. sent_tac. Qed.
Lemma sent_finish_thrown now t k e s :
  sent_with_K s -> sent_with_K (finish_thrown now t k e s).
Proof. intros H. unfold finish_thrown. sent_tac. Qed.
#[local] Hint Resolve sent_clear_rpc_timer sent_set_promise sent_mark_fetch_done
  sent_finish_thrown : sent.

Lemma sent_loop_head now t k s : sent_with_K s -> sent_with_K (loop_head now t k s).
Proof. intros H. unfold loop_head. sent_tac. Qed.
#[local] Hint Resolve sent_loop_head : sent.

Lemma sent_on_catch now t k e s : sent_with_K s -> sent_with_K (on_catch now t k e s).
Proof. intros H. unfold on_catch. sent_tac. Qed.
#[local] Hint Resolve sent_on_catch : sent.

Variable JSON_parse : jstring -> option value.

Lemma sent_after_initialize now t k s :
  sent_with_K s -> sent_with_K (after_initialize now t k s).
Proof. intros H. unfold after_initialize. sent_tac. Qed.
Lemma sent_start_call now t k s : sent_with_K s -> sent_with_K (start_call now t k s).
Proof. intros H. unfold start_call. sent_tac. Qed.
Lemma sent_after_call now t k v s :
  sent_with_K s -> sent_with_K (after_call JSON_parse now t k v s).
Proof. intros H. unfold after_call. sent_tac. Qed.
#[local] Hint Resolve sent_after_initialize sent_start_call sent_after_call : sent.

Lemma sent_resume now r res s :
  sent_with_K s -> sent_with_K (resume JSON_parse now r res s).
Proof. intros H. unfold resume. sent_tac. Qed.
#[local] Hint Resolve sent_resume : sent.

Lemma sent_settle_request now r res s :
  sent_with_K s -> sent_with_K (settle_request JSON_parse now r res s).
Proof. intros H. unfold settle_request. sent_tac. Qed.
#[local] Hint Resolve sent_settle_request : sent.

(** Handling any event but a reconfiguration. *)
Lemma sent_step s now k :
  (forall apiKey, k <> Reconfigure apiKey) ->
  sent_with_K s -> sent_with_K (step JSON_parse s (now, k)).
Proof.
  intros Hk H. destruct k as [d|d|m| |t|r|r st b|r e|key|]; cbn [step].
  - unfold on_endpoint. sent_tac.
  - unfold on_message. sent_tac.
  - unfold on_error. sent_tac.
  - sent_tac.
  - unfold on_wake. sent_tac.
  - unfold on_rpc_timer. sent_tac.
  - unfold on_fetch_status, fetch_rejects. sent_tac.
  - unfold on_fetch_failed, fetch_rejects. sent_tac.
  - now destruct (Hk key).
  - unfold on_reconnect. destruct (es s); [|exact H].
    apply sent_emit; [|exact H]. cbn. now destruct H as [-> _].
Qed.

End Sent.

Lemma key_before_take key (l : list attempt_record) i a :
  l !! i = Some a -> key_before key (take (S i) l) = API_KEY (ended a).
Proof.
  revert key i. induction l as [|b l IH]; intros key [|i] H; try discriminate.
  - cbn in H. now simplify_eq.
  - cbn in H. cbn [take key_before]. now apply IH.
Qed.

(** C9, as the code has it.  The credential is the module-level variable,
    read whenever a request is built: the stream connection the
    constructor makes carries the value current when the attempt starts,
    a connection the [EventSource] makes anew during the attempt carries
    the value current at that moment, and every request sent while one
    event is handled carries the value current at that moment, so a
    reconfiguration changes the header of all later requests, those of
    the attempt in flight included; the next attempt connects with the
    value current when the previous one ended. *)
Theorem credential_read_at_each_request (JSON_parse : jstring -> option value) :
  (forall key toolName toolArgs timeoutMs now,
      Forall (carries key) (log (new_session key toolName toolArgs timeoutMs now)))
  /\ (forall s now,
       es s = true ->
       log (step JSON_parse s (now, SseReconnect))
       = log s ++ [(now, EConnect (bearer (API_KEY s)))])
  /\ (forall s now k,
       exists news,
         log (step JSON_parse s (now, k)) = log s ++ news
         /\ Forall (carries (API_KEY s)) news
         /\ API_KEY (step JSON_parse s (now, k))
            = match k with
              | Reconfigure apiKey => if truthy_str apiKey then apiKey else API_KEY s
              | _ => API_KEY s
              end)
  /\ (forall key toolName toolArgs maxRetries env i a b,
       let rep := mcpToolCall JSON_parse key toolName toolArgs maxRetries env in
       attempts rep !! i = Some a -> attempts rep !! S i = Some b ->
       began b = new_session (API_KEY (ended a)) toolName toolArgs 60000
                   (fst (env (Z.of_nat (S i))))).
Proof.
  split; [|split; [|split]].
  - intros. cbn. repeat constructor.
  - intros s now He. cbn [step]. now rewrite He.
  - intros s now k.
    assert ((exists apiKey, k = Reconfigure apiKey)
            \/ (forall apiKey, k <> Reconfigure apiKey)) as [[a ->]|Hn]
      by (destruct k; eauto; right; discriminate).
    + exists []. cbn [step]. unfold on_reconfigure. rewrite app_nil_r.
      destruct (truthy_str a); repeat split; constructor.
    + assert (sent_with_K (API_KEY s) (log s) (step JSON_parse s (now, k)))
        as (Hk & news & Hl & Hf).
      { apply sent_step; [exact Hn|].
        split; [reflexivity|]. exists []. now rewrite app_nil_r. }
      exists news. repeat split; try assumption.
      rewrite Hk. destruct k; try reflexivity. now destruct (Hn apiKey).
  - intros key toolName toolArgs maxRetries env i a b rep Ha Hb. subst rep.
    destruct (mcpToolCall_from JSON_parse toolName toolArgs maxRetries env key)
      as (news & ds & res & key' & E & L).
    rewrite E in Ha, Hb. cbn [attempts] in Ha, Hb.
    apply loop_from_facts in L as (_ & _ & F3 & _).
    destruct (F3 _ _ Hb) as [-> _].
    rewrite (key_before_take _ _ _ _ Ha), Z.add_0_l. reflexivity.
Qed.

End CredentialProps.

(** ** The readiness polling of [doInitialize] *)

Module BackoffProps.
Import Session SettleProps.
Export BackoffSpec.

Lemma same_tasks_refl s : same_tasks s s.
Proof. split; auto. Qed.

Lemma same_tasks_trans s1 s2 s3 :
  same_tasks s1 s2 -> same_tasks s2 s3 -> same_tasks s1 s3.
Proof. intros [A B] [C D]. split; [congruence|]. intros t. now rewrite D. Qed.

Lemma backoff_inv_same s s' : same_tasks s s' -> backoff_inv s -> backoff_inv s'.
Proof.
  intros [Ht Hs] [H1 H2]. split.
  - intros t k Hk. rewrite Ht in Hk. specialize (H1 t k Hk).
    unfold task_ok, polled_ok in *. now rewrite !Hs.
  - intros t Hl. rewrite Ht in Hl. rewrite Hs. auto.
Qed.

Lemma sleeps_emit t now e s :
  sleeps t (emit now e s)
  = sleeps t s ++ match sleep_of t (now, e) with Some p => [p] | None => [] end.
Proof.
  unfold sleeps, emit. cbn [log]. rewrite omap_app. f_equal.
Qed.

Lemma same_emit now e s :
  (forall t d, e <> ESleep t d) -> same_tasks s (emit now e s).
Proof.
  intros He. split; [reflexivity|]. intros t. rewrite sleeps_emit.
  unfold sleep_of. cbn [snd]. destruct e; rewrite ?app_nil_r; try reflexivity.
  now destruct (He t0 ms).
Qed.

Lemma same_settle now o s : same_tasks s (settle now o s).
Proof.
  unfold settle. destruct (settled s); [apply same_tasks_refl|].
  split.
  - destruct (es s), (timer s); reflexivity.
  - intros t. unfold sleeps.
    destruct (es s), (timer s); cbn [set_guard emit log es timer settled];
      rewrite ?omap_app; cbn; rewrite ?app_nil_r; reflexivity.
Qed.

Lemma same_postRpc now t id m s : same_tasks s (snd (postRpc now t id m s)).
Proof.
  unfold postRpc. cbn [snd].
  eapply same_tasks_trans; [|apply same_emit; discriminate]. split; reflexivity.
Qed.

Lemma same_notify now m s : same_tasks s (notify now m s).
Proof. apply same_emit. discriminate. Qed.

Lemma same_clear_rpc_timer r s : same_tasks s (clear_rpc_timer r s).
Proof.
  unfold clear_rpc_timer. destruct (requests s !! r) as [q|]; [|split; reflexivity].
  destruct (rq_timer q); split; reflexivity.
Qed.

Lemma same_set_promise r p s : same_tasks s (set_promise r p s).
Proof.
  unfold set_promise. destruct (requests s !! r); split; reflexivity.
Qed.

Lemma same_mark_fetch_done r s : same_tasks s (mark_fetch_done r s).
Proof.
  unfold mark_fetch_done. destruct (requests s !! r); split; reflexivity.
Qed.

Lemma polled_ok_start s t k k' :
  start k' = start k -> polled_ok s t k -> polled_ok s t k'.
Proof. unfold polled_ok. now intros ->. Qed.

(** Storing the local variables of run [t] when neither its start nor,
    if it goes on, its delay changed. *)
Lemma inv_set_task s t k0 k :
  backoff_inv s -> tasks s !! t = Some k0 -> start k = start k0 ->
  (alive (at_pc k) -> alive (at_pc k0) /\ delay k = delay k0) ->
  backoff_inv (set_task t k s).
Proof.
  intros [H1 H2] Hk0 Hst Hal. split.
  - intros t' k' Hk'. unfold set_task in Hk'. cbn [set_tasks tasks] in Hk'.
    destruct (decide (t = t')) as [<-|Hne].
    + rewrite list_lookup_insert_eq in Hk' by (eapply lookup_lt_Some; eauto).
      simplify_eq. destruct (H1 t k0 Hk0) as [Hp Ha]. split.
      * now apply (polled_ok_start s t k0).
      * intros Hal'. destruct (Hal Hal') as [Ha0 Hd]. rewrite Hd. now apply Ha.
    + rewrite list_lookup_insert_ne in Hk' by exact Hne. now apply H1.
  - intros t' Hl. unfold set_task in Hl. cbn [set_tasks tasks] in Hl.
    rewrite length_insert in Hl. now apply H2.
Qed.

Lemma inv_finish_thrown now t k0 k e s :
  backoff_inv s -> tasks s !! t = Some k0 -> start k = start k0 ->
  backoff_inv (finish_thrown now t k e s).
Proof.
  intros H Hk0 Hst. unfold finish_thrown.
  eapply backoff_inv_same; [apply same_settle|].
  apply (inv_set_task s t k0); auto. cbn. tauto.
Qed.

(** The head of the loop, for a run whose local delay is the next of
    the backoff sequence. *)
Lemma inv_loop_head now t k s :
  (forall t' k', t' <> t -> tasks s !! t' = Some k' -> task_ok s t' k') ->
  (forall t', (length (tasks s) <= t')%nat -> sleeps t' s = []) ->
  (t < length (tasks s))%nat ->
  polled_ok s t k -> delay k = backoff (length (sleeps t s)) ->
  backoff_inv (loop_head now t k s).
Proof.
  intros Hothers Hfresh Hlt [Hp1 Hp2] Hd. unfold loop_head.
  destruct (Z.ltb_spec (now - start k) 20000) as [Hin|Hout].
  - assert (forall t', sleeps t' (set_task t (with_pc k Sleeping)
                                   (emit now (ESleep t (delay k)) s))
                       = sleeps t' s ++ if bool_decide (t = t')
                                        then [(now, delay k)] else []) as Hsl.
    { intros t'. change (sleeps t' (set_task _ _ ?x)) with (sleeps t' x).
      rewrite sleeps_emit. unfold sleep_of. cbn [snd fst].
      now destruct (bool_decide (t = t')). }
    split.
    + intros t' k' Hk'. unfold set_task in Hk'. cbn [set_tasks tasks emit] in Hk'.
      destruct (decide (t = t')) as [<-|Hne].
      * rewrite list_lookup_insert_eq in Hk' by exact Hlt. simplify_eq.
        unfold task_ok, polled_ok. rewrite !Hsl, bool_decide_eq_true_2 by reflexivity.
        rewrite List.map_app, length_app, seq_app, List.map_app, <- Hp1.
        cbn [List.map snd length seq Nat.add start with_pc delay at_pc].
        rewrite Hd. repeat split.
        -- apply Forall_app. split; [exact Hp2|]. repeat constructor. exact Hin.
        -- intros E. now apply app_eq_nil in E as [_ E].
        -- f_equal. lia.
      * rewrite list_lookup_insert_ne in Hk' by exact Hne.
        specialize (Hothers t' k' (not_eq_sym Hne) Hk').
        unfold task_ok, polled_ok in *.
        rewrite !Hsl, bool_decide_eq_false_2, !app_nil_r by exact Hne.
        exact Hothers.
    + intros t' Hl. unfold set_task in Hl. cbn [set_tasks tasks emit] in Hl.
      rewrite length_insert in Hl.
      rewrite Hsl, bool_decide_eq_false_2, app_nil_r by lia. now apply Hfresh.
  - unfold finish_thrown. eapply backoff_inv_same; [apply same_settle|]. split.
    + intros t' k' Hk'. unfold set_task in Hk'. cbn [set_tasks tasks] in Hk'.
      destruct (decide (t = t')) as [<-|Hne].
      * rewrite list_lookup_insert_eq in Hk' by exact Hlt. simplify_eq.
        split; [split; assumption|]. cbn. tauto.
      * rewrite list_lookup_insert_ne in Hk' by exact Hne.
        now apply (Hothers t' k' (not_eq_sym Hne)).
    + intros t' Hl. unfold set_task in Hl. cbn [set_tasks tasks] in Hl.
      rewrite length_insert in Hl. now apply Hfresh.
Qed.

(** The [catch] block, for the run as it stands in the session. *)
Lemma inv_on_catch now t k err s :
  backoff_inv s -> tasks s !! t = Some k -> alive (at_pc k) ->
  backoff_inv (on_catch now t k err s).
Proof.
  intros [H1 H2] Hk Hal. unfold on_catch. destruct (isTransport err).
  - destruct (H1 t k Hk) as [Hp [Hne Hd]]; [exact Hal|].
    apply inv_loop_head; auto.
    + eapply lookup_lt_Some; eauto.
    + cbn [delay]. rewrite Hd.
      destruct (sleeps t s) as [|p l]; [congruence|].
      cbn [length]. now rewrite Nat.sub_succ, Nat.sub_0_r.
  - apply (inv_finish_thrown now t k); auto. now split.
Qed.

Section WithJsonParse.
Variable JSON_parse : jstring -> option value.

Lemma inv_after_initialize now t k s :
  backoff_inv s -> tasks s !! t = Some k -> alive (at_pc k) ->
  backoff_inv (after_initialize now t k s).
Proof.
  intros H Hk Hal. unfold after_initialize.
  apply (inv_set_task _ t k); auto.
  eapply backoff_inv_same; [|exact H].
  eapply same_tasks_trans; [apply same_notify|apply same_emit; discriminate].
Qed.

Lemma inv_start_call now t k s :
  backoff_inv s -> tasks s !! t = Some k -> alive (at_pc k) ->
  backoff_inv (start_call now t k s).
Proof.
  intros H Hk Hal. unfold start_call, postRpc.
  apply (inv_set_task _ t k); auto; try (cbn; tauto).
  eapply backoff_inv_same; [|exact H].
  eapply same_tasks_trans; [|apply same_emit; discriminate]. split; reflexivity.
Qed.

Lemma inv_after_call now t k v s :
  backoff_inv s -> tasks s !! t = Some k -> alive (at_pc k) ->
  backoff_inv (after_call JSON_parse now t k v s).
Proof.
  intros H Hk Hal. unfold after_call.
  destruct (prop v "error") as [e|]; [|now apply inv_on_catch].
  destruct (truthy e).
  - eapply backoff_inv_same; [apply same_settle|].
    apply (inv_set_task _ t k); auto; try (cbn; tauto).
  - destruct (extract_result JSON_parse v).
    + apply inv_on_catch; auto.
    + eapply backoff_inv_same; [apply same_settle|].
      apply (inv_set_task _ t k); auto; try (cbn; tauto).
Qed.

Lemma inv_resume now r res s :
  backoff_inv s -> backoff_inv (resume JSON_parse now r res s).
Proof.
  intros H. unfold resume.
  destruct (requests s !! r) as [q|]; [|exact H].
  destruct (tasks s !! rq_owner q) as [k|] eqn:Hk; [|exact H].
  destruct (at_pc k) eqn:Hpc; destruct res; try exact H;
    case_bool_decide; try exact H;
    repeat match goal with
           | |- backoff_inv (match ?x with _ => _ end) => destruct x
           end;
    first [ apply inv_on_catch | apply inv_after_initialize | apply inv_after_call ];
    auto; now rewrite Hpc.
Qed.

Lemma inv_settle_request now r res s :
  backoff_inv s -> backoff_inv (settle_request JSON_parse now r res s).
Proof.
  intros H. unfold settle_request.
  destruct (requests s !! r) as [q|]; [|exact H].
  destruct (rq_promise q); try exact H.
  apply inv_resume. eapply backoff_inv_same; [apply same_set_promise|exact H].
Qed.

Lemma inv_fetch_rejects now r q e s :
  backoff_inv s -> backoff_inv (fetch_rejects JSON_parse now r q e s).
Proof.
  intros H. unfold fetch_rejects. apply inv_settle_request.
  eapply backoff_inv_same; [|exact H].
  eapply same_tasks_trans; [apply same_clear_rpc_timer|]. split; reflexivity.
Qed.

Lemma inv_step s ev : backoff_inv s -> backoff_inv (step JSON_parse s ev).
Proof.
  intros H. destruct ev as [now [d|d|m| |t|r|r st b|r e|key|]]; cbn [step].
  - destruct (es s); [|exact H]. unfold on_endpoint.
    destruct H as [H1 H2].
    apply inv_loop_head; cbn [set_tasks set_phase set_msgUrl tasks].
    + intros t' k' Hne Hk'.
      rewrite lookup_app_l in Hk'.
      * now apply H1.
      * apply lookup_lt_Some in Hk'. rewrite length_app in Hk'. cbn in Hk'. lia.
    + intros t' Hl. rewrite length_app in Hl. apply H2. lia.
    + rewrite length_app. cbn. lia.
    + unfold polled_ok.
      change (sleeps ?t (set_tasks _ (set_phase _ (set_msgUrl _ s))))
        with (sleeps t s).
      rewrite H2 by lia. split; constructor.
    + change (sleeps ?t (set_tasks _ (set_phase _ (set_msgUrl _ s))))
        with (sleeps t s).
      rewrite H2 by lia. reflexivity.
  - destruct (es s); [|exact H]. unfold on_message.
    repeat match goal with
           | |- backoff_inv (match ?x with _ => _ end) => destruct x
           end; try exact H.
    apply inv_settle_request. eapply backoff_inv_same; [|exact H].
    eapply same_tasks_trans; [|apply same_clear_rpc_timer]. split; reflexivity.
  - destruct (es s); [|exact H]. unfold on_error.
    destruct (phase s); try exact H.
    eapply backoff_inv_same; [apply same_settle|exact H].
  - destruct (timer s); [|exact H].
    eapply backoff_inv_same; [apply same_settle|exact H].
  - unfold on_wake. destruct (tasks s !! t) as [k|] eqn:Hk; [|exact H].
    destruct (at_pc k) eqn:Hpc; try exact H.
    + unfold postRpc. apply (inv_set_task _ t k); auto;
        try (cbn; rewrite Hpc; tauto).
      eapply backoff_inv_same; [|exact H].
      eapply same_tasks_trans; [|apply same_emit; discriminate].
      split; reflexivity.
    + apply inv_start_call; auto. now rewrite Hpc.
  - unfold on_rpc_timer. destruct (requests s !! r) as [q|]; [|exact H].
    destruct (rq_timer q); try exact H.
    apply inv_settle_request. eapply backoff_inv_same; [|exact H].
    split; reflexivity.
  - unfold on_fetch_status. destruct (requests s !! r) as [q|]; [|exact H].
    destruct (rq_fetch_done q); [exact H|].
    destruct (negb (st =? 200) && negb (st =? 202)).
    + apply inv_fetch_rejects.
      eapply backoff_inv_same; [apply same_mark_fetch_done|exact H].
    + eapply backoff_inv_same; [apply same_mark_fetch_done|exact H].
  - unfold on_fetch_failed. destruct (requests s !! r) as [q|]; [|exact H].
    destruct (rq_fetch_done q); [exact H|].
    apply inv_fetch_rejects.
    eapply backoff_inv_same; [apply same_mark_fetch_done|exact H].
  - unfold on_reconfigure. destruct (truthy_str key); [|exact H].
    eapply backoff_inv_same; [|exact H]. split; reflexivity.
  - destruct (es s); [|exact H]. unfold on_reconnect.
    eapply backoff_inv_same; [apply same_emit; discriminate|exact H].
Qed.

Lemma inv_run evs s : backoff_inv s -> backoff_inv (run JSON_parse s evs).
Proof.
  revert s. induction evs as [|ev evs IH]; intros s H; [exact H|].
  cbn [run fold_left]. apply IH. now apply inv_step.
Qed.

Lemma inv_new_session key tool args timeoutMs now :
  backoff_inv (new_session key tool args timeoutMs now).
Proof.
  split.
  - intros t k Hk. discriminate.
  - intros t _. reflexivity.
Qed.

End WithJsonParse.

(** The backoff sequence in numbers. *)
Lemma backoff_range n : (500 <= backoff n /\ backoff n <= 3000)%Q.
Proof.
  induction n as [|n [Hlo Hhi]]; cbn [backoff].
  - split; [apply Qle_refl|]. now vm_compute.
  - unfold next_delay. rewrite Qred_correct.
    destruct (Q.min_spec (backoff n * (3 # 2)) 3000) as [[Hm ->]|[Hm ->]].
    + split; lra.
    + split; [now vm_compute|apply Qle_refl].
Qed.

Lemma backoff_step n :
  (backoff (S n) == Qmin (backoff n * (3 # 2)) 3000
   /\ backoff n <= backoff (S n))%Q.
Proof.
  destruct (backoff_range n) as [Hlo Hhi]. cbn [backoff]. unfold next_delay.
  rewrite Qred_correct. split; [reflexivity|].
  destruct (Q.min_spec (backoff n * (3 # 2)) 3000) as [[Hm ->]|[Hm ->]]; lra.
Qed.

(** C3, as the code has it.  In every run of a session, the backoff
    waits of each run of [doInitialize] are, in order, the first terms
    of the sequence that starts at 500 ms and goes on with 1.5 times the
    last term capped at 3000 ms, which never decreases; every such wait
    is started less than 20 s after the polling began (the deadline is
    looked at only then, so the failure itself comes later); and a
    transport-not-ready error caught once the 20 s have passed ends the
    attempt with that very error, its message unchanged. *)
Theorem polling_backoff (JSON_parse : jstring -> option value)
    (key toolName : jstring) (toolArgs : value) (timeoutMs now0 : Z)
    (evs : list event) :
  let s := run JSON_parse (new_session key toolName toolArgs timeoutMs now0) evs in
  (forall t k, tasks s !! t = Some k ->
     List.map snd (sleeps t s) = List.map backoff (seq 0 (length (sleeps t s)))
     /\ Forall (fun p => fst p - start k < 20000) (sleeps t s))
  /\ (backoff 0 = 500%Q
      /\ forall n, (backoff (S n) == Qmin (backoff n * (3 # 2)) 3000
                    /\ backoff n <= backoff (S n) /\ backoff n <= 3000)%Q)
  /\ (forall now t k err s',
        guard_inv s' -> settled s' = false ->
        isTransport err = true -> 20000 <= now - start k ->
        result_of (on_catch now t k err s') = Some (Rejected err)).
Proof.
  intros s. split; [|split].
  - intros t k Hk.
    destruct (inv_run JSON_parse evs _
                (inv_new_session key toolName toolArgs timeoutMs now0)) as [H1 _].
    destruct (H1 t k Hk) as [Hp _]. exact Hp.
  - split; [reflexivity|]. intros n.
    destruct (backoff_step n) as [A B]. destruct (backoff_range n) as [_ C]. auto.
  - intros. now apply on_catch_deadline.
Qed.

End BackoffProps.

(** ** The request correlator *)

Module CorrelatorProps.
Import Session Correlator.
Export CorrelatorSpec.

Lemma same_reqs_refl s : same_reqs s s.
Proof. split; reflexivity. Qed.

Lemma same_reqs_trans s1 s2 s3 :
  same_reqs s1 s2 -> same_reqs s2 s3 -> same_reqs s1 s3.
Proof. intros [A B] [C D]. split; congruence. Qed.

Lemma reqs_settle now o s : same_reqs s (settle now o s).
Proof.
  unfold settle. destruct (settled s), (es s), (timer s); split; reflexivity.
Qed.

Lemma reqs_finish_thrown now t k e s : same_reqs s (finish_thrown now t k e s).
Proof.
  unfold finish_thrown.
  eapply same_reqs_trans; [|apply reqs_settle]. split; reflexivity.
Qed.

Lemma reqs_loop_head now t k s : same_reqs s (loop_head now t k s).
Proof.
  unfold loop_head. destruct (_ <? _); [split; reflexivity|].
  apply reqs_finish_thrown.
Qed.

Lemma reqs_on_catch now t k e s : same_reqs s (on_catch now t k e s).
Proof.
  unfold on_catch. destruct (isTransport e);
    [apply reqs_loop_head|apply reqs_finish_thrown].
Qed.

Section WithJsonParse.
Variable JSON_parse : jstring -> option value.

Lemma reqs_after_call now t k v s :
  same_reqs s (after_call JSON_parse now t k v s).
Proof.
  unfold after_call. destruct (prop v "error") as [e|]; [|apply reqs_on_catch].
  destruct (truthy e).
  - eapply same_reqs_trans; [|apply reqs_settle]. split; reflexivity.
  - destruct (extract_result JSON_parse v).
    + eapply same_reqs_trans; [|apply reqs_on_catch]. split; reflexivity.
    + eapply same_reqs_trans; [|apply reqs_settle]. split; reflexivity.
Qed.

Lemma reqs_resume now r res s : same_reqs s (resume JSON_parse now r res s).
Proof.
  unfold resume.
  destruct (requests s !! r) as [q|]; [|apply same_reqs_refl].
  destruct (tasks s !! rq_owner q) as [k|]; [|apply same_reqs_refl].
  destruct (at_pc k), res; try apply same_reqs_refl;
    case_bool_decide; try apply same_reqs_refl;
    repeat match goal with
           | |- same_reqs _ (match ?x with _ => _ end) => destruct x
           end;
    first [ apply reqs_on_catch | apply reqs_after_call | split; reflexivity ].
Qed.

Lemma settle_request_pending now r res s q :
  requests s !! r = Some q -> rq_promise q = Pending ->
  requests (settle_request JSON_parse now r res s)
  = <[r := upd q (rq_timer q) res (rq_fetch_done q)]> (requests s)
  /\ pending (settle_request JSON_parse now r res s) = pending s.
Proof.
  intros Hq Hp. unfold settle_request. rewrite Hq, Hp.
  destruct (reqs_resume now r res (set_promise r res s)) as [-> ->].
  unfold set_promise. rewrite Hq. split; reflexivity.
Qed.

Lemma settle_request_settled now r res s q :
  requests s !! r = Some q -> rq_promise q <> Pending ->
  settle_request JSON_parse now r res s = s.
Proof.
  intros Hq Hp. unfold settle_request. rewrite Hq.
  destruct (rq_promise q); congruence.
Qed.

End WithJsonParse.

Lemma clear_rpc_timer_armed r s q :
  requests s !! r = Some q -> rq_timer q = Armed ->
  clear_rpc_timer r s
  = set_request r (upd q Cleared (rq_promise q) (rq_fetch_done q)) s.
Proof. intros Hq Ht. unfold clear_rpc_timer. now rewrite Hq, Ht. Qed.

Lemma clear_rpc_timer_other r s q :
  requests s !! r = Some q -> rq_timer q <> Armed -> clear_rpc_timer r s = s.
Proof.
  intros Hq Ht. unfold clear_rpc_timer. rewrite Hq.
  destruct (rq_timer q); congruence.
Qed.

Lemma req_ok_armed q : req_ok q -> (rq_timer q = Armed <-> rq_promise q = Pending).
Proof.
  unfold req_ok. destruct (rq_promise q); split; intros H'; try congruence;
    try tauto; destruct H as [H _]; congruence.
Qed.

Section Effects.
Variable JSON_parse : jstring -> option value.

Lemma req_ok_upd_flag q fd :
  req_ok q -> req_ok (upd q (rq_timer q) (rq_promise q) fd).
Proof. unfold req_ok, upd. cbn. auto. Qed.

(** The rejection paths of [fetch] on a request as it stands in [s]. *)
Lemma fetch_rejects_effect now r q q0 e s :
  requests s !! r = Some q -> req_ok q -> rq_id q0 = rq_id q ->
  exists q',
    requests (fetch_rejects JSON_parse now r q0 e s) = <[r := q']> (requests s)
    /\ pending (fetch_rejects JSON_parse now r q0 e s)
       = delete (rq_id q) (pending s)
    /\ ((rq_promise q = Pending
         /\ q' = upd q Cleared (Failed e) (rq_fetch_done q))
        \/ (rq_promise q <> Pending /\ q' = q)).
Proof.
  intros Hq Hok Hid. unfold fetch_rejects. rewrite Hid.
  pose proof (lookup_lt_Some _ _ _ Hq) as Hlt.
  destruct (req_ok_armed q Hok) as [Ha1 Ha2].
  assert (rq_promise q = Pending \/ rq_promise q <> Pending) as [Hp|Hp]
    by (destruct (rq_promise q); auto; right; discriminate).
  - rewrite (clear_rpc_timer_armed r s q Hq (Ha2 Hp)).
    edestruct (settle_request_pending JSON_parse now r (Failed e)) as [-> ->].
    { cbn [set_pending set_request set_requests requests].
      apply list_lookup_insert_eq. exact Hlt. }
    { cbn. exact Hp. }
    exists (upd q Cleared (Failed e) (rq_fetch_done q)).
    cbn [set_pending set_request set_requests requests pending upd
         rq_id rq_method rq_owner rq_timer rq_fetch_done].
    rewrite list_insert_insert_eq. auto.
  - assert (rq_timer q <> Armed) as Ht by tauto.
    rewrite (clear_rpc_timer_other r s q Hq Ht).
    rewrite (settle_request_settled JSON_parse now r (Failed e) _ q); [|exact Hq|exact Hp].
    exists q. cbn [set_pending requests pending].
    rewrite list_insert_id by exact Hq. auto.
Qed.

Lemma effect_fetch_rejects now r q e s :
  corr_inv s -> requests s !! r = Some q -> rq_fetch_done q = false ->
  effect_on s (fetch_rejects JSON_parse now r q e (mark_fetch_done r s)).
Proof.
  intros [_ Hok] Hq Hfd.
  pose proof (lookup_lt_Some _ _ _ Hq) as Hlt.
  set (q1 := upd q (rq_timer q) (rq_promise q) true).
  assert (mark_fetch_done r s = set_request r q1 s) as -> by
      (unfold mark_fetch_done; now rewrite Hq).
  destruct (fetch_rejects_effect now r q1 q e (set_request r q1 s))
    as (q' & Hr & Hp & Hcase).
  { cbn. apply list_lookup_insert_eq. exact Hlt. }
  { apply req_ok_upd_flag. eauto. }
  { reflexivity. }
  cbn [set_request set_requests requests pending] in Hr, Hp.
  rewrite list_insert_insert_eq in Hr.
  apply (eff_touch s _ r q q' (Some (rq_id q))); auto.
  destruct Hcase as [[Hpe ->]|[Hpe ->]]; cbn in Hpe.
  - apply (touch_failed s r q _ Cleared e true); auto; discriminate.
  - now apply (touch_stale s r q).
Qed.

(** A frame whose id is in the map: the request it names is taken out
    of the map, its timer is cleared and its promise is fulfilled with
    the frame. *)
Lemma on_message_hit now data d n r s :
  corr_inv s ->
  JSON_parse data = Some d -> prop d "id" = Some (VNum n) ->
  pending s !! n = Some r ->
  exists q,
    requests s !! r = Some q /\ rq_id q = n /\ rq_promise q = Pending
    /\ requests (on_message JSON_parse now data s)
       = <[r := upd q Cleared (Fulfilled d) (rq_fetch_done q)]> (requests s)
    /\ pending (on_message JSON_parse now data s) = delete n (pending s).
Proof.
  intros [Hpend Hok] Hd Hid Hn. unfold on_message. rewrite Hd, Hid, Hn.
  destruct (Hpend n r Hn) as (q & Hq & Hqid & Hqp). exists q.
  pose proof (lookup_lt_Some _ _ _ Hq) as Hlt.
  destruct (req_ok_armed q (Hok r q Hq)) as [_ Harm].
  rewrite (clear_rpc_timer_armed r _ q); [|exact Hq|auto].
  match goal with
  | |- context [settle_request _ _ _ ?res (set_request _ ?q1 ?s0)] =>
      destruct (settle_request_pending JSON_parse now r res
                  (set_request r q1 s0) q1) as [Hr Hp]
  end.
  { cbn [set_pending set_request set_requests requests].
    apply list_lookup_insert_eq. exact Hlt. }
  { cbn. exact Hqp. }
  cbn [set_pending set_request set_requests requests pending upd
       rq_id rq_method rq_owner rq_timer rq_fetch_done] in Hr, Hp.
  rewrite list_insert_insert_eq in Hr. auto.
Qed.

(** Every step is a registration, a change of one request, or leaves
    the correlator alone. *)
Lemma effect_apply_op s o :
  corr_inv s -> effect_on s (apply_op JSON_parse s o).
Proof.
  intros Hinv. pose proof Hinv as [Hpend Hok].
  destruct o as [now [t id m|[d|d|m| |t|r|r st b|r e|key|]]];
    cbn [apply_op snd fst step].
  - eapply eff_register; reflexivity.
  - destruct (es s); [|apply eff_frame, same_reqs_refl].
    apply eff_frame. unfold on_endpoint.
    eapply same_reqs_trans; [|apply reqs_loop_head]. split; reflexivity.
  - destruct (es s); [|apply eff_frame, same_reqs_refl]. unfold on_message.
    destruct (JSON_parse d) as [v|] eqn:Hd; [|apply eff_frame, same_reqs_refl].
    destruct (prop v "id") as [[| | |n| | |]|] eqn:Hid;
      try apply eff_frame, same_reqs_refl.
    destruct (pending s !! n) as [r|] eqn:Hn; [|apply eff_frame, same_reqs_refl].
    destruct (on_message_hit now d v n r s Hinv Hd Hid Hn)
      as (q & Hq & Hqid & Hqp & Hr & Hp).
    unfold on_message in Hr, Hp. rewrite Hd, Hid, Hn in Hr, Hp.
    apply (eff_touch s _ r q _ (Some (rq_id q)) Hq Hr).
    + rewrite Hp. now rewrite Hqid.
    + apply (touch_resolved s r q _ v); auto; congruence.
  - destruct (es s); [|apply eff_frame, same_reqs_refl]. unfold on_error.
    destruct (phase s); try apply eff_frame, same_reqs_refl.
    apply eff_frame, reqs_settle.
  - destruct (timer s); [|apply eff_frame, same_reqs_refl].
    apply eff_frame, reqs_settle.
  - unfold on_wake. destruct (tasks s !! t) as [k|]; [|apply eff_frame, same_reqs_refl].
    destruct (at_pc k); try apply eff_frame, same_reqs_refl.
    + eapply eff_register; reflexivity.
    + unfold start_call. eapply eff_register; reflexivity.
  - unfold on_rpc_timer.
    destruct (requests s !! r) as [q|] eqn:Hq; [|apply eff_frame, same_reqs_refl].
    destruct (rq_timer q) eqn:Ht; try apply eff_frame, same_reqs_refl.
    pose proof (lookup_lt_Some _ _ _ Hq) as Hlt.
    destruct (req_ok_armed q (Hok r q Hq)) as [Harm _].
    match goal with
    | |- context [settle_request _ _ _ ?res (set_pending _ (set_request _ ?q1 ?s0))] =>
        destruct (settle_request_pending JSON_parse now r res
                    (set_pending (delete (rq_id q) (pending (set_request r q1 s0)))
                       (set_request r q1 s0)) q1) as [Hr Hp]
    end.
    { cbn [set_pending set_request set_requests requests].
      apply list_lookup_insert_eq. exact Hlt. }
    { cbn. auto. }
    cbn [set_pending set_request set_requests requests pending upd
         rq_id rq_method rq_owner rq_timer rq_fetch_done] in Hr, Hp.
    rewrite list_insert_insert_eq in Hr.
    apply (eff_touch s _ r q _ (Some (rq_id q)) Hq Hr Hp).
    eapply (touch_failed s r q _ Fired); auto; discriminate.
  - unfold on_fetch_status.
    destruct (requests s !! r) as [q|] eqn:Hq; [|apply eff_frame, same_reqs_refl].
    destruct (rq_fetch_done q) eqn:Hfd; [apply eff_frame, same_reqs_refl|].
    destruct (negb (st =? 200) && negb (st =? 202)).
    + now apply effect_fetch_rejects.
    + unfold mark_fetch_done. rewrite Hq.
      apply (eff_touch s _ r q (upd q (rq_timer q) (rq_promise q) true) None Hq);
        try reflexivity.
      now apply (touch_flag s r q).
  - unfold on_fetch_failed.
    destruct (requests s !! r) as [q|] eqn:Hq; [|apply eff_frame, same_reqs_refl].
    destruct (rq_fetch_done q) eqn:Hfd; [apply eff_frame, same_reqs_refl|].
    now apply effect_fetch_rejects.
  - unfold on_reconfigure. destruct (truthy_str key); apply eff_frame; split; reflexivity.
  - destruct (es s); apply eff_frame; split; reflexivity.
Qed.

End Effects.

Lemma touch_id s r q q' del : touch s r q q' del -> rq_id q' = rq_id q.
Proof. destruct 1; subst; reflexivity. Qed.

Lemma touch_del s r q q' del k : touch s r q q' del -> del = Some k -> k = rq_id q.
Proof. destruct 1; congruence. Qed.

Lemma ids_insert (l : list request) r q q' :
  l !! r = Some q -> rq_id q' = rq_id q ->
  List.map rq_id (<[r := q']> l) = List.map rq_id l.
Proof.
  intros Hq Hid. change (List.map rq_id) with (fmap (M:=list) rq_id).
  rewrite list_fmap_insert, Hid. apply list_insert_id.
  now rewrite list_lookup_fmap, Hq.
Qed.

(** One step keeps the map sound. *)
Lemma corr_inv_effect s s' : corr_inv s -> effect_on s s' -> corr_inv s'.
Proof.
  intros [Hpend Hok] [[Hr Hp] | id m t Hr Hp | r q q' del Hq Hr Hp Ht].
  - split; rewrite ?Hr, ?Hp; auto.
  - split.
    + intros id' r'. rewrite Hp, Hr. intros Hl.
      apply lookup_insert_Some in Hl as [[<- <-]|[Hne Hl]].
      * eexists. split; [apply list_lookup_middle; reflexivity|]. auto.
      * destruct (Hpend _ _ Hl) as (q & Hq & Hi & Hpe). exists q.
        split; [|auto]. now apply lookup_app_l_Some.
    + intros r' q'. rewrite Hr. intros Hl.
      apply lookup_app_Some in Hl as [Hl|[_ Hl]]; [eauto|].
      destruct (r' - length (requests s))%nat; [|now destruct n].
      cbn in Hl. simplify_eq. reflexivity.
  - pose proof (touch_id _ _ _ _ _ Ht) as Hid.
    pose proof (lookup_lt_Some _ _ _ Hq) as Hlt. split.
    + intros id' r'. rewrite Hp, Hr. intros Hl.
      assert (pending s !! id' = Some r'
              /\ (forall k, del = Some k -> id' <> k)) as [Hold Hdel].
      { destruct del as [k|].
        - apply lookup_delete_Some in Hl as [Hne Hl]. split; [exact Hl|].
          intros k' [= <-]. auto.
        - split; [exact Hl|]. discriminate. }
      destruct (Hpend _ _ Hold) as (q0 & Hq0 & Hi0 & Hpe0).
      destruct (decide (r' = r)) as [->|Hne].
      * assert (q0 = q) as -> by congruence.
        rewrite list_lookup_insert_eq by exact Hlt. exists q'.
        split; [reflexivity|]. split; [congruence|].
        destruct Ht as [d _ _ _ ->|tm e fd _ _ ->|_ _ ->|_ ->];
          try (exfalso; apply (Hdel (rq_id q)); [reflexivity|congruence]).
        exact Hpe0.
      * rewrite list_lookup_insert_ne by auto. eauto.
    + intros r' q0. rewrite Hr. intros Hl.
      destruct (decide (r' = r)) as [->|Hne].
      * rewrite list_lookup_insert_eq in Hl by exact Hlt. simplify_eq.
        specialize (Hok r q Hq).
        destruct Ht as [d _ _ Hd ->|tm e fd _ Htm ->|_ _ ->|_ ->];
          unfold req_ok, upd in *; cbn; auto.
      * rewrite list_lookup_insert_ne in Hl by auto. eauto.
Qed.

(** One step only adds identifiers, and a settled request stays as it is. *)
Lemma evolves_effect s s' :
  effect_on s s' ->
  (exists extra, ids s' = ids s ++ extra)
  /\ (forall r q, requests s !! r = Some q ->
        exists q', requests s' !! r = Some q' /\ rq_id q' = rq_id q
                   /\ (rq_promise q <> Pending ->
                       rq_promise q' = rq_promise q /\ rq_timer q' = rq_timer q)).
Proof.
  intros [[Hr Hp] | id m t Hr Hp | r q q' del Hq Hr Hp Ht]; unfold ids.
  - rewrite Hr. split; [exists []; now rewrite app_nil_r|]. eauto.
  - rewrite Hr. split; [eexists; apply List.map_app|].
    intros r q Hq. exists q. split; [now apply lookup_app_l_Some|auto].
  - pose proof (touch_id _ _ _ _ _ Ht) as Hid.
    pose proof (lookup_lt_Some _ _ _ Hq) as Hlt.
    rewrite Hr. split.
    + exists []. rewrite app_nil_r. now apply (ids_insert _ r q).
    + intros r' q0 Hq0. destruct (decide (r' = r)) as [->|Hne].
      * assert (q0 = q) as -> by congruence. exists q'.
        rewrite list_lookup_insert_eq by exact Hlt.
        split; [reflexivity|]. split; [exact Hid|]. intros Hs.
        destruct Ht as [d Hpe _ _ ->|tm e fd Hpe _ ->|_ _ ->|_ ->];
          try congruence; auto.
      * exists q0. rewrite list_lookup_insert_ne by auto. auto.
Qed.

(** Only a request that is not spent changes. *)
Lemma touch_unspent s r q q' del : touch s r q q' del -> spentb q = false.
Proof.
  unfold spentb. intros [d Hpe _ _ _|tm e fd Hpe _ _|Hs Hfd _|Hfd _];
    try (now rewrite Hpe); destruct (rq_promise q); auto.
Qed.

Lemma fresh_idb_spec s id r q :
  fresh_idb s id = true -> requests s !! r = Some q -> rq_id q = id ->
  spentb q = true.
Proof.
  unfold fresh_idb. rewrite forallb_forall. intros H Hq Hid.
  specialize (H q). rewrite Hid, Z.eqb_refl in H. apply H.
  apply list_elem_of_In. eapply list_elem_of_lookup_2; eauto.
Qed.

Lemma registers_ok_snoc s s' q :
  requests s' = requests s ++ [q] -> registers_ok s s' = true ->
  fresh_idb s (rq_id q) = true.
Proof.
  unfold registers_ok. intros ->.
  rewrite skipn_app, skipn_all, Nat.sub_diag. cbn.
  now rewrite andb_true_r.
Qed.

(** One step keeps the discipline, when what it registers has a free
    id. *)
Lemma discipline_effect s s' :
  ids_disciplined s -> registers_ok s s' = true -> effect_on s s' ->
  ids_disciplined s'.
Proof.
  intros Hd Hreg [[Hr Hp] | id m t Hr Hp | r q q' del Hq Hr Hp Ht];
    unfold ids_disciplined in *.
  - rewrite Hr. exact Hd.
  - pose proof (registers_ok_snoc _ _ _ Hr Hreg) as Hfresh. cbn in Hfresh.
    rewrite Hr. intros r1 r2 q1 q2 Hlt H1 H2 Hid.
    apply lookup_app_Some in H2 as [H2|[Hge H2]].
    + pose proof (lookup_lt_Some _ _ _ H2).
      rewrite lookup_app_l in H1 by lia. eauto.
    + destruct (r2 - length (requests s))%nat eqn:E; [|now destruct n].
      cbn in H2. simplify_eq. cbn in Hid.
      rewrite lookup_app_l in H1 by lia.
      eapply fresh_idb_spec; eauto.
  - pose proof (touch_id _ _ _ _ _ Ht) as Hid.
    pose proof (touch_unspent _ _ _ _ _ Ht) as Hun.
    pose proof (lookup_lt_Some _ _ _ Hq) as Hlt.
    rewrite Hr. intros r1 r2 q1 q2 Hlt12 H1 H2 Hids.
    assert (exists p2, requests s !! r2 = Some p2 /\ rq_id p2 = rq_id q2)
      as (p2 & Hp2 & Hi2).
    { destruct (decide (r2 = r)) as [->|Hne].
      - rewrite list_lookup_insert_eq in H2 by exact Hlt. simplify_eq. eauto.
      - rewrite list_lookup_insert_ne in H2 by auto. eauto. }
    destruct (decide (r1 = r)) as [->|Hne].
    + rewrite list_lookup_insert_eq in H1 by exact Hlt. simplify_eq.
      assert (spentb q = true) by (eapply Hd; eauto; congruence).
      congruence.
    + rewrite list_lookup_insert_ne in H1 by auto.
      eapply Hd; eauto. congruence.
Qed.

(** Under the discipline, one step keeps every waiting request in the
    map. *)
Lemma findable_effect s s' :
  corr_inv s -> findable s -> ids_disciplined s ->
  registers_ok s s' = true -> effect_on s s' -> findable s'.
Proof.
  intros [Hpend Hok] Hf Hd Hreg Heff.
  destruct Heff as [[Hr Hp] | id m t Hr Hp | r q q' del Hq Hr Hp Ht];
    unfold findable in *.
  - rewrite Hr, Hp. exact Hf.
  - pose proof (registers_ok_snoc _ _ _ Hr Hreg) as Hfresh. cbn in Hfresh.
    rewrite Hr, Hp. intros r' q' Hl Hpe.
    apply lookup_app_Some in Hl as [Hl|[Hge Hl]].
    + rewrite lookup_insert_ne; [now apply Hf|].
      intros Heq.
      pose proof (fresh_idb_spec _ _ _ _ Hfresh Hl (eq_sym Heq)) as Hs.
      unfold spentb in Hs. now rewrite Hpe in Hs.
    + destruct (r' - length (requests s))%nat eqn:E; [|now destruct n].
      cbn in Hl. simplify_eq. cbn [rq_id].
      replace r' with (length (requests s)) by lia. apply lookup_insert_eq.
  - pose proof (touch_id _ _ _ _ _ Ht) as Hid.
    pose proof (touch_unspent _ _ _ _ _ Ht) as Hun.
    pose proof (lookup_lt_Some _ _ _ Hq) as Hlt.
    intros r' q0. rewrite Hr, Hp. intros Hl Hpe.
    destruct (decide (r' = r)) as [->|Hne].
    + rewrite list_lookup_insert_eq in Hl by exact Hlt. simplify_eq.
      destruct Ht as [d _ _ _ ->|tm e fd _ _ ->|Hs _ ->|_ ->];
        try discriminate; cbn in Hpe; try congruence.
      cbn [upd rq_id]. now apply Hf.
    + rewrite list_lookup_insert_ne in Hl by auto.
      destruct del as [k|]; [|now apply Hf].
      rewrite (touch_del _ _ _ _ _ k Ht eq_refl).
      rewrite lookup_delete_ne; [now apply Hf|].
      intros Heq.
      destruct (Nat.lt_total r' r) as [Hlt'|[->|Hlt']]; [| congruence |].
      * assert (spentb q0 = true) as Hs by (eapply (Hd r' r); eauto).
        unfold spentb in Hs. now rewrite Hpe in Hs.
      * assert (spentb q = true) by (eapply (Hd r r'); eauto).
        congruence.
Qed.

(** Identifiers used once are a case of the discipline. *)
Lemma fresh_idb_unused s id : ~ In id (ids s) -> fresh_idb s id = true.
Proof.
  intros Hn. unfold fresh_idb. apply forallb_forall. intros q Hq.
  destruct (Z.eqb_spec (rq_id q) id) as [E|_]; [|reflexivity].
  exfalso. apply Hn. unfold ids. rewrite <- E. now apply in_map.
Qed.

Lemma registers_ok_effect s s' :
  effect_on s s' -> NoDup (ids s') -> registers_ok s s' = true.
Proof.
  intros [[Hr Hp] | id m t Hr Hp | r q q' del Hq Hr Hp Ht] Hnd;
    unfold registers_ok, ids in *; rewrite Hr in *.
  - now rewrite skipn_all.
  - rewrite skipn_app, skipn_all, Nat.sub_diag. cbn. rewrite andb_true_r.
    apply fresh_idb_unused. rewrite List.map_app in Hnd.
    apply NoDup_app in Hnd as (_ & Hdisj & _). intros Hin.
    apply (Hdisj id); [now apply list_elem_of_In|cbn; left].
  - rewrite <- (length_insert (requests s) r q'). now rewrite skipn_all.
Qed.

Section Exec.
Variable JSON_parse : jstring -> option value.

Lemma exec_app s a b :
  exec JSON_parse s (a ++ b) = exec JSON_parse (exec JSON_parse s a) b.
Proof. apply fold_left_app. Qed.

Lemma exec_inv ops s : corr_inv s -> corr_inv (exec JSON_parse s ops).
Proof.
  revert s. induction ops as [|o ops IH]; intros s H; [exact H|].
  cbn [exec fold_left]. apply IH.
  eapply corr_inv_effect; [exact H|]. now apply effect_apply_op.
Qed.

Lemma exec_evolves ops s :
  corr_inv s ->
  (exists extra, ids (exec JSON_parse s ops) = ids s ++ extra)
  /\ (forall r q, requests s !! r = Some q ->
        exists q', requests (exec JSON_parse s ops) !! r = Some q'
                   /\ rq_id q' = rq_id q
                   /\ (rq_promise q <> Pending ->
                       rq_promise q' = rq_promise q /\ rq_timer q' = rq_timer q)).
Proof.
  revert s. induction ops as [|o ops IH]; intros s H.
  - split; [exists []; now rewrite app_nil_r|]. eauto.
  - cbn [exec fold_left].
    pose proof (effect_apply_op JSON_parse s o H) as Heff.
    destruct (evolves_effect _ _ Heff) as [[x1 E1] S1].
    destruct (IH _ (corr_inv_effect _ _ H Heff)) as [[x2 E2] S2]. split.
    + exists (x1 ++ x2). unfold exec in E2. now rewrite E2, E1, List.app_assoc.
    + intros r q Hq. destruct (S1 r q Hq) as (q1 & Hq1 & Hi1 & Hs1).
      destruct (S2 r q1 Hq1) as (q2 & Hq2 & Hi2 & Hs2). exists q2.
      split; [exact Hq2|]. split; [congruence|]. intros Hne.
      destruct (Hs1 Hne) as [Hp1 Ht1].
      destruct Hs2 as [Hp2 Ht2]; [congruence|]. split; congruence.
Qed.

Lemma disciplined_app a b s :
  disciplined JSON_parse s (a ++ b)
  = disciplined JSON_parse s a
    && disciplined JSON_parse (exec JSON_parse s a) b.
Proof.
  revert s. induction a as [|o a IH]; intros s; [reflexivity|].
  cbn [app disciplined exec fold_left]. unfold exec in IH.
  now rewrite IH, andb_assoc.
Qed.

Lemma exec_findable ops s :
  corr_inv s -> findable s -> ids_disciplined s ->
  disciplined JSON_parse s ops = true ->
  findable (exec JSON_parse s ops)
  /\ ids_disciplined (exec JSON_parse s ops).
Proof.
  revert s. induction ops as [|o ops IH]; intros s H Hf Hd Hok; [auto|].
  cbn [exec fold_left disciplined] in *.
  apply andb_true_iff in Hok as [Hreg Hok].
  pose proof (effect_apply_op JSON_parse s o H) as Heff.
  pose proof (corr_inv_effect _ _ H Heff) as H'.
  apply IH; auto.
  - apply (findable_effect s); auto.
  - apply (discipline_effect s); auto.
Qed.

Lemma nodup_disciplined ops s :
  corr_inv s -> NoDup (ids (exec JSON_parse s ops)) ->
  disciplined JSON_parse s ops = true.
Proof.
  revert s. induction ops as [|o ops IH]; intros s H Hnd; [reflexivity|].
  cbn [exec fold_left disciplined] in *.
  pose proof (effect_apply_op JSON_parse s o H) as Heff.
  pose proof (corr_inv_effect _ _ H Heff) as H'.
  apply andb_true_iff. split; [|now apply IH].
  apply registers_ok_effect; [exact Heff|].
  destruct (exec_evolves ops _ H') as [[x E] _]. unfold exec in E.
  rewrite E in Hnd. now apply NoDup_app in Hnd as [Hnd _].
Qed.

Lemma corr_inv_new key tool args timeoutMs now :
  corr_inv (new_session key tool args timeoutMs now)
  /\ findable (new_session key tool args timeoutMs now)
  /\ ids_disciplined (new_session key tool args timeoutMs now).
Proof.
  split; [split|split]; cbn; intros; discriminate.
Qed.

(** What the correlator does guarantee.  Take any interleaving of
    requests sent with [postRpc] and of events (frames, timers firing,
    answers to the POSTs, anything else) in which an identifier is
    taken again only once the request that had it is settled and its
    POST answered (as when every request has an identifier of its
    own).  Then
    - a frame that arrives while the request with its id waits resolves
      that request with this very frame and clears its timer, and
      nothing that follows changes that;
    - whatever settles a request first, its response, its timeout or a
      failed POST, the request stays as that left it;
    - a request is waiting with its timer armed and its entry in the
      map, or resolved by a frame carrying its id with its timer
      cleared (so the timer never fires), or failed;
    - a frame whose id is not in the map changes nothing at all. *)
Theorem correlator_exactly_once (key toolName : jstring) (toolArgs : value)
    (timeoutMs now0 : Z) (ops : list (Z * op)) :
  let s0 := new_session key toolName toolArgs timeoutMs now0 in
  let s := exec JSON_parse s0 ops in
  disciplined JSON_parse s0 ops = true ->
  (forall pre now data post d n r q,
      ops = pre ++ (now, Deliver (SseMessage data)) :: post ->
      es (exec JSON_parse s0 pre) = true ->
      JSON_parse data = Some d -> prop d "id" = Some (VNum n) ->
      requests (exec JSON_parse s0 pre) !! r = Some q ->
      rq_id q = n -> rq_promise q = Pending ->
      exists q', requests s !! r = Some q'
                 /\ rq_promise q' = Fulfilled d /\ rq_timer q' = Cleared)
  /\ (forall pre post r q,
        ops = pre ++ post ->
        requests (exec JSON_parse s0 pre) !! r = Some q ->
        rq_promise q <> Pending ->
        exists q', requests s !! r = Some q'
                   /\ rq_promise q' = rq_promise q /\ rq_timer q' = rq_timer q)
  /\ (forall r q, requests s !! r = Some q ->
        match rq_promise q with
        | Pending => rq_timer q = Armed /\ pending s !! rq_id q = Some r
        | Fulfilled d =>
            rq_timer q = Cleared /\ prop d "id" = Some (VNum (rq_id q))
        | Failed _ => rq_timer q <> Armed
        end)
  /\ (forall now data,
        (forall d n, JSON_parse data = Some d -> prop d "id" = Some (VNum n) ->
                     pending s !! n = None) ->
        step JSON_parse s (now, SseMessage data) = s).
Proof.
  intros s0 s Hnd.
  destruct (corr_inv_new key toolName toolArgs timeoutMs now0)
    as (H0 & F0 & D0).
  fold s0 in H0, F0, D0.
  assert (forall pre post, ops = pre ++ post ->
            corr_inv (exec JSON_parse s0 pre)
            /\ findable (exec JSON_parse s0 pre)) as Hpre.
  { intros pre post E.
    pose proof (exec_inv pre s0 H0) as Hi. split; [exact Hi|].
    apply exec_findable; auto.
    rewrite E in Hnd. rewrite disciplined_app in Hnd.
    now apply andb_true_iff in Hnd as [Hnd _]. }
  split; [|split; [|split]].
  - intros pre now data post d n r q E Hes Hd Hid Hq Hqid Hpe.
    destruct (Hpre pre _ E) as [Hi Hf].
    set (s1 := exec JSON_parse s0 pre) in *.
    pose proof (Hf r q Hq Hpe) as Hn. rewrite Hqid in Hn.
    destruct (on_message_hit JSON_parse now data d n r s1 Hi Hd Hid Hn)
      as (q1 & Hq1 & _ & _ & Hr & _).
    assert (q1 = q) as -> by congruence.
    set (s2 := apply_op JSON_parse s1 (now, Deliver (SseMessage data))).
    assert (requests s2 !! r
            = Some (upd q Cleared (Fulfilled d) (rq_fetch_done q))) as Hq2.
    { unfold s2. cbn [apply_op snd fst step]. rewrite Hes, Hr.
      apply list_lookup_insert_eq. eapply lookup_lt_Some; eauto. }
    assert (corr_inv s2) as Hi2.
    { eapply corr_inv_effect; [exact Hi|]. now apply effect_apply_op. }
    destruct (exec_evolves post s2 Hi2) as [_ St].
    destruct (St r _ Hq2) as (q' & Hq' & _ & Hs).
    assert (s = exec JSON_parse s2 post) as Es.
    { unfold s. rewrite E, exec_app. reflexivity. }
    exists q'. rewrite Es. split; [exact Hq'|].
    destruct Hs as [Hp Ht]; [discriminate|]. split; [exact Hp|exact Ht].
  - intros pre post r q E Hq Hne.
    destruct (Hpre pre _ E) as [Hi _].
    destruct (exec_evolves post _ Hi) as [_ St].
    destruct (St r q Hq) as (q' & Hq' & _ & Hs).
    rewrite <- exec_app, <- E in Hq'. fold s in Hq'.
    exists q'. split; [exact Hq'|]. now apply Hs.
  - intros r q Hq.
    destruct (Hpre ops [] (eq_sym (app_nil_r ops))) as [[_ Hok] Hf].
    fold s in Hok, Hf. specialize (Hok r q Hq). unfold req_ok in Hok.
    destruct (rq_promise q) eqn:Hp; auto.
  - intros now data Hmiss. cbn [step]. destruct (es s); [|reflexivity].
    unfold on_message. destruct (JSON_parse data) as [d|] eqn:Hd; [|reflexivity].
    destruct (prop d "id") as [[| | |n| | |]|] eqn:Hid; try reflexivity.
    now rewrite (Hmiss d n eq_refl Hid).
Qed.

End Exec.

End CorrelatorProps.

(** ** The call queue *)

Module CallQueueProps.
Import Session Retry CallQueue.
Export CallQueueSpec.














End CallQueueProps.

(** ** The properties on the concrete runs *)

Module Examples.
Import EventStream EventSourceClass Session Correlator Retry CallQueue.
Import Scenarios MoreScenarios.
Import EventStreamProps EventSourceClassProps SettleProps ExtractProps RetryProps
       CredentialProps BackoffProps CorrelatorProps CallQueueProps.

(** C4 as stated fails.  A frame whose payload is blank is not
    emitted, and its name goes to the frame that follows: two frames
    give one event, the second frame's payload under the first one's
    name.  A frame named [constructor] makes [_emit] throw: no listener
    is called, the frame that follows in the chunk is not read, and
    what the variables hold then depends on where the chunks end. *)
Lemma blank_or_inherited_frame_is_lost :
  on_chunks object_prototype [encode_all blank_frames] listening
  = (listening,
     [Listener 1 (js "endpoint") (js "x"); Listener 2 (js "endpoint") (js "x")],
     false)
  /\ on_chunks object_prototype [encode_all constructor_frames] listening
     = (Source OPEN (_listeners listening) None true
          (Some (Reader [] (js "constructor") (js "x"))), [], true)
  /\ on_chunks object_prototype (List.map encode constructor_frames) listening
     = (Source OPEN (_listeners listening) None true
          (Some (Reader [] (js "constructor") (js "y"))), [], true).
Proof. vm_compute. repeat split. Qed.

Lemma demo_facts :
  Forall well_formed demo_frames
  /\ Forall (fun f => object_prototype (fst (frame_event f)) = false) demo_frames
  /\ no_newline demo_partial
  /\ concat demo_chunks = encode_all demo_frames ++ demo_partial.
Proof.
  split; [|split; [|split]].
  - unfold demo_frames.
    apply List.Forall_cons; [|apply List.Forall_cons; [|apply List.Forall_nil]];
      (split; [|split]); cbn [fevent fdata];
      try exact I; try (apply no_newline_check; reflexivity);
      vm_compute; discriminate.
  - repeat constructor.
  - apply no_newline_check; reflexivity.
  - vm_compute; reflexivity.
Qed.

(** The amended C4 on two frames cut into five chunks, for an instance
    with two listeners for [endpoint] and one for [message]. *)
Lemma frames_any_chunking_witness :
  on_chunks object_prototype demo_chunks listening
  = (Source OPEN (_listeners listening) None true
       (Some (Reader demo_partial (js "message") [])),
     [ Listener 1 (js "endpoint") (js "/mcp-api/messages?sessionId=abc");
       Listener 2 (js "endpoint") (js "/mcp-api/messages?sessionId=abc");
       Listener 3 (js "message") (js "payload-2") ],
     false)
  /\ length (snd (feed initial demo_chunks)) = length demo_frames.
Proof.
  destruct demo_facts as (H1 & H2 & H3 & H4).
  destruct (frames_any_chunking object_prototype listening demo_frames demo_partial
              demo_chunks eq_refl H1 H2 H3 H4) as (A & _ & C).
  split; [exact A|exact C].
Defined.

(** C10 with a maximum of zero attempts. *)
Lemma no_attempts_returns_undefined_witness :
  0 <= 0
  /\ mcpToolCall parse (js "key-1") (js "get_ads") VNull 0
       (fun _ => (0, call_script call_text))
     = Report (Return VUndef) [] [] (js "key-1").
Proof.
  split; [discriminate|].
  apply (no_attempts_returns_undefined parse (js "key-1") (js "get_ads") VNull 0).
  discriminate.
Defined.



Lemma correlated_facts :
  disciplined parse78
    (new_session (js "key-1") (js "get_ads") VNull 60000 0) reused_answered
  = true
  /\ es (exec parse78 (new_session (js "key-1") (js "get_ads") VNull 60000 0)
           reused_ops) = true
  /\ parse78 frame7 = Some frame7_v
  /\ requests (exec parse78 (new_session (js "key-1") (js "get_ads") VNull 60000 0)
                 reused_ops) !! 2%nat
     = Some (Request 7 (js "third") 0 Armed Pending false)
  /\ ids (exec parse78 (new_session (js "key-1") (js "get_ads") VNull 60000 0)
            reused_answered) = [7; 8; 7].
Proof. vm_compute. repeat split. Qed.

(** Three requests within the discipline, the third under the id of the
    first, which timed out: the third is resolved by the frame that
    carries its id, although a frame with that id was dropped before. *)
Lemma correlator_exactly_once_witness :
  let s0 := new_session (js "key-1") (js "get_ads") VNull 60000 0 in
  let s := exec parse78 s0 reused_answered in
  disciplined parse78 s0 reused_answered = true
  /\ exists q', requests s !! 2%nat = Some q'
               /\ rq_promise q' = Fulfilled frame7_v /\ rq_timer q' = Cleared.
Proof.
  intros s0 s. destruct correlated_facts as (H1 & H2 & H3 & H4 & _).
  split; [exact H1|].
  destruct (correlator_exactly_once parse78 (js "key-1") (js "get_ads") VNull
              60000 0 reused_answered H1) as [A _].
  exact (A reused_ops 30800 frame7 [] frame7_v 7 2%nat
           (Request 7 (js "third") 0%nat Armed Pending false)
           eq_refl H2 H3 eq_refl H4 eq_refl eq_refl).
Defined.

(** C5 fails on the code, in a run of the polling loop itself.  The
    first initialize request is answered over the stream, with an error
    that makes the loop poll again, while its POST is still unanswered;
    the second initialize request takes the same id, 1; the POST of the
    first is then refused, and lines 129-133 delete the map entry under
    that id, which is the second request's.  The response to the second
    request arrives while that request waits, matches no entry and is
    dropped without a trace; the request ends by its timer, and the
    attempt with it. *)
Lemma overtaken_initialize_is_lost :
  let s5 := session1 (firstn 5 overtaken_script) in
  let s6 := session1 (firstn 6 overtaken_script) in
  requests (session1 (firstn 4 overtaken_script))
  = [ Request 1 (js "initialize") 0 Cleared (Fulfilled not_ready_v) false;
      Request 1 (js "initialize") 0 Armed Pending false ]
  /\ pending (session1 (firstn 4 overtaken_script)) !! 1 = Some 1%nat
  /\ pending s5 !! 1 = None
  /\ requests s5 !! 1%nat = Some (Request 1 (js "initialize") 0 Armed Pending false)
  /\ parse_more init_ok = Some init_ok_v
  /\ prop init_ok_v "id" = Some (VNum 1)
  /\ s6 = s5
  /\ requests (session1 overtaken_script) !! 1%nat
     = Some (Request 1 (js "initialize") 0 Armed Pending true)
  /\ result_of (session1 overtaken_script) = None
  /\ result_of (session1 overtaken_timeout)
     = Some (Rejected (js "Timeout waiting for initialize response")).
Proof. vm_compute. repeat split. Qed.

(** The same on the correlator alone: outside the discipline the map
    loses a request. *)
Lemma overtaken_request_is_lost :
  let s0 := new_session (js "key-1") (js "get_ads") VNull 60000 0 in
  let s := exec parse78 s0 overtaken_ops in
  disciplined parse78 s0 overtaken_ops = false
  /\ requests s !! 1%nat = Some (Request 7 (js "second") 0 Armed Pending false)
  /\ pending s !! 7 = None.
Proof. vm_compute. repeat split. Qed.

(** C2 as stated fails: the tool call is answered with a protocol
    error whose message mentions the stream, and the wrapper makes all
    three attempts, each ending with that protocol error. *)
Lemma protocol_error_is_retried :
  let rep := mcpToolCall parse (js "key-1") (js "get_ads") VNull 3
               (fun _ => (0, call_script call_err)) in
  List.map (fun a => result_of (ended a)) (attempts rep)
  = [ Some (Rejected (mcp_error sse_closed));
      Some (Rejected (mcp_error sse_closed));
      Some (Rejected (mcp_error sse_closed)) ]
  /\ mcp_error sse_closed = js "MCP error -32000: SSE stream closed"
  /\ delays rep = [3000; 6000].
Proof. vm_compute. repeat split. Qed.

Lemma sse_attempts :
  attempts (mcpToolCall parse (js "key-1") (js "get_ads") VNull 3
              (fun _ => (0, call_script call_err)))
  = [sse_attempt; sse_attempt; sse_attempt].
Proof. vm_compute. reflexivity. Qed.

Lemma sse_attempt_fails :
  result_of (ended sse_attempt)
  = Some (Rejected (js "MCP error -32000: SSE stream closed"))
  /\ isTransient (js "MCP error -32000: SSE stream closed") = true.
Proof. vm_compute. split; reflexivity. Qed.

(** C6 on that run: three attempts, waits of 3000 and 6000. *)
Lemma retry_schedule_witness :
  length (attempts (mcpToolCall parse (js "key-1") (js "get_ads") VNull 3
                      (fun _ => (0, call_script call_err)))) = 3%nat
  /\ delays (mcpToolCall parse (js "key-1") (js "get_ads") VNull 3
               (fun _ => (0, call_script call_err))) = [3000; 6000]
  /\ exists e, result (mcpToolCall parse (js "key-1") (js "get_ads") VNull 3
                         (fun _ => (0, call_script call_err))) = Throw e.
Proof.
  destruct (retry_schedule parse (js "key-1") (js "get_ads") VNull 3
              (fun _ => (0, call_script call_err))) as (_ & _ & _ & _ & _ & F).
  apply F; [reflexivity|]. intros a Ha. rewrite sse_attempts in Ha.
  exists (js "MCP error -32000: SSE stream closed").
  assert (a = sse_attempt) as ->.
  { rewrite !elem_of_cons in Ha. destruct Ha as [?|[?|[?|Ha]]]; auto.
    now apply elem_of_nil in Ha. }
  exact sse_attempt_fails.
Defined.

Lemma bad_key_facts :
  attempts (mcpToolCall parse (js "key-1") (js "get_ads") VNull 3
              (fun _ => (0, bad_key_script))) !! 0%nat = Some bad_key_attempt
  /\ result_of (ended bad_key_attempt) = Some (Rejected (mcp_error bad_key_error))
  /\ isTransient (mcp_error bad_key_error) = false.
Proof. vm_compute. repeat split. Qed.

(** The amended C2 on Scenario 4 of the specification: an initialize
    response with error -32000 "bad key" ends the call at once. *)
Lemma retry_by_message_witness :
  isTransient (mcp_error bad_key_error) = false
  /\ length (attempts (mcpToolCall parse (js "key-1") (js "get_ads") VNull 3
                         (fun _ => (0, bad_key_script)))) = 1%nat
  /\ result (mcpToolCall parse (js "key-1") (js "get_ads") VNull 3
               (fun _ => (0, bad_key_script)))
     = Throw (mcp_error bad_key_error).
Proof.
  destruct bad_key_facts as (H1 & H2 & H3). split; [exact H3|].
  destruct (retry_by_message parse (js "key-1") (js "get_ads") VNull 3
              (fun _ => (0, bad_key_script))) as (_ & B & _).
  exact (B 0%nat bad_key_attempt bad_key_error H1 H2 H3).
Defined.

(** C3 as stated fails: every poll is answered 400 within 50 ms; the
    attempt fails 22093 ms after the polling began, with the error of
    the last POST as it was, which says nothing of a transport that
    never became ready. *)
Lemma polling_fails_late_with_last_error :
  let s := session0 never_ready_script in
  result_of s = Some (Rejected (js "POST 400: No transport found for sessionId"))
  /\ includes (js "POST 400: No transport found for sessionId")
       (js "never became ready") = false
  /\ start <$> tasks s !! 0%nat = Some 1000
  /\ settled_at s = Some 23093
  /\ 23093 - 1000 > 20000.
Proof. vm_compute. repeat split. Qed.

Lemma never_ready_facts :
  tasks (run parse (new_session (js "key-1") (js "get_ads") VNull 60000 0)
           never_ready_script) !! 0%nat = Some never_ready_task
  /\ length (sleeps 0 (run parse (new_session (js "key-1") (js "get_ads") VNull
                                    60000 0) never_ready_script)) = 10%nat.
Proof. vm_compute. repeat split. Qed.

(** The amended C3 on that run: ten waits, the first ten of the
    backoff sequence, each started before the deadline. *)
Lemma polling_backoff_witness :
  let s := run parse (new_session (js "key-1") (js "get_ads") VNull 60000 0)
             never_ready_script in
  tasks s !! 0%nat = Some never_ready_task
  /\ List.map snd (sleeps 0 s) = List.map backoff (seq 0 10)
  /\ Forall (fun p => fst p - 1000 < 20000) (sleeps 0 s).
Proof.
  intros s. destruct never_ready_facts as [H1 H2]. fold s in H1, H2.
  split; [exact H1|].
  destruct (polling_backoff parse (js "key-1") (js "get_ads") VNull 60000 0
              never_ready_script) as [A _].
  fold s in A. rewrite <- H2. exact (A 0%nat never_ready_task H1).
Defined.



(** C9 as stated fails: the credential is replaced while the attempt
    waits before its first request; the attempt, which connected with
    the old value, sends its initialize request with the new one, and
    what it sends depends on the value installed. *)
Lemma inflight_attempt_sends_new_credential :
  omap authorization_of
    (List.map snd (log (session0 (reconfigured_script (js "key-2")))))
  = [bearer (js "key-1"); bearer (js "key-2")]
  /\ log (session0 (reconfigured_script (js "key-2")))
     <> log (session0 (reconfigured_script (js "key-3"))).
Proof. split; [vm_compute; reflexivity|]. vm_compute. discriminate. Qed.

(** So does a connection made anew within the attempt: it carries the
    value installed in the meantime. *)
Lemma reconnection_sends_new_credential :
  List.filter (fun e => match snd e with EConnect _ => true | _ => false end)
    (log (session0 (reconnected_script (js "key-2"))))
  = [(0, EConnect (bearer (js "key-1"))); (3200, EConnect (bearer (js "key-2")))].
Proof. vm_compute. reflexivity. Qed.

Lemma dropped_facts :
  attempts (mcpToolCall parse (js "key-1") (js "get_ads") VNull 3
              dropped_then_bad_key) !! 0%nat = Some dropped_attempt
  /\ attempts (mcpToolCall parse (js "key-1") (js "get_ads") VNull 3
                 dropped_then_bad_key) !! 1%nat = Some second_attempt
  /\ API_KEY (ended dropped_attempt) = js "key-2".
Proof. vm_compute. repeat split. Qed.

(** The amended C9 on a retry: the credential is replaced during the
    first attempt, which then fails; the second connects with the new
    value. *)
Lemma credential_read_at_each_request_witness :
  attempts (mcpToolCall parse (js "key-1") (js "get_ads") VNull 3
              dropped_then_bad_key) !! 1%nat = Some second_attempt
  /\ began second_attempt
     = new_session (js "key-2") (js "get_ads") VNull 60000 5000.
Proof.
  destruct dropped_facts as (H0 & H1 & Hk). split; [exact H1|].
  destruct (credential_read_at_each_request parse) as (_ & _ & _ & C).
  rewrite (C (js "key-1") (js "get_ads") VNull 3 dropped_then_bad_key 0%nat
             dropped_attempt second_attempt H0 H1).
  rewrite Hk. reflexivity.
Defined.

End Examples.

(** * Properties of the rest of the code *)

(** ** [trim] *)

Module JsStringProps.
Import JsStringSpec.

Lemma trimStart_snoc a c :
  is_ws c = false -> trimStart (a ++ [c]) = trimStart a ++ [c].
Proof.
  intros Hc. induction a as [|d a IH]; cbn [app trimStart].
  - now rewrite Hc.
  - destruct (is_ws d); [exact IH|reflexivity].
Qed.

Lemma trimEnd_cons c x : is_ws c = false -> trimEnd (c :: x) = c :: trimEnd x.
Proof.
  intros Hc. unfold trimEnd. cbn [rev].
  rewrite trimStart_snoc by exact Hc. now rewrite rev_app_distr.
Qed.

Lemma trimStart_head s :
  trimStart s = [] \/ exists c x, trimStart s = c :: x /\ is_ws c = false.
Proof.
  induction s as [|c s IH]; cbn [trimStart]; [now left|].
  destruct (is_ws c) eqn:E; [exact IH|]. right. eauto.
Qed.

Lemma trimStart_fixed c x : is_ws c = false -> trimStart (c :: x) = c :: x.
Proof. intros Hc. cbn [trimStart]. now rewrite Hc. Qed.

Lemma trimEnd_idem s : trimEnd (trimEnd s) = trimEnd s.
Proof.
  unfold trimEnd. rewrite rev_involutive.
  destruct (trimStart_head (rev s)) as [->|(c & x & -> & Hc)]; [reflexivity|].
  now rewrite trimStart_fixed.
Qed.

Lemma trim_idem s : trim (trim s) = trim s.
Proof.
  unfold trim.
  destruct (trimStart_head s) as [->|(c & x & -> & Hc)]; [reflexivity|].
  rewrite trimEnd_cons by exact Hc. rewrite trimStart_fixed by exact Hc.
  rewrite trimEnd_cons by exact Hc. now rewrite trimEnd_idem.
Qed.

Lemma In_trimStart x s : In x (trimStart s) -> In x s.
Proof.
  induction s as [|c s IH]; cbn [trimStart]; [auto|].
  destruct (is_ws c); [intros H; right; auto|auto].
Qed.

Lemma In_trim x s : In x (trim s) -> In x s.
Proof.
  unfold trim, trimEnd. intros H. apply In_trimStart.
  apply in_rev in H. apply In_trimStart in H. now apply in_rev.
Qed.

End JsStringProps.

(** ** The reader on arbitrary input *)

Module EventStreamMore.
Import EventStream JsStringSpec JsStringProps EventStreamText EventStreamProps.

Lemma clean_on_line st line : clean st -> clean (on_line st line).
Proof.
  destruct st as [[ev dat] out]. intros (He & Hd & Ho). unfold on_line.
  destruct (startsWith line (js "event:")).
  { split; [apply trim_idem|]. split; assumption. }
  destruct (startsWith line (js "data:")).
  { split; [exact He|]. split; [apply trim_idem|assumption]. }
  destruct line; [|split; [|split]; assumption].
  destruct dat as [|c dat]; cbn [truthy_str]; [split; [|split]; assumption|].
  split; [reflexivity|]. split; [reflexivity|].
  apply Forall_app. split; [exact Ho|].
  constructor; [|constructor]. cbn. split; [exact He|]. split; [exact Hd|discriminate].
Qed.

Lemma clean_fold lines st : clean st -> clean (fold_left on_line lines st).
Proof.
  revert st. induction lines as [|l lines IH]; intros st H; [exact H|].
  cbn [fold_left]. apply IH. now apply clean_on_line.
Qed.

(** Without a blank line nothing is emitted. *)
Lemma fold_no_blank lines ev dat :
  Forall (fun l => l <> []) lines ->
  snd (fold_left on_line lines (ev, dat, [])) = [].
Proof.
  revert ev dat. induction lines as [|l lines IH]; intros ev dat H; [reflexivity|].
  inversion H as [|? ? Hl Hr]; subst. cbn [fold_left]. unfold on_line at 2.
  destruct (startsWith l (js "event:")); [now apply IH|].
  destruct (startsWith l (js "data:")); [now apply IH|].
  destruct l; [congruence|]. now apply IH.
Qed.

Lemma split_nl_crlf lines partial :
  Forall no_newline lines -> no_newline partial ->
  split_nl (crlf_text lines ++ partial)
  = List.map (fun l => l ++ [CR]) lines ++ [partial].
Proof.
  intros Hl Hp. induction Hl as [|l lines Hl _ IH].
  - now apply split_nl_no_newline.
  - assert (crlf_text (l :: lines) ++ partial
            = (l ++ [CR]) ++ NL :: (crlf_text lines ++ partial)) as ->.
    { unfold crlf_text. cbn [List.map concat]. now rewrite <- !List.app_assoc. }
    rewrite split_nl_line, IH; [reflexivity|].
    apply no_newline_app; [exact Hl|]. intros [E|[]]. discriminate E.
Qed.

(** The text is its complete lines, each with its newline, and the
    unfinished line. *)
Lemma split_nl_join s :
  s = concat (List.map (fun l => l ++ [NL]) (removelast (split_nl s)))
      ++ List.last (split_nl s) [].
Proof.
  induction s as [|c s IH]; [reflexivity|]. cbn [split_nl].
  pose proof (split_nl_nonempty s) as Hn.
  destruct (split_nl s) as [|l ls] eqn:Es; [congruence|].
  destruct (N.eqb_spec c NL) as [->|Hne].
  - change (removelast ([] :: l :: ls)) with ([] :: removelast (l :: ls)).
    change (List.last ([] :: l :: ls) []) with (List.last (l :: ls) []).
    cbn [List.map concat app]. now rewrite <- IH.
  - destruct ls as [|l' ls].
    + cbn in IH |- *. now rewrite IH.
    + change (removelast ((c :: l) :: l' :: ls))
        with ((c :: l) :: removelast (l' :: ls)).
      change (removelast (l :: l' :: ls)) with (l :: removelast (l' :: ls)) in IH.
      change (List.last ((c :: l) :: l' :: ls) []) with (List.last (l' :: ls) []).
      change (List.last (l :: l' :: ls) []) with (List.last (l' :: ls) []) in IH.
      cbn [List.map concat app] in IH |- *. now rewrite IH at 1.
Qed.

Lemma concat_lines_end (ls : list jstring) :
  concat (List.map (fun l => l ++ [NL]) ls) = []
  \/ exists c, concat (List.map (fun l => l ++ [NL]) ls) = c ++ [NL].
Proof.
  destruct ls as [|l ls] using rev_ind; [now left|]. right.
  rewrite List.map_app, concat_app. cbn [List.map concat].
  rewrite app_nil_r, List.app_assoc. eauto.
Qed.

(** X2.  After any chunks, the buffer is the text after the last
    newline received (all of it when none was): the text received is
    what was consumed, which is empty or ends with a newline, followed
    by the buffer, which holds no newline. *)
Theorem buffer_is_the_unfinished_line (chunks : list jstring) :
  let b := buffer (fst (feed initial chunks)) in
  no_newline b
  /\ exists consumed,
       concat chunks = consumed ++ b
       /\ (consumed = [] \/ exists c, consumed = c ++ [NL]).
Proof.
  intros b. unfold b. rewrite feed_concat by (intros []).
  split; [apply on_data_buffer|].
  unfold on_data. cbn [buffer initial app].
  destruct (fold_left on_line _ _) as [[ev dat] out]. cbn [fst buffer].
  eexists. split; [apply split_nl_join|apply concat_lines_end].
Qed.

(** X3.  Whatever the input, an emitted event has a payload that is not
    empty, and its name and payload have no white space at either end. *)
Theorem emitted_events_are_trimmed (chunks : list jstring) (name data : jstring) :
  In (name, data) (snd (feed initial chunks)) ->
  data <> [] /\ trimmed data /\ trimmed name.
Proof.
  rewrite feed_concat by (intros []). unfold on_data.
  cbn [buffer currentEvent currentData initial app].
  pose proof (clean_fold (removelast (split_nl (concat chunks)))
                (js "message", [], [])) as H.
  destruct (fold_left on_line _ _) as [[ev dat] out]. cbn [snd].
  destruct H as (_ & _ & Ho).
  { split; [reflexivity|]. split; [reflexivity|constructor]. }
  intros Hin. cbn [snd] in Ho. rewrite List.Forall_forall in Ho.
  destruct (Ho _ Hin) as (A & B & C). auto.
Qed.

(** X4.  On a stream whose lines end in CR LF the reader never emits
    anything: no line is empty, each holds its CR at least. *)
Theorem crlf_stream_emits_nothing (lines : list jstring) (partial : jstring)
    (chunks : list jstring) :
  Forall no_newline lines -> no_newline partial ->
  concat chunks = crlf_text lines ++ partial ->
  snd (feed initial chunks) = []
  /\ buffer (fst (feed initial chunks)) = partial.
Proof.
  intros Hl Hp E. rewrite feed_concat by (intros []). rewrite E.
  unfold on_data. cbn [buffer currentEvent currentData initial app].
  rewrite split_nl_crlf by assumption.
  rewrite removelast_last, last_last.
  pose proof (fold_no_blank (List.map (fun l => l ++ [CR]) lines)
                (js "message") []) as H.
  destruct (fold_left on_line _ _) as [[ev dat] out]. cbn [snd fst buffer].
  split; [|reflexivity]. apply H.
  apply Forall_map, Forall_forall. intros l _. now destruct l.
Qed.

Lemma on_data_line ev dat line rest :
  no_newline line ->
  on_data (Reader [] ev dat) (line ++ [NL] ++ rest)
  = let '(ev1, dat1, out1) := on_line (ev, dat, []) line in
    let '(r2, out2) := on_data (Reader [] ev1 dat1) rest in
    (r2, out1 ++ out2).
Proof.
  intros Hl. unfold on_data. cbn [buffer currentEvent currentData app].
  change (line ++ NL :: rest) with (line ++ NL :: rest).
  rewrite split_nl_line by exact Hl.
  pose proof (split_nl_nonempty rest) as Hn.
  destruct (split_nl rest) as [|l ls] eqn:Es; [congruence|].
  change (removelast (line :: l :: ls)) with (line :: removelast (l :: ls)).
  change (List.last (line :: l :: ls) []) with (List.last (l :: ls) []).
  cbn [fold_left]. destruct (on_line (ev, dat, []) line) as [[ev1 dat1] out1].
  rewrite fold_on_line_out.
  destruct (fold_left on_line (removelast (l :: ls)) (ev1, dat1, []))
    as [[ev2 dat2] out2]. reflexivity.
Qed.

(** X23.  What the reader passes over: of two [data:] lines in a row
    only the second counts (the payloads are not joined), and a line
    that is not empty and starts with neither [event:] nor [data:], a
    comment or an [id:] line for one, changes nothing; this whatever
    follows in the stream. *)
Theorem reader_passes_over (ev dat a b line rest : jstring) :
  no_newline a -> no_newline b -> no_newline line ->
  line <> [] ->
  startsWith line (js "event:") = false -> startsWith line (js "data:") = false ->
  on_data (Reader [] ev dat)
    ((js "data:" ++ a) ++ [NL] ++ (js "data:" ++ b) ++ [NL] ++ rest)
  = on_data (Reader [] ev dat) ((js "data:" ++ b) ++ [NL] ++ rest)
  /\ on_data (Reader [] ev dat) (line ++ [NL] ++ rest)
     = on_data (Reader [] ev dat) rest.
Proof.
  intros Ha Hb Hl Hne He Hd.
  assert (forall x, no_newline x -> no_newline (js "data:" ++ x)) as Hdn
    by (intros x Hx; apply no_newline_app; [apply no_newline_data_prefix|exact Hx]).
  split.
  - rewrite (on_data_line ev dat (js "data:" ++ a)) by auto.
    rewrite on_line_data. cbn [fst snd].
    rewrite (on_data_line ev (trim a) (js "data:" ++ b)) by auto.
    rewrite (on_data_line ev dat (js "data:" ++ b)) by auto.
    rewrite !on_line_data. cbn [fst snd app].
    now destruct (on_data (Reader [] ev (trim b)) rest).
  - rewrite on_data_line by exact Hl. unfold on_line. rewrite He, Hd.
    destruct line; [congruence|]. cbn [app].
    now destruct (on_data (Reader [] ev dat) rest).
Qed.

End EventStreamMore.

(** ** What one turn of the event loop leaves alone *)

Module SessionFrameProps.
Import Session Retry SettleProps SessionFrame.

Lemma post_from_keeps s0 s e : keeps s0 s -> post_from s e -> post_from s0 e.
Proof.
  intros K. unfold post_from. destruct (snd e); auto.
  intros (-> & -> & Ht). rewrite (k_url _ _ K), (k_key _ _ K).
  split; [reflexivity|]. split; [reflexivity|].
  pose proof (k_tasks _ _ K) as Hl. destruct (tasks s0), (tasks s); try discriminate; auto.
Qed.

Lemma keeps_refl s : keeps s s.
Proof.
  constructor; auto. exists []. split; [now rewrite app_nil_r|constructor].
Qed.

Lemma keeps_trans s1 s2 s3 : keeps s1 s2 -> keeps s2 s3 -> keeps s1 s3.
Proof.
  intros A B. pose proof (k_tasks _ _ A) as Hl.
  constructor.
  - now rewrite (k_name _ _ B), (k_name _ _ A).
  - now rewrite (k_args _ _ B), (k_args _ _ A).
  - now rewrite (k_key _ _ B), (k_key _ _ A).
  - now rewrite (k_url _ _ B), (k_url _ _ A).
  - now rewrite (k_tasks _ _ B).
  - pose proof (k_reqs _ _ A). pose proof (k_reqs _ _ B). lia.
  - intros H. now apply (k_phase _ _ B), (k_phase _ _ A).
  - intros H. pose proof (k_idle _ _ A H) as P1.
    assert (tasks s2 = []) as H2 by (rewrite H in Hl; now destruct (tasks s2)).
    pose proof (k_idle _ _ B H2) as P2. congruence.
  - intros H. now apply (k_settled _ _ B), (k_settled _ _ A).
  - destruct (k_log _ _ A) as (n1 & E1 & F1), (k_log _ _ B) as (n2 & E2 & F2).
    exists (n1 ++ n2). split; [now rewrite E2, E1, List.app_assoc|].
    apply Forall_app. split; [exact F1|].
    eapply List.Forall_impl; [|exact F2]. intros e. now apply post_from_keeps.
Qed.

Section From.
(** The state when the handler starts. *)
Variable s0 : session.

Local Abbreviation K := (keeps s0).

Lemma nonempty_K s : K s -> tasks s <> [] -> tasks s0 <> [].
Proof.
  intros H Hn. pose proof (k_tasks _ _ H) as Hl.
  destruct (tasks s0), (tasks s); try discriminate; auto.
Qed.

Lemma K_ext s s' :
  toolName s' = toolName s -> toolArgs s' = toolArgs s -> API_KEY s' = API_KEY s ->
  msgUrl s' = msgUrl s -> length (tasks s') = length (tasks s) ->
  (length (requests s) <= length (requests s'))%nat ->
  phase s' = phase s \/ (tasks s0 <> [] /\ phase s' <> connecting) ->
  (settled s = true -> settled s' = true) ->
  (exists news, log s' = log s ++ news /\ Forall (post_from s) news) ->
  K s -> K s'.
Proof.
  intros E1 E2 E3 E4 E5 E6 E7 E8 E9 H. apply (keeps_trans _ s); [exact H|].
  constructor; auto.
  - destruct E7 as [->|[_ ?]]; auto.
  - intros Hs. destruct E7 as [?|[Hn _]]; [assumption|].
    exfalso. pose proof (k_tasks _ _ H) as Hl. rewrite Hs in Hl.
    destruct (tasks s0); [congruence|discriminate].
Qed.

Ltac same_tac :=
  intros; eapply K_ext; try eassumption; try reflexivity; auto;
  try (exists []; split; [now rewrite app_nil_r|constructor]).

Lemma K_emit now e s : is_post e = false -> K s -> K (emit now e s).
Proof.
  intros He. same_tac. exists [(now, e)]. split; [reflexivity|].
  constructor; [|constructor]. unfold post_from. cbn. now destruct e.
Qed.

Lemma K_post now id m s :
  tasks s0 <> [] -> K s ->
  K (emit now (EPost (msgUrl s) (bearer (API_KEY s)) id m) s).
Proof.
  intros Hn H. eapply K_ext; try exact H; try reflexivity; auto.
  exists [(now, EPost (msgUrl s) (bearer (API_KEY s)) id m)].
  split; [reflexivity|]. constructor; [|constructor]. unfold post_from. cbn.
  split; [reflexivity|]. split; [reflexivity|].
  pose proof (k_tasks _ _ H) as Hl. destruct (tasks s0), (tasks s); try discriminate; auto.
Qed.

Lemma K_set_guard b e t s :
  (settled s = true -> b = true) -> K s -> K (set_guard b e t s).
Proof. same_tac. Qed.
Lemma K_set_phase p s : tasks s0 <> [] -> p <> connecting -> K s -> K (set_phase p s).
Proof. same_tac. Qed.
Lemma K_set_pending m s : K s -> K (set_pending m s).
Proof. same_tac. Qed.
Lemma K_set_task t k s : K s -> K (set_task t k s).
Proof. same_tac. cbn. now rewrite length_insert. Qed.
Lemma K_set_request r q s : K s -> K (set_request r q s).
Proof. same_tac. cbn. now rewrite length_insert. Qed.

Lemma K_settle now o s : K s -> K (settle now o s).
Proof.
  intros H. unfold settle. destruct (settled s) eqn:Hs; [exact H|].
  apply K_emit; [reflexivity|].
  assert (K (set_guard true (es s) (timer s) s)) as H1
    by (apply K_set_guard; auto).
  destruct (es s) eqn:He; cbn [es set_guard].
  - assert (K (set_guard true false (timer s)
                 (emit now EClose (set_guard true true (timer s) s)))) as H2.
    { apply K_set_guard; [auto|]. apply K_emit; [reflexivity|exact H1]. }
    cbn [timer set_guard emit settled es].
    destruct (timer s); [|exact H2].
    apply K_set_guard; [auto|]. apply K_emit; [reflexivity|exact H2].
  - cbn [timer set_guard emit settled es].
    destruct (timer s); [|exact H1].
    apply K_set_guard; [auto|]. apply K_emit; [reflexivity|exact H1].
Qed.

Lemma K_set_requests_snoc q s :
  tasks s0 <> [] -> K s -> K (set_requests (requests s ++ [q]) s).
Proof.
  intros Hn. same_tac. cbn. rewrite length_app. lia.
Qed.

Lemma K_postRpc now t id m s :
  tasks s0 <> [] -> K s -> K (snd (postRpc now t id m s)).
Proof.
  intros Hn H. unfold postRpc. cbn [snd].
  apply K_post; [exact Hn|]. apply K_set_pending.
  now apply K_set_requests_snoc.
Qed.

Lemma K_notify now m s : tasks s0 <> [] -> K s -> K (notify now m s).
Proof. intros Hn H. unfold notify. now apply K_post. Qed.

Create HintDb keeps.
#[local] Hint Extern 1 (is_post _ = false) => reflexivity : keeps.
#[local] Hint Extern 1 (_ <> connecting) => discriminate : keeps.
#[local] Hint Resolve K_emit K_set_phase K_set_pending K_set_task K_set_request
  K_settle K_notify : keeps.

Ltac K_tac :=
  repeat first
    [ progress eauto with keeps
    | match goal with
      | |- keeps _ (let '(_, _) := postRpc ?a ?b ?c ?d ?e in _) =>
          let Hp := fresh "Hp" in
          pose proof (K_postRpc a b c d e) as Hp;
          destruct (postRpc a b c d e); cbn [snd] in Hp
      | |- keeps _ (match ?x with _ => _ end) => destruct x eqn:?
      | |- keeps _ (emit _ _ _) => apply K_emit; [reflexivity|]
      end ].

Lemma K_clear_rpc_timer r s : K s -> K (clear_rpc_timer r s).
Proof. intros H. unfold clear_rpc_timer. K_tac. Qed.
Lemma K_set_promise r p s : K s -> K (set_promise r p s).
Proof. intros H. unfold set_promise. K_tac. Qed.
Lemma K_mark_fetch_done r s : K s -> K (mark_fetch_done r s).
Proof. intros H. unfold mark_fetch_done. K_tac. Qed.
Lemma K_finish_thrown now t k e s : K s -> K (finish_thrown now t k e s).
Proof. intros H. unfold finish_thrown. K_tac. Qed.
#[local] Hint Resolve K_clear_rpc_timer K_set_promise K_mark_fetch_done
  K_finish_thrown : keeps.

Lemma K_loop_head now t k s : K s -> K (loop_head now t k s).
Proof. intros H. unfold loop_head. K_tac. Qed.
#[local] Hint Resolve K_loop_head : keeps.

Lemma K_on_catch now t k e s : K s -> K (on_catch now t k e s).
Proof. intros H. unfold on_catch. K_tac. Qed.
#[local] Hint Resolve K_on_catch : keeps.

Variable JSON_parse : jstring -> option value.

Lemma K_after_initialize now t k s :
  tasks s0 <> [] -> K s -> K (after_initialize now t k s).
Proof. intros Hn H. unfold after_initialize. K_tac. Qed.
Lemma K_start_call now t k s : tasks s0 <> [] -> K s -> K (start_call now t k s).
Proof. intros Hn H. unfold start_call. K_tac. Qed.
Lemma K_after_call now t k v s :
  tasks s0 <> [] -> K s -> K (after_call JSON_parse now t k v s).
Proof. intros Hn H. unfold after_call. K_tac. Qed.
#[local] Hint Resolve K_after_initialize K_start_call K_after_call : keeps.

Lemma K_resume now r res s : K s -> K (resume JSON_parse now r res s).
Proof.
  intros H. unfold resume.
  destruct (requests s !! r) as [q|]; [|exact H].
  destruct (tasks s !! rq_owner q) as [k|] eqn:Hk; [|exact H].
  assert (tasks s0 <> []) as Hn.
  { apply (nonempty_K s H). intros E. now rewrite E in Hk. }
  K_tac.
Qed.
#[local] Hint Resolve K_resume : keeps.

Lemma K_settle_request now r res s :
  K s -> K (settle_request JSON_parse now r res s).
Proof. intros H. unfold settle_request. K_tac. Qed.
#[local] Hint Resolve K_settle_request : keeps.

Lemma K_on_message now data s : K s -> K (on_message JSON_parse now data s).
Proof. intros H. unfold on_message. K_tac. Qed.

Lemma K_on_error now m s : K s -> K (on_error now m s).
Proof. intros H. unfold on_error. K_tac. Qed.

Lemma K_on_wake now t s : K s -> K (on_wake now t s).
Proof.
  intros H. unfold on_wake.
  destruct (tasks s !! t) as [k|] eqn:Hk; [|exact H].
  assert (tasks s0 <> []) as Hn.
  { apply (nonempty_K s H). intros E. now rewrite E in Hk. }
  K_tac.
Qed.

Lemma K_on_rpc_timer now r s : K s -> K (on_rpc_timer JSON_parse now r s).
Proof. intros H. unfold on_rpc_timer. K_tac. Qed.

Lemma K_fetch_rejects now r q e s :
  K s -> K (fetch_rejects JSON_parse now r q e s).
Proof. intros H. unfold fetch_rejects. K_tac. Qed.
#[local] Hint Resolve K_fetch_rejects : keeps.

Lemma K_on_fetch_status now r st b s :
  K s -> K (on_fetch_status JSON_parse now r st b s).
Proof. intros H. unfold on_fetch_status. K_tac. Qed.

Lemma K_on_fetch_failed now r e s :
  K s -> K (on_fetch_failed JSON_parse now r e s).
Proof. intros H. unfold on_fetch_failed. K_tac. Qed.

End From.

Section Steps.
Variable JSON_parse : jstring -> option value.

(** Handling any event but [endpoint] on an open stream and but a
    reconfiguration. *)
Lemma keeps_step s now k :
  (forall d, k = SseEndpoint d -> es s = false) ->
  (forall apiKey, k <> Reconfigure apiKey) ->
  keeps s (step JSON_parse s (now, k)).
Proof.
  intros He Hk. pose proof (keeps_refl s) as H.
  destruct k as [d|d|m| |t|r|r st b|r e|key|]; cbn [step].
  - rewrite (He d eq_refl). exact H.
  - destruct (es s); [now apply K_on_message|exact H].
  - destruct (es s); [now apply K_on_error|exact H].
  - destruct (timer s); [now apply K_settle|exact H].
  - now apply K_on_wake.
  - now apply K_on_rpc_timer.
  - now apply K_on_fetch_status.
  - now apply K_on_fetch_failed.
  - now destruct (Hk key).
  - destruct (es s); [|exact H]. unfold on_reconnect. now apply K_emit.
Qed.

Lemma quiet_refl s : quiet s s.
Proof. exists []. split; [now rewrite app_nil_r|constructor]. Qed.

Lemma quiet_trans s1 s2 s3 : quiet s1 s2 -> quiet s2 s3 -> quiet s1 s3.
Proof.
  intros (n1 & E1 & F1) (n2 & E2 & F2). exists (n1 ++ n2).
  split; [now rewrite E2, E1, List.app_assoc|]. apply Forall_app. auto.
Qed.

Lemma quiet_emit now e s : is_post e = false -> quiet s (emit now e s).
Proof. intros H. exists [(now, e)]. split; [reflexivity|]. repeat constructor. exact H. Qed.

Lemma quiet_settle now o s : quiet s (settle now o s).
Proof.
  unfold settle. destruct (settled s); [apply quiet_refl|].
  destruct (es s) eqn:He; cbn [set_guard es timer emit settled];
    destruct (timer s) eqn:Ht; unfold quiet, emit, set_guard; cbn [log];
    rewrite <- ?List.app_assoc; eexists; (split; [reflexivity|]);
    repeat constructor.
Qed.

Lemma quiet_loop_head now t k s : quiet s (loop_head now t k s).
Proof.
  unfold loop_head, finish_thrown. destruct (_ <? _).
  - now apply (quiet_emit now (ESleep t (delay k)) s).
  - apply (quiet_trans _ (set_task t (with_pc k (Thrown
             match lastErr k with
             | Some e => e
             | None => js "Transport never became ready"
             end)) s)); [|apply quiet_settle].
    exists []. split; [symmetry; apply app_nil_r|constructor].
Qed.

(** The [endpoint] listener: the URL is replaced, a run of
    [doInitialize] is added, and nothing is sent yet. *)
Lemma endpoint_step s now d :
  let s' := on_endpoint now d s in
  msgUrl s' = GOMARBLE_ORIGIN ++ d
  /\ length (tasks s') = S (length (tasks s))
  /\ phase s' <> connecting
  /\ toolName s' = toolName s /\ API_KEY s' = API_KEY s
  /\ (length (requests s) <= length (requests s'))%nat
  /\ (settled s = true -> settled s' = true)
  /\ quiet s s'.
Proof.
  intros s'. unfold s', on_endpoint.
  set (s1 := set_tasks _ _).
  pose proof (K_loop_head s1 now (length (tasks (set_phase initializing
                (set_msgUrl (GOMARBLE_ORIGIN ++ d) s))))
                (Task now 500 None Sleeping) s1 (keeps_refl s1)) as K.
  pose proof (quiet_loop_head now (length (tasks (set_phase initializing
                (set_msgUrl (GOMARBLE_ORIGIN ++ d) s))))
                (Task now 500 None Sleeping) s1) as Q.
  destruct K as [K1 K2 K3 K4 K5 K6 K7 K8 K9 _].
  split; [exact K4|]. split.
  { rewrite K5. unfold s1. cbn. rewrite length_app. cbn. lia. }
  split; [apply K7; discriminate|]. split; [exact K1|]. split; [exact K3|].
  split; [exact K6|]. split; [exact K9|exact Q].
Qed.

Lemma reconfigure_step s key :
  let s' := on_reconfigure key s in
  log s' = log s /\ tasks s' = tasks s /\ msgUrl s' = msgUrl s
  /\ phase s' = phase s /\ settled s' = settled s.
Proof. unfold on_reconfigure. destruct (truthy_str key); repeat split. Qed.

Ltac keeps_of s now K :=
  match goal with
  | |- context [step ?P s (now, ?k)] =>
      assert (keeps s (step P s (now, k))) as K
        by (apply keeps_step; intros; discriminate)
  end.

(** Every turn of the event loop only adds to the log. *)
Lemma log_grows_step s ev :
  exists news, log (step JSON_parse s ev) = log s ++ news.
Proof.
  destruct ev as [now k].
  destruct k as [d|d|m| |t|r|r st b|r e|key|].
  2-8,10: keeps_of s now K; destruct K as [_ _ _ _ _ _ _ _ _ (news & E & _)]; eauto.
  - cbn [step]. destruct (es s); [|exists []; now rewrite app_nil_r].
    destruct (endpoint_step s now d) as (_ & _ & _ & _ & _ & _ & _ & news & E & _).
    eauto.
  - cbn [step]. destruct (reconfigure_step s key) as (E & _).
    exists []. now rewrite app_nil_r.
Qed.

Lemma log_grows_run evs s :
  exists news, log (run JSON_parse s evs) = log s ++ news.
Proof.
  revert s. induction evs as [|ev evs IH]; intros s.
  - exists []. now rewrite app_nil_r.
  - cbn [run fold_left]. destruct (log_grows_step s ev) as (n1 & E1).
    destruct (IH (step JSON_parse s ev)) as (n2 & E2). unfold run in E2.
    exists (n1 ++ n2). now rewrite E2, E1, List.app_assoc.
Qed.

Lemma run_app s a b :
  run JSON_parse s (a ++ b) = run JSON_parse (run JSON_parse s a) b.
Proof. apply fold_left_app. Qed.

Lemma announced_app a b : announced (a ++ b) = announced a ++ announced b.
Proof. unfold announced. apply omap_app. Qed.

Lemma to_announced_app pre more e :
  to_announced pre e -> to_announced (pre ++ more) e.
Proof.
  unfold to_announced. destruct (snd e); auto. intros (d & Hd & ->).
  exists d. split; [|reflexivity]. rewrite announced_app. apply in_or_app. now left.
Qed.

Lemma url_inv_step s pre ev :
  url_inv s pre -> url_inv (step JSON_parse s ev) (pre ++ [ev]).
Proof.
  intros [Hl Hu]. destruct ev as [now k].
  assert (Forall (to_announced (pre ++ [(now, k)])) (log s)) as Hl'.
  { eapply List.Forall_impl; [|exact Hl]. intros e. apply to_announced_app. }
  assert (tasks s <> [] ->
          exists d, In d (announced (pre ++ [(now, k)]))
                    /\ msgUrl s = GOMARBLE_ORIGIN ++ d) as Hu'.
  { intros Hn. destruct (Hu Hn) as (d & Hd & E). exists d. split; [|exact E].
    rewrite announced_app. apply in_or_app. now left. }
  assert (forall s', keeps s s' -> url_inv s' (pre ++ [(now, k)])) as Hkeep.
  { intros s' K. destruct K as [_ _ _ K4 K5 _ _ _ _ (news & E & F)]. split.
    - rewrite E. apply Forall_app. split; [exact Hl'|].
      eapply List.Forall_impl; [|exact F]. intros e. unfold post_from, to_announced.
      destruct (snd e); auto. intros (-> & _ & Hn). now apply Hu'.
    - intros Hn. rewrite K4. apply Hu'. intros E0. rewrite E0 in K5.
      destruct (tasks s'); [congruence|discriminate]. }
  destruct k as [d|d|m| |t|r|r st b|r e|key|].
  2-8,10: apply Hkeep; apply keeps_step; intros; discriminate.
  - cbn [step]. destruct (es s) eqn:He.
    + destruct (endpoint_step s now d) as (U & _ & _ & _ & _ & _ & _ & news & E & F).
      split.
      * rewrite E. apply Forall_app. split; [exact Hl'|].
        eapply List.Forall_impl; [|exact F]. intros e. unfold to_announced.
        destruct (snd e); auto. discriminate.
      * intros _. exists d. split; [|exact U].
        rewrite announced_app. apply in_or_app. right. now left.
    + split; assumption.
  - cbn [step]. destruct (reconfigure_step s key) as (E1 & E2 & E3 & _).
    split; [now rewrite E1|]. rewrite E2, E3. exact Hu'.
Qed.

Lemma url_inv_run evs s pre :
  url_inv s pre -> url_inv (run JSON_parse s evs) (pre ++ evs).
Proof.
  revert s pre. induction evs as [|ev evs IH]; intros s pre H.
  - now rewrite app_nil_r.
  - cbn [run fold_left].
    replace (pre ++ ev :: evs) with ((pre ++ [ev]) ++ evs)
      by (now rewrite <- List.app_assoc).
    apply IH. now apply url_inv_step.
Qed.

(** Once [endpoint] was handled the phase is never [connecting] again,
    and until then it is. *)
Lemma phase_step s ev :
  phase s <> connecting -> phase (step JSON_parse s ev) <> connecting.
Proof.
  intros H. destruct ev as [now k].
  destruct k as [d|d|m| |t|r|r st b|r e|key|].
  2-8,10: keeps_of s now K; now apply (k_phase _ _ K).
  - cbn [step]. destruct (es s); [|exact H].
    now destruct (endpoint_step s now d) as (_ & _ & P & _).
  - cbn [step]. destruct (reconfigure_step s key) as (_ & _ & _ & P & _).
    now rewrite P.
Qed.

Lemma phase_run evs s :
  phase s <> connecting -> phase (run JSON_parse s evs) <> connecting.
Proof.
  revert s. induction evs as [|ev evs IH]; intros s H; [exact H|].
  cbn [run fold_left]. apply IH. now apply phase_step.
Qed.

Lemma connecting_run evs s :
  announced evs = [] -> tasks s = [] -> 
  tasks (run JSON_parse s evs) = []
  /\ phase (run JSON_parse s evs) = phase s.
Proof.
  revert s. induction evs as [|[now k] evs IH]; intros s Ha Ht; [auto|].
  cbn [run fold_left].
  assert (announced evs = [] /\ forall d, k <> SseEndpoint d) as [Ha' Hk].
  { unfold announced in *. cbn [omap list_omap snd] in Ha.
    destruct k; try (split; [exact Ha|discriminate]). discriminate. }
  assert (tasks (step JSON_parse s (now, k)) = []
          /\ phase (step JSON_parse s (now, k)) = phase s) as [T P].
  { destruct k as [d|d|m| |t|r|r st b|r e|key|].
    2-8,10: keeps_of s now K; destruct K as [_ _ _ _ K5 _ _ K8 _ _];
         (split; [apply nil_length_inv; now rewrite K5, Ht|now apply K8]).
    - now destruct (Hk d).
    - cbn [step]. destruct (reconfigure_step s key) as (_ & E2 & _ & P & _).
      split; congruence. }
  destruct (IH _ Ha' T) as [T' P']. unfold run in *. split; congruence.
Qed.

Lemma isTransient_connection_failed m :
  isTransient (js "SSE connection failed: " ++ m) = true.
Proof.
  unfold isTransient.
  assert (includes (js "SSE connection failed: " ++ m) (js "SSE") = true) as ->
    by reflexivity.
  now rewrite orb_true_r.
Qed.

(** X5.  In every run of a session, each request on the wire, the
    notification included, went to the bridge's origin followed by the
    [data] of an [endpoint] event delivered before; so nothing is sent
    before the stream has announced its endpoint. *)
Theorem posts_go_to_the_announced_url (key toolName : jstring) (toolArgs : value)
    (timeoutMs now0 : Z) (evs : list event) :
  let s := run JSON_parse (new_session key toolName toolArgs timeoutMs now0) evs in
  (forall t url a id m,
      In (t, EPost url a id m) (log s) ->
      exists d, In d (announced evs) /\ url = GOMARBLE_ORIGIN ++ d)
  /\ (announced evs = [] -> Forall (fun e => is_post (snd e) = false) (log s)).
Proof.
  intros s.
  assert (url_inv s evs) as [Hl _].
  { apply (url_inv_run evs _ []). split; [|intros H; now destruct H].
    repeat constructor. }
  rewrite List.Forall_forall in Hl. split.
  - intros t url a id m Hin. exact (Hl _ Hin).
  - intros Ha. apply List.Forall_forall. intros [t e] Hin.
    specialize (Hl _ Hin). unfold to_announced in Hl. cbn [snd] in *.
    destruct e; try reflexivity. destruct Hl as (d & Hd & _).
    rewrite Ha in Hd. destruct Hd.
Qed.

(** X6.  An error of the stream counts only before the endpoint is
    announced: then, if the promise is pending, it rejects it with
    [SSE connection failed: ] and the error's message ([unknown] when
    there is none), which the retry wrapper takes for transient whatever
    the message; once an [endpoint] event was handled, an error of the
    stream changes nothing at all. *)
Theorem stream_error_counts_while_connecting (key toolName : jstring)
    (toolArgs : value) (timeoutMs now0 : Z) (evs : list event) :
  let s := run JSON_parse (new_session key toolName toolArgs timeoutMs now0) evs in
  (announced evs = [] -> settled s = false ->
   forall now m,
     let e := js "SSE connection failed: "
              ++ match m with
                 | Some x => if truthy_str x then x else js "unknown"
                 | None => js "unknown"
                 end in
     result_of (step JSON_parse s (now, SseError m)) = Some (Rejected e)
     /\ isTransient e = true)
  /\ (forall pre t d post,
        evs = pre ++ (t, SseEndpoint d) :: post ->
        es (run JSON_parse (new_session key toolName toolArgs timeoutMs now0) pre)
        = true ->
        forall now m, step JSON_parse s (now, SseError m) = s).
Proof.
  intros s. split.
  - intros Ha Hs now m e.
    split; [|apply isTransient_connection_failed].
    destruct (connecting_run evs (new_session key toolName toolArgs timeoutMs now0)
                Ha eq_refl) as [_ P]. fold s in P. cbn in P.
    pose proof (guard_run JSON_parse evs _
                  (guard_new_session key toolName toolArgs timeoutMs now0)) as G.
    fold s in G. cbn [step].
    pose proof G as G1.
    destruct G1 as [_ He _ _ | o H1 _ _ _]; [|congruence]. rewrite He.
    unfold on_error. rewrite P.
    rewrite result_of_settlement, settle_open; [reflexivity|exact G|exact Hs].
  - intros pre t d post E He now m. cbn [step]. destruct (es s); [|reflexivity].
    assert (phase s <> connecting) as P.
    { unfold s. rewrite E, run_app. cbn [run fold_left step]. rewrite He.
      apply phase_run. now destruct (endpoint_step
        (run JSON_parse (new_session key toolName toolArgs timeoutMs now0) pre) t d)
        as (_ & _ & P & _). }
    unfold on_error. destruct (phase s); [congruence|reflexivity..].
Qed.

(** X7.  The first settlement is final: once the promise of a session is
    resolved or rejected, no later event, of whatever kind and at
    whatever time, changes its outcome, closes the stream or cancels the
    deadline timer again. *)
Theorem outcome_is_final (key toolName : jstring) (toolArgs : value)
    (timeoutMs now0 : Z) (evs more : list event) (o : outcome) :
  let s0 := new_session key toolName toolArgs timeoutMs now0 in
  result_of (run JSON_parse s0 evs) = Some o ->
  result_of (run JSON_parse s0 (evs ++ more)) = Some o
  /\ settlement (run JSON_parse s0 (evs ++ more))
     = settlement (run JSON_parse s0 evs)
  /\ settled (run JSON_parse s0 (evs ++ more)) = true.
Proof.
  intros s0 Ho.
  pose proof (guard_run JSON_parse evs _
                (guard_new_session key toolName toolArgs timeoutMs now0)) as G.
  pose proof (guard_run JSON_parse (evs ++ more) _
                (guard_new_session key toolName toolArgs timeoutMs now0)) as G'.
  fold s0 in G, G'. rewrite result_of_settlement in Ho.
  destruct G as [_ _ _ H4 | o1 _ _ _ H4]; rewrite H4 in Ho; [discriminate|].
  injection Ho as ->.
  destruct (log_grows_run more (run JSON_parse s0 evs)) as (news & E).
  rewrite <- run_app in E.
  assert (settlement (run JSON_parse s0 (evs ++ more))
          = settlement (run JSON_parse s0 evs)
            ++ List.filter is_settlement (List.map snd news)) as Es.
  { unfold settlement. now rewrite E, List.map_app, List.filter_app. }
  rewrite H4 in Es.
  destruct G' as [_ _ _ H4' | o2 H1' _ _ H4']; rewrite H4' in Es;
    [discriminate|].
  injection Es as -> Et. rewrite result_of_settlement, H4', H4.
  destruct (List.filter _ _); [|discriminate]. auto.
Qed.

End Steps.

End SessionFrameProps.

(** ** The order of the handshake *)

Module HandshakeProps.
Import Session SettleProps Handshake.

Lemma req_keeps_refl q : req_keeps q q.
Proof. repeat split; auto. Qed.

Lemma req_keeps_trans a b c : req_keeps a b -> req_keeps b c -> req_keeps a c.
Proof.
  intros (A1 & A2 & A3 & A4) (B1 & B2 & B3 & B4).
  repeat split; try congruence. intros d H. auto.
Qed.

Lemma Forall2_req_refl l : Forall2 req_keeps l l.
Proof. induction l; constructor; auto using req_keeps_refl. Qed.

Lemma safe_refl s : safe s s.
Proof.
  constructor; auto using Forall2_req_refl.
  exists []. now rewrite app_nil_r.
Qed.

Lemma safe_trans s1 s2 s3 : safe s1 s2 -> safe s2 s3 -> safe s1 s3.
Proof.
  intros [A1 A2 A3 (n1 & A4)] [B1 B2 B3 (n2 & B4)]. constructor.
  - congruence.
  - eapply Forall2_trans; [|exact A2|exact B2].
    intros a b c. apply req_keeps_trans.
  - intros t k' H. destruct (B3 t k' H) as [H'|H']; auto.
  - exists (n1 ++ n2). now rewrite B4, A4, List.app_assoc.
Qed.

Lemma initialized_safe s s' t : safe s s' -> initialized s t -> initialized s' t.
Proof.
  intros [_ F _ _] (r & q & d & e & Hq & Ho & Hi & Hm & Hp & He & Ht).
  destruct (Forall2_lookup_l _ _ _ _ _ F Hq) as (q' & Hq' & K1 & K2 & K3 & K4).
  exists r, q', d, e. repeat split; try congruence. auto.
Qed.

Lemma notified_safe s s' : safe s s' -> notified s -> notified s'.
Proof.
  intros [_ _ _ (news & E)] (now & url & a & Hin). exists now, url, a.
  rewrite E. apply in_or_app. now left.
Qed.

(** Safe changes keep the handshake where it stands. *)
Lemma order_safe tool s s' : safe s s' -> order_inv tool s -> order_inv tool s'.
Proof.
  intros S [O1 O2 O3 O4]. pose proof S as [S1 S2 S3 S4]. constructor.
  - congruence.
  - intros r q' Hq'.
    destruct (Forall2_lookup_r _ _ _ _ _ S2 Hq') as (q & Hq & K1 & K2 & K3 & K4).
    destruct (O2 r q Hq) as [[A B]|(A & B & C & D)].
    + left. split; congruence.
    + right. repeat split; try congruence.
      * rewrite K3. eapply initialized_safe; eauto.
      * eapply notified_safe; eauto.
  - intros t k Hk Hp. destruct (S3 t k Hk) as [H|H].
    + destruct (O3 t k H Hp). split.
      * eapply initialized_safe; eauto.
      * eapply notified_safe; eauto.
    + rewrite Hp in H. destruct H.
  - intros t k r Hk Hp. destruct (S3 t k Hk) as [H|H].
    + destruct (O4 t k r H Hp) as (q & Hq & A & B & C).
      destruct (Forall2_lookup_l _ _ _ _ _ S2 Hq) as (q' & Hq' & K1 & K2 & K3 & K4).
      exists q'. repeat split; congruence.
    + rewrite Hp in H. destruct H.
Qed.

Section From.
Variable s0 : session.
Local Abbreviation S := (safe s0).

Lemma S_ext s s' :
  toolName s' = toolName s -> requests s' = requests s -> tasks s' = tasks s ->
  (exists news, log s' = log s ++ news) -> S s -> S s'.
Proof.
  intros E1 E2 E3 E4 H. apply (safe_trans _ s); [exact H|].
  constructor; auto.
  - rewrite E2. apply Forall2_req_refl.
  - intros t k' Hk. left. congruence.
Qed.

Ltac ext_tac :=
  intros; eapply S_ext; try eassumption; try reflexivity;
  try (exists []; now rewrite app_nil_r).

Lemma S_emit now e s : S s -> S (emit now e s).
Proof. ext_tac. now exists [(now, e)]. Qed.
Lemma S_set_guard b e t s : S s -> S (set_guard b e t s).
Proof. ext_tac. Qed.
Lemma S_set_phase p s : S s -> S (set_phase p s).
Proof. ext_tac. Qed.
Lemma S_set_msgUrl u s : S s -> S (set_msgUrl u s).
Proof. ext_tac. Qed.
Lemma S_set_pending m s : S s -> S (set_pending m s).
Proof. ext_tac. Qed.
Lemma S_set_API_KEY k s : S s -> S (set_API_KEY k s).
Proof. ext_tac. Qed.

Lemma S_set_task t k s : harmless (at_pc k) -> S s -> S (set_task t k s).
Proof.
  intros Hh H. apply (safe_trans _ s); [exact H|].
  constructor; auto using Forall2_req_refl.
  - intros t' k' Hk. cbn in Hk.
    destruct (decide (t' = t)) as [->|Hne].
    + destruct (decide (t < length (tasks s))%nat) as [Hlt|Hge].
      * rewrite list_lookup_insert_eq in Hk by exact Hlt. injection Hk as <-. now right.
      * rewrite list_insert_ge in Hk by lia. now left.
    + rewrite list_lookup_insert_ne in Hk by auto. now left.
  - exists []. now rewrite app_nil_r.
Qed.

Lemma S_push_task k s : harmless (at_pc k) -> S s -> S (set_tasks (tasks s ++ [k]) s).
Proof.
  intros Hh H. apply (safe_trans _ s); [exact H|].
  constructor; auto using Forall2_req_refl.
  - intros t' k' Hk. cbn in Hk.
    apply lookup_app_Some in Hk as [Hk|[_ Hk]]; [now left|].
    destruct (t' - length (tasks s))%nat; [|now destruct n].
    cbn in Hk. injection Hk as <-. now right.
  - exists []. now rewrite app_nil_r.
Qed.

Lemma S_set_request r q q' s :
  requests s !! r = Some q -> req_keeps q q' -> S s -> S (set_request r q' s).
Proof.
  intros Hq Hk H. apply (safe_trans _ s); [exact H|].
  constructor; auto.
  - cbn. rewrite <- (list_insert_id (requests s) r q Hq) at 1.
    apply Forall2_insert; [apply Forall2_req_refl|exact Hk].
  - exists []. now rewrite app_nil_r.
Qed.

Lemma S_settle now o s : S s -> S (settle now o s).
Proof.
  intros H. unfold settle. destruct (settled s); [exact H|].
  apply S_emit.
  destruct (es s); cbn [set_guard es timer emit settled]; destruct (timer s);
    repeat first [ exact H | apply S_set_guard | apply S_emit ].
Qed.

Lemma S_notify now m s : S s -> S (notify now m s).
Proof. intros H. unfold notify. now apply S_emit. Qed.

Lemma S_clear_rpc_timer r s : S s -> S (clear_rpc_timer r s).
Proof.
  intros H. unfold clear_rpc_timer.
  destruct (requests s !! r) as [q|] eqn:Hq; [|exact H].
  destruct (rq_timer q); try exact H.
  eapply S_set_request; eauto. repeat split; auto.
Qed.

Lemma S_mark_fetch_done r s : S s -> S (mark_fetch_done r s).
Proof.
  intros H. unfold mark_fetch_done.
  destruct (requests s !! r) as [q|] eqn:Hq; [|exact H].
  eapply S_set_request; eauto. repeat split; auto.
Qed.

Lemma S_set_promise r p s :
  (forall q, requests s !! r = Some q -> rq_promise q = Pending) ->
  S s -> S (set_promise r p s).
Proof.
  intros Hp H. unfold set_promise.
  destruct (requests s !! r) as [q|] eqn:Hq; [|exact H].
  eapply S_set_request; eauto. repeat split; auto.
  intros d Hd. rewrite (Hp q eq_refl) in Hd. discriminate.
Qed.

Create HintDb safe.
#[local] Hint Extern 1 (harmless _) => exact I : safe.
#[local] Hint Resolve S_emit S_set_guard S_set_phase S_set_msgUrl S_set_pending
  S_set_task S_settle S_notify S_clear_rpc_timer S_mark_fetch_done : safe.

Ltac S_tac :=
  repeat first
    [ progress eauto with safe
    | match goal with
      | |- safe _ (match ?x with _ => _ end) => destruct x eqn:?
      end ].

Lemma S_finish_thrown now t k e s : S s -> S (finish_thrown now t k e s).
Proof. intros H. unfold finish_thrown. S_tac. Qed.
#[local] Hint Resolve S_finish_thrown : safe.

Lemma S_loop_head now t k s : S s -> S (loop_head now t k s).
Proof. intros H. unfold loop_head. S_tac. Qed.
#[local] Hint Resolve S_loop_head : safe.

Lemma S_on_catch now t k e s : S s -> S (on_catch now t k e s).
Proof. intros H. unfold on_catch. S_tac. Qed.
#[local] Hint Resolve S_on_catch : safe.

Variable JSON_parse : jstring -> option value.

Lemma S_after_call now t k v s : S s -> S (after_call JSON_parse now t k v s).
Proof. intros H. unfold after_call. S_tac. Qed.

Lemma S_on_endpoint now d s : S s -> S (on_endpoint now d s).
Proof.
  intros H. unfold on_endpoint. apply S_loop_head.
  apply S_push_task; [exact I|]. now apply S_set_phase, S_set_msgUrl.
Qed.

Lemma S_on_error now m s : S s -> S (on_error now m s).
Proof. intros H. unfold on_error. S_tac. Qed.

Lemma S_on_reconfigure key s : S s -> S (on_reconfigure key s).
Proof. intros H. unfold on_reconfigure. destruct (truthy_str key); auto using S_set_API_KEY. Qed.

End From.

Section Order.
Variable JSON_parse : jstring -> option value.
Variable tool : jstring.

Lemma initialized_push s q t :
  initialized s t -> initialized (set_requests (requests s ++ [q]) s) t.
Proof.
  intros (r & q0 & d & e & Hq & H). exists r, q0, d, e.
  split; [|exact H]. cbn. now apply lookup_app_l_Some.
Qed.

Lemma O_postRpc now t id m s :
  order_inv tool s ->
  (id = 1 /\ m = js "initialize")
  \/ (id = 2 /\ m = tools_method tool /\ initialized s t /\ notified s) ->
  order_inv tool (snd (postRpc now t id m s))
  /\ fst (postRpc now t id m s) = length (requests s)
  /\ requests (snd (postRpc now t id m s)) !! length (requests s)
     = Some (Request id m t Armed Pending false)
  /\ tasks (snd (postRpc now t id m s)) = tasks s
  /\ toolName (snd (postRpc now t id m s)) = toolName s.
Proof.
  intros [O1 O2 O3 O4] Hnew. unfold postRpc. cbn [fst snd].
  set (q := Request id m t Armed Pending false).
  set (s1 := set_requests (requests s ++ [q]) s).
  assert (order_inv tool s1) as H1.
  { constructor.
    - exact O1.
    - intros r q' Hq'. cbn in Hq'.
      apply lookup_app_Some in Hq' as [Hq'|[_ Hq']].
      + destruct (O2 r q' Hq') as [?|(A & B & C & D)]; [now left|].
        right. repeat split; auto. now apply initialized_push.
      + destruct (r - length (requests s))%nat; [|now destruct n].
        cbn in Hq'. injection Hq' as <-. cbn.
        destruct Hnew as [?|(A & B & C & D)]; [now left|].
        right. repeat split; auto. now apply initialized_push.
    - intros t' k Hk Hp. destruct (O3 t' k Hk Hp). split; [|assumption].
      now apply initialized_push.
    - intros t' k r Hk Hp. destruct (O4 t' k r Hk Hp) as (q' & Hq' & H).
      exists q'. split; [|exact H]. cbn. now apply lookup_app_l_Some. }
  split.
  { eapply order_safe; [|exact H1].
    apply S_emit, S_set_pending, safe_refl. }
  split; [reflexivity|]. split; [|split; reflexivity].
  cbn. apply list_lookup_middle. reflexivity.
Qed.

Lemma O_set_task t k' s :
  order_inv tool s ->
  (at_pc k' = Pausing -> initialized s t /\ notified s) ->
  (forall r, at_pc k' = AwaitInit r ->
     exists q, requests s !! r = Some q /\ rq_owner q = t /\ rq_id q = 1
               /\ rq_method q = js "initialize") ->
  order_inv tool (set_task t k' s).
Proof.
  intros [O1 O2 O3 O4] Hp Hi. constructor; auto.
  - intros t' k Hk Hpc. cbn in Hk.
    destruct (decide (t' = t)) as [->|Hne].
    + destruct (decide (t < length (tasks s))%nat) as [Hlt|Hge].
      * rewrite list_lookup_insert_eq in Hk by exact Hlt. injection Hk as <-. auto.
      * rewrite list_insert_ge in Hk by lia. eauto.
    + rewrite list_lookup_insert_ne in Hk by auto. eauto.
  - intros t' k r Hk Hpc. cbn in Hk.
    destruct (decide (t' = t)) as [->|Hne].
    + destruct (decide (t < length (tasks s))%nat) as [Hlt|Hge].
      * rewrite list_lookup_insert_eq in Hk by exact Hlt. injection Hk as <-. auto.
      * rewrite list_insert_ge in Hk by lia. eauto.
    + rewrite list_lookup_insert_ne in Hk by auto. eauto.
Qed.

Lemma O_on_wake now t s : order_inv tool s -> order_inv tool (on_wake now t s).
Proof.
  intros H. unfold on_wake.
  destruct (tasks s !! t) as [k|] eqn:Hk; [|exact H].
  destruct (at_pc k) eqn:Hpc; try exact H.
  - destruct (O_postRpc now t 1 (js "initialize") s H) as (H1 & E & Hq & Ht & _);
      [now left|].
    destruct (postRpc now t 1 (js "initialize") s) as [r s1]. cbn [fst snd] in *.
    apply O_set_task; [exact H1|discriminate|].
    intros r' [= <-]. rewrite E. eexists. split; [exact Hq|]. repeat split.
  - unfold start_call.
    assert (order_inv tool (set_phase calling s)) as H0.
    { eapply order_safe; [|exact H]. apply S_set_phase, safe_refl. }
    assert ((if bool_decide (toolName (set_phase calling s) = js "__tools_list__")
             then js "tools/list" else js "tools/call") = tools_method tool) as ->.
    { unfold tools_method. cbn [toolName set_phase]. now rewrite (oi_name _ _ H). }
    destruct (oi_pause _ _ H t k Hk Hpc) as [Hi Hn].
    destruct (O_postRpc now t 2 (tools_method tool) (set_phase calling s) H0)
      as (H1 & _).
    { right. repeat split; auto. }
    destruct (postRpc now t 2 (tools_method tool) (set_phase calling s)) as [r s1].
    cbn [snd] in H1. apply O_set_task; [exact H1|discriminate|discriminate].
Qed.

Lemma O_after_initialize now t k s :
  order_inv tool s -> initialized s t -> 
  order_inv tool (after_initialize now t k s).
Proof.
  intros H Hi. unfold after_initialize.
  set (s2 := emit now (EPause t 500) (notify now (js "notifications/initialized") s)).
  assert (safe s s2) as Hs by (apply S_emit, S_notify, safe_refl).
  apply O_set_task; [eapply order_safe; eauto| |discriminate].
  intros _. split; [eapply initialized_safe; eauto|].
  exists now, (msgUrl s), (bearer (API_KEY s)). unfold s2, notify, emit. cbn [log].
  apply in_or_app. left. apply in_or_app. right. now left.
Qed.

Lemma O_resume now r res s :
  order_inv tool s ->
  (forall q, requests s !! r = Some q -> rq_promise q = res) ->
  order_inv tool (resume JSON_parse now r res s).
Proof.
  intros H Hres. unfold resume.
  destruct (requests s !! r) as [q|] eqn:Hq; [|exact H].
  destruct (tasks s !! rq_owner q) as [k|] eqn:Hk; [|exact H].
  assert (forall e, order_inv tool (on_catch now (rq_owner q) k e s)) as Hc.
  { intros e. eapply order_safe; [|exact H]. apply S_on_catch, safe_refl. }
  destruct (at_pc k) eqn:Hpc; destruct res as [|resp|err]; try exact H.
  - destruct (bool_decide (r0 = r)) eqn:Hr; [|exact H].
    apply bool_decide_eq_true in Hr. subst r0.
    destruct (prop resp "error") as [e|] eqn:He; [|apply Hc].
    destruct (truthy e) eqn:Ht; [apply Hc|].
    apply O_after_initialize; [exact H|].
    destruct (oi_init _ _ H _ _ _ Hk Hpc) as (q' & Hq' & A & B & C).
    assert (q' = q) as -> by congruence.
    exists r, q, resp, e. repeat split; auto.
  - destruct (bool_decide (r0 = r)); [apply Hc|exact H].
  - destruct (bool_decide (r0 = r)); [|exact H].
    eapply order_safe; [|exact H]. apply S_after_call, safe_refl.
  - destruct (bool_decide (r0 = r)); [apply Hc|exact H].
Qed.

Lemma O_settle_request now r res s :
  order_inv tool s -> order_inv tool (settle_request JSON_parse now r res s).
Proof.
  intros H. unfold settle_request.
  destruct (requests s !! r) as [q|] eqn:Hq; [|exact H].
  destruct (rq_promise q) eqn:Hp; try exact H.
  apply O_resume.
  - eapply order_safe; [|exact H]. apply S_set_promise; [|apply safe_refl].
    intros q' Hq'. congruence.
  - intros q'. unfold set_promise. rewrite Hq. cbn.
    rewrite list_lookup_insert_eq by (eapply lookup_lt_Some; eauto).
    now intros [= <-].
Qed.

Lemma O_fetch_rejects now r q e s :
  order_inv tool s -> order_inv tool (fetch_rejects JSON_parse now r q e s).
Proof.
  intros H. unfold fetch_rejects. apply O_settle_request.
  eapply order_safe; [|exact H]. apply S_set_pending, S_clear_rpc_timer, safe_refl.
Qed.

Lemma O_step s ev : order_inv tool s -> order_inv tool (step JSON_parse s ev).
Proof.
  intros H. destruct ev as [now k].
  destruct k as [d|d|m| |t|r|r st b|r e|key|]; cbn [step].
  - destruct (es s); [|exact H].
    eapply order_safe; [|exact H]. apply S_on_endpoint, safe_refl.
  - destruct (es s); [|exact H]. unfold on_message.
    destruct (JSON_parse d) as [v|]; [|exact H].
    destruct (prop v "id") as [[| | |n| | |]|]; try exact H.
    destruct (pending s !! n) as [r|]; [|exact H].
    apply O_settle_request. eapply order_safe; [|exact H].
    apply S_clear_rpc_timer, S_set_pending, safe_refl.
  - destruct (es s); [|exact H].
    eapply order_safe; [|exact H]. apply S_on_error, safe_refl.
  - destruct (timer s); [|exact H].
    eapply order_safe; [|exact H]. apply S_settle, safe_refl.
  - now apply O_on_wake.
  - unfold on_rpc_timer. destruct (requests s !! r) as [q|] eqn:Hq; [|exact H].
    destruct (rq_timer q); try exact H.
    apply O_settle_request. eapply order_safe; [|exact H].
    apply S_set_pending. eapply S_set_request; [exact Hq| |apply safe_refl].
    repeat split; auto.
  - unfold on_fetch_status. destruct (requests s !! r) as [q|] eqn:Hq; [|exact H].
    destruct (rq_fetch_done q); [exact H|].
    assert (order_inv tool (mark_fetch_done r s)) as H1.
    { eapply order_safe; [|exact H]. apply S_mark_fetch_done, safe_refl. }
    destruct (_ && _); [now apply O_fetch_rejects|exact H1].
  - unfold on_fetch_failed. destruct (requests s !! r) as [q|] eqn:Hq; [|exact H].
    destruct (rq_fetch_done q); [exact H|].
    apply O_fetch_rejects. eapply order_safe; [|exact H].
    apply S_mark_fetch_done, safe_refl.
  - eapply order_safe; [|exact H]. apply S_on_reconfigure, safe_refl.
  - destruct (es s); [|exact H].
    eapply order_safe; [|exact H]. apply S_emit, safe_refl.
Qed.

Lemma O_run evs s : order_inv tool s -> order_inv tool (run JSON_parse s evs).
Proof.
  revert s. induction evs as [|ev evs IH]; intros s H; [exact H|].
  cbn [run fold_left]. apply IH. now apply O_step.
Qed.

Lemma O_new_session key args timeoutMs now :
  order_inv tool (new_session key tool args timeoutMs now).
Proof. constructor; [reflexivity|cbn; intros; discriminate..]. Qed.

(** X8.  In every run of a session, a request sent with [postRpc] is
    either an [initialize] request with id 1, or the tool request with
    id 2, whose method is [tools/list] for the tool [__tools_list__] and
    [tools/call] otherwise; and the tool request is sent only by a run
    of [doInitialize] that got a response without [error] to an
    [initialize] request of its own, and after the
    [notifications/initialized] message went out. *)
Theorem tool_request_follows_handshake (key : jstring) (toolArgs : value)
    (timeoutMs now0 : Z) (evs : list event) (r : nat) (q : request) :
  let s := run JSON_parse (new_session key tool toolArgs timeoutMs now0) evs in
  requests s !! r = Some q ->
  (rq_id q = 1 /\ rq_method q = js "initialize")
  \/ (rq_id q = 2 /\ rq_method q = tools_method tool
      /\ initialized s (rq_owner q) /\ notified s).
Proof.
  intros s Hq.
  exact (oi_req _ _ (O_run evs _ (O_new_session key toolArgs timeoutMs now0)) r q Hq).
Qed.

End Order.

End HandshakeProps.

(** ** Bounds on the retry wrapper *)

Module RetryMore.
Import Session SettleProps Retry RetryProps RetryCost.

Lemma sum_waits m :
  fold_right Z.add 0 (List.map (fun i => 3000 * (Z.of_nat i + 1)) (seq 0 m))
  = 1500 * Z.of_nat m * (Z.of_nat m + 1).
Proof.
  induction m as [|m IH]; [reflexivity|].
  rewrite seq_S, List.map_app, fold_right_app. cbn [List.map fold_right Nat.add].
  assert (forall l z, fold_right Z.add z l = fold_right Z.add 0 l + z) as Hz.
  { induction l as [|x l IHl]; intros z; cbn [fold_right]; [lia|].
    rewrite IHl. lia. }
  rewrite Hz, IH. lia.
Qed.

Section WithJsonParse.
Variable JSON_parse : jstring -> option value.

(** X9.  The wrapper makes at most [maxRetries] attempts, waits once
    between two attempts, and with [n] attempts made it has waited
    1500 n (n - 1) ms in all: at most 9000 ms with the default of three
    attempts. *)
Theorem wrapper_attempts_and_waits (key toolName : jstring) (toolArgs : value)
    (maxRetries : Z) (env : Z -> Z * list event) :
  let rep := mcpToolCall JSON_parse key toolName toolArgs maxRetries env in
  let n := Z.of_nat (length (attempts rep)) in
  n <= Z.max 0 maxRetries
  /\ length (delays rep) = (length (attempts rep) - 1)%nat
  /\ total_wait rep = 1500 * n * (n - 1)
  /\ total_wait rep <= 1500 * Z.max 1 maxRetries * (Z.max 1 maxRetries - 1)
  /\ (maxRetries = 3 -> total_wait rep <= 9000).
Proof.
  intros rep n. subst n rep.
  destruct (mcpToolCall_from JSON_parse toolName toolArgs maxRetries env key)
    as (news & ds & res & key' & -> & L).
  apply loop_from_facts in L as (_ & Hds & Hat & _). cbn [attempts delays].
  assert (Z.of_nat (length news) <= Z.max 0 maxRetries) as Hn.
  { destruct (length news) as [|m] eqn:El; [lia|].
    destruct (lookup_lt_is_Some_2 news m) as [a Ha]; [lia|].
    destruct (Hat m a Ha) as [_ Hlt]. lia. }
  split; [exact Hn|]. split; [now rewrite Hds, length_map, length_seq|].
  assert (total_wait (Report res news ds key')
          = 1500 * Z.of_nat (length news) * (Z.of_nat (length news) - 1)) as Ht.
  { unfold total_wait. cbn [delays]. rewrite Hds.
    rewrite (List.map_ext _ (fun i => 3000 * (Z.of_nat i + 1)))
      by (intros i; f_equal; lia).
    rewrite sum_waits. destruct (length news) as [|m]; [reflexivity|].
    replace (S m - 1)%nat with m by lia. lia. }
  split; [exact Ht|]. rewrite Ht. split; [nia|]. intros ->. nia.
Qed.

(** X10.  The first attempt that succeeds ends the call: no attempt
    follows it and its value is returned; and every attempt but the
    last was rejected with an error taken for transient. *)
Theorem first_success_is_returned (key toolName : jstring) (toolArgs : value)
    (maxRetries : Z) (env : Z -> Z * list event) (i : nat) (a : attempt_record) :
  let rep := mcpToolCall JSON_parse key toolName toolArgs maxRetries env in
  attempts rep !! i = Some a ->
  (forall v, result_of (ended a) = Some (Resolved v) ->
             length (attempts rep) = S i /\ result rep = Return v)
  /\ ((S i < length (attempts rep))%nat ->
      exists e, result_of (ended a) = Some (Rejected e) /\ isTransient e = true).
Proof.
  intros rep Ha. subst rep.
  destruct (mcpToolCall_from JSON_parse toolName toolArgs maxRetries env key)
    as (news & ds & res & key' & E & L). rewrite E in *.
  apply loop_from_facts in L as (_ & _ & _ & Hiff & Hmid & Hlast).
  cbn [attempts result] in *. split.
  - intros v Hv.
    assert (length news = S i) as Hl.
    { pose proof (lookup_lt_Some _ _ _ Ha) as Hlt.
      destruct (decide (S i < length news)%nat) as [Hmore|]; [|lia].
      destruct (Hmid i a Ha Hmore) as (e & He). congruence. }
    split; [exact Hl|].
    assert (last news = Some a) as Hla.
    { rewrite last_lookup, Hl. exact Ha. }
    rewrite Hla, Hv in Hlast. exact Hlast.
  - intros Hmore. destruct (Hmid i a Ha Hmore) as (e & He).
    exists e. split; [exact He|]. now apply (Hiff i a e Ha He).
Qed.

Lemma not_retried key toolName toolArgs maxRetries env i a e :
  let rep := mcpToolCall JSON_parse key toolName toolArgs maxRetries env in
  attempts rep !! i = Some a ->
  result_of (ended a) = Some (Rejected e) -> isTransient e = false ->
  length (attempts rep) = S i /\ result rep = Throw e.
Proof.
  intros rep Ha He Ht. subst rep.
  destruct (mcpToolCall_from JSON_parse toolName toolArgs maxRetries env key)
    as (news & ds & res & key' & E & L). rewrite E in *.
  apply loop_from_facts in L as (_ & _ & _ & Hiff & _ & Hlast).
  cbn [attempts result] in *.
  assert (length news = S i) as Hl.
  { pose proof (lookup_lt_Some _ _ _ Ha) as Hlt.
    destruct (decide (S i < length news)%nat) as [Hmore|]; [|lia].
    apply (Hiff i a e Ha He) in Hmore as [Hc _]. congruence. }
  split; [exact Hl|].
  assert (last news = Some a) as Hla by (rewrite last_lookup, Hl; exact Ha).
  rewrite Hla, He in Hlast. exact Hlast.
Qed.

(** X11.  Timeouts are not retried: an attempt rejected because the
    60 s deadline of the session passed, or because one of its requests
    got no response within 30 s, ends the call with that error, however
    many attempts remain. *)
Theorem timeouts_are_not_retried (key toolName : jstring) (toolArgs : value)
    (maxRetries : Z) (env : Z -> Z * list event) (i : nat) (a : attempt_record)
    (e : error) :
  let rep := mcpToolCall JSON_parse key toolName toolArgs maxRetries env in
  attempts rep !! i = Some a ->
  result_of (ended a) = Some (Rejected e) ->
  e = js "Session timeout"
  \/ e = rpc_timeout (js "initialize")
  \/ e = rpc_timeout (js "tools/call")
  \/ e = rpc_timeout (js "tools/list") ->
  length (attempts rep) = S i /\ result rep = Throw e.
Proof.
  intros rep Ha He Hcase. apply (not_retried _ _ _ _ _ i a e Ha He).
  destruct Hcase as [E|[E|[E|E]]]; rewrite E; vm_compute; reflexivity.
Qed.

End WithJsonParse.

End RetryMore.

(** ** The call queue as its callers see it *)

Module CallQueueMore.
Import Session Retry CallQueue CallQueueProps CallQueueUse.






Lemma fold_start rs s :
  fold_left (fun acc x => start_job x acc) rs s
  = Server (promises s) (callQueue s) (jobs s) (running s ++ rs)
      (qlog s ++ List.map Started rs).
Proof.
  revert s. induction rs as [|x rs IH]; intros s; cbn [fold_left List.map].
  - rewrite !app_nil_r. now destruct s.
  - rewrite IH. unfold start_job. cbn. now rewrite <- !List.app_assoc.
Qed.

Lemma queue_log_snoc s l :
  List.filter in_queue (qlog s ++ l) = queue_log s ++ List.filter in_queue l.
Proof. unfold queue_log. apply List.filter_app. Qed.

Lemma same_chain_refl s : same_chain s s.
Proof. repeat split. Qed.

Lemma same_chain_qstep s1 s2 ev :
  same_chain s1 s2 -> same_chain (qstep s1 ev) (qstep s2 ev).
Proof.
  intros (E1 & E2 & E3 & E4 & E5). unfold queue_log in E5.
  destruct ev as [name args res|j r]; cbn [qstep].
  - unfold submit. destruct (truthy_str name).
    + rewrite E1, E2, E3, E4.
      destruct (promises s2 !! callQueue s2) as [[[|] rs]|]; unfold start_job;
        unfold same_chain, queue_log; cbn [promises callQueue jobs running qlog];
        rewrite ?List.filter_app, ?E5; repeat split.
    + unfold same_chain, queue_log. cbn [promises callQueue jobs running qlog].
      rewrite !List.filter_app, E5. repeat split; assumption.
  - unfold complete. rewrite E4, E3.
    destruct (bool_decide (j ∈ running s2)); [|repeat split; auto].
    destruct (jobs s2 !! j) as [jb|]; [|repeat split; auto].
    destruct (respond r) as [resp|]; [|repeat split; auto].
    rewrite E1, !fold_start.
    unfold same_chain, queue_log. cbn [promises callQueue jobs running qlog].
    rewrite !List.filter_app, E5, E2. repeat split.
Qed.

Lemma same_chain_refusal s name args res :
  truthy_str name = false -> same_chain (submit name args res s) s.
Proof.
  intros H. unfold submit. rewrite H. repeat split.
  unfold queue_log. cbn. rewrite List.filter_app. cbn. apply app_nil_r.
Qed.

Lemma same_chain_trans a b c : same_chain a b -> same_chain b c -> same_chain a c.
Proof.
  intros (A1 & A2 & A3 & A4 & A5) (B1 & B2 & B3 & B4 & B5).
  repeat split; congruence.
Qed.

Lemma same_chain_run evs : forall s1 s2,
  same_chain s1 s2 ->
  same_chain (fold_left qstep evs s1) (fold_left qstep (List.filter named evs) s2).
Proof.
  induction evs as [|ev evs IH]; intros s1 s2 H; [exact H|].
  cbn [fold_left List.filter]. destruct (named ev) eqn:En.
  - cbn [fold_left]. apply IH. now apply same_chain_qstep.
  - apply IH. destruct ev as [name args res|]; [|discriminate]. cbn in En.
    cbn [qstep]. eapply same_chain_trans; [|exact H].
    now apply same_chain_refusal.
Qed.

Lemma refused_qstep s ev :
  refused (qstep s ev)
  = refused s ++ match ev with
                 | Submit name _ res => if truthy_str name then [] else [res]
                 | Complete _ _ => []
                 end.
Proof.
  unfold refused. destruct ev as [name args res|j r]; cbn [qstep].
  - unfold submit. destruct (truthy_str name).
    + destruct (promises s !! callQueue s) as [[[|] rs]|]; unfold start_job; cbn;
        rewrite ?omap_app, ?app_nil_r; reflexivity.
    + cbn. now rewrite omap_app.
  - unfold complete. destruct (bool_decide _); [|now rewrite app_nil_r].
    destruct (jobs s !! j) as [jb|]; [|now rewrite app_nil_r].
    destruct (respond r) as [resp|] eqn:Er; [|now rewrite app_nil_r].
    rewrite fold_start. cbn. rewrite !omap_app. cbn.
    assert (omap (fun e => match e with
                           | Responded res Status400 => Some res
                           | _ => None
                           end) (List.map Started (match promises s !! jpromise jb with
                                                   | Some p => reactions p
                                                   | None => []
                                                   end)) = []) as ->.
    { generalize (match promises s !! jpromise jb with
                  | Some p => reactions p | None => [] end).
      induction l; [reflexivity|exact IHl]. }
    destruct r; cbn in Er; simplify_eq; cbn; now rewrite !app_nil_r.
Qed.

Lemma refused_run (evs : list qevent) : refused (qrun evs) = nameless evs.
Proof.
  unfold qrun, nameless. change (omap _ evs) with (refused boot ++ omap
    (fun ev => match ev with
               | Submit name _ res => if truthy_str name then None else Some res
               | Complete _ _ => None
               end) evs).
  generalize boot. induction evs as [|ev evs IH]; intros s; cbn [fold_left].
  - now rewrite app_nil_r.
  - rewrite IH, refused_qstep. cbn [omap list_omap]. rewrite <- List.app_assoc.
    f_equal. destruct ev as [name args res|]; [|reflexivity].
    now destruct (truthy_str name).
Qed.

(** The requests without a body leave the server as it is. *)
Lemma arrive_all l : forall s threw,
  fold_left arrive l (s, threw)
  = (fold_left qstep (parsed l) s, threw ++ unparsed l).
Proof.
  induction l as [|a l IH]; intros s threw; cbn [fold_left].
  - cbn. now rewrite app_nil_r.
  - destruct a as [res|ev]; cbn [arrive fst snd]; rewrite IH.
    + unfold parsed, unparsed. cbn [omap list_omap]. now rewrite <- List.app_assoc.
    + reflexivity.
Qed.

(** X13.  Requests without a tool name stay outside the queue.  One
    whose body has no name is refused with status 400 when it comes in,
    once; one without a body makes the handler throw before it does
    anything; and with or without such requests the chain, the jobs,
    what is running and what the handlers answer are the same. *)
Theorem refusals_do_not_interfere (l : list arrival) :
  same_chain (fst (arrivals l)) (qrun (List.filter named (parsed l)))
  /\ refused (fst (arrivals l)) = nameless (parsed l)
  /\ snd (arrivals l) = unparsed l.
Proof.
  unfold arrivals. rewrite arrive_all. cbn [fst snd app].
  split; [apply same_chain_run, same_chain_refl|]. split; [|reflexivity].
  apply refused_run.
Qed.

End CallQueueMore.

(** ** Loading [.env] *)

Module DotEnvProps.
Import DotEnv JsStringSpec JsStringProps.

Lemma indexOf_spec s c :
  indexOf s c = -1 \/
  (0 <= indexOf s c /\ ~ In c (take (Z.to_nat (indexOf s c)) s)
   /\ s !! Z.to_nat (indexOf s c) = Some c).
Proof.
  induction s as [|d s IH]; cbn [indexOf]; [now left|].
  destruct (N.eqb_spec d c) as [->|Hne].
  - right. split; [lia|]. split; [intros []|reflexivity].
  - destruct IH as [->|(H0 & Hn & Hl)]; [now left|].
    destruct (Z.ltb_spec (indexOf s c) 0); [lia|]. right.
    replace (Z.to_nat (indexOf s c + 1)) with (S (Z.to_nat (indexOf s c))) by lia.
    split; [lia|]. split; [|exact Hl].
    cbn [take]. intros [E|Hin]; [congruence|auto].
Qed.

Lemma indexOf_absent s c : indexOf s c = -1 -> ~ In c s.
Proof.
  induction s as [|d s IH]; cbn [indexOf]; [auto|].
  destruct (N.eqb_spec d c); [discriminate|].
  destruct (Z.ltb_spec (indexOf s c) 0) as [Hlt|Hge]; [|lia].
  intros _ [Hd|Hin]; [congruence|]. apply IH; [|exact Hin].
  destruct (indexOf_spec s c) as [?|(? & _)]; [assumption|lia].
Qed.

Lemma c_string_idem s : c_string (c_string s) = c_string s.
Proof.
  induction s as [|c s IH]; [reflexivity|]. cbn [c_string].
  destruct (N.eqb c 0) eqn:E; [reflexivity|]. cbn [c_string]. now rewrite E, IH.
Qed.

Lemma getenv_proper env k : proper k -> getenv env (c_string k) = env !! k.
Proof. intros [Hn ->]. now destruct k. Qed.

Lemma lookup_setenv_ne n v env k : n <> k -> setenv n v env !! k = env !! k.
Proof. intros H. destruct n; [reflexivity|]. cbn. now rewrite lookup_insert_ne. Qed.

Lemma lookup_setenv_eq n v env : n <> [] -> setenv n v env !! n = Some v.
Proof. intros H. destruct n; [congruence|]. cbn. now rewrite lookup_insert_eq. Qed.


Lemma proper_dec k : proper k \/ ~ proper k.
Proof.
  unfold proper. destruct (decide (k = [])) as [->|Hn]; [right; tauto|].
  destruct (decide (c_string k = k)); [left|right]; tauto.
Qed.

Section WithPrototype.
Variable inherited : jstring -> bool.

Lemma load_env_definitions c env :
  load_env inherited (Some c) env
  = fold_left (define inherited) (definitions c) env.
Proof.
  unfold load_env, definitions. generalize (split_nl c). intros lines.
  revert env. induction lines as [|l lines IH]; intros env; [reflexivity|].
  cbn [fold_left omap list_omap]. unfold load_line at 2.
  destruct (parse_line l); cbn [fold_left]; apply IH.
Qed.

Lemma env_truthy_proper env k :
  proper k ->
  env_truthy inherited env k
  = match env !! k with Some v => truthy_str v | None => inherited k end.
Proof. intros H. unfold env_truthy. now rewrite getenv_proper. Qed.



(** A name that is not proper is never given a value. *)
Lemma define_all_improper defs : forall env k,
  ~ proper k -> fold_left (define inherited) defs env !! k = env !! k.
Proof.
  induction defs as [|[k' v] defs IH]; intros env k Hk; [reflexivity|].
  cbn [fold_left]. rewrite IH by exact Hk. unfold define. cbn [fst snd].
  destruct (env_truthy inherited env k'); [reflexivity|].
  destruct (c_string k') as [|d n] eqn:E; [reflexivity|].
  apply lookup_setenv_ne. intros <-. apply Hk.
  split; [discriminate|]. rewrite <- E. apply c_string_idem.
Qed.

(** The value of a proper name after the definitions, when the names
    stored under it are inherited or not as it is. *)
Lemma define_all defs k : proper k -> forall env,
  Forall (fun kv => c_string (fst kv) = k -> inherited (fst kv) = inherited k) defs ->
  fold_left (define inherited) defs env !! k
  = if env_truthy inherited env k then env !! k
    else match file_value (stored defs) k with
         | Some v => Some v
         | None => env !! k
         end.
Proof.
  intros Hk. pose proof Hk as [Hne Hc].
  induction defs as [|[k' v] defs IH]; intros env Hf; cbn [fold_left].
  - now destruct (env_truthy inherited env k).
  - inversion Hf as [|? ? Hi Hf']; subst. cbn [fst] in Hi.
    rewrite IH by exact Hf'. clear IH.
    rewrite !env_truthy_proper by exact Hk.
    unfold stored. cbn [omap list_omap fst snd]. fold (stored defs).
    unfold define. cbn [fst snd].
    destruct (decide (c_string k' = k)) as [E|E].
    + assert (env_truthy inherited env k'
              = match env !! k with Some x => truthy_str x | None => inherited k end)
        as -> by (unfold env_truthy; rewrite E, (Hi E);
                  now rewrite <- (getenv_proper env k Hk), Hc).
      rewrite E. destruct k as [|d n]; [congruence|].
      cbn [file_value]. rewrite bool_decide_eq_true_2 by reflexivity.
      match goal with
      | |- context [if ?b then env else _] => destruct b eqn:T
      end.
      * now rewrite T.
      * rewrite lookup_setenv_eq by discriminate.
        destruct (c_string v) as [|e w]; cbn [truthy_str]; [|reflexivity].
        now destruct (file_value (stored defs) (d :: n)).
    + assert ((if env_truthy inherited env k' then env
               else setenv (c_string k') (c_string v) env) !! k = env !! k) as ->.
      { destruct (env_truthy inherited env k'); [reflexivity|].
        now apply lookup_setenv_ne. }
      destruct (c_string k') as [|d n] eqn:Ek; [reflexivity|].
      cbn [file_value]. now rewrite bool_decide_eq_false_2 by exact E.
Qed.


(** X15.  Loading the same file a second time changes nothing, as long
    as no name of the file is an inherited one once cut at its first
    NUL without being one as it stands, or the other way round. *)
Theorem dotenv_idempotent (content : option jstring) (env : environment) :
  (forall c, content = Some c ->
     Forall (fun kv => inherited (c_string (fst kv)) = inherited (fst kv))
       (definitions c)) ->
  load_env inherited content (load_env inherited content env)
  = load_env inherited content env.
Proof.
  destruct content as [c|]; [|reflexivity]. intros H.
  specialize (H c eq_refl). apply map_eq. intros k.
  rewrite !load_env_definitions.
  destruct (proper_dec k) as [Hk|Hk]; [|now rewrite !define_all_improper].
  assert (Forall (fun kv => c_string (fst kv) = k -> inherited (fst kv) = inherited k)
            (definitions c)) as Hf.
  { eapply List.Forall_impl; [|exact H]. cbn. intros kv E <-. now rewrite E. }
  rewrite (define_all _ k Hk _ Hf).
  set (e1 := fold_left (define inherited) (definitions c) env).
  destruct (env_truthy inherited e1 k) eqn:H1; [reflexivity|].
  destruct (file_value (stored (definitions c)) k) as [v|] eqn:Hv; [|reflexivity].
  unfold e1. rewrite (define_all _ k Hk _ Hf), Hv.
  destruct (env_truthy inherited env k) eqn:H0; [|reflexivity].
  exfalso. rewrite env_truthy_proper in H0, H1 by exact Hk.
  unfold e1 in H1. rewrite (define_all _ k Hk _ Hf) in H1.
  rewrite env_truthy_proper, H0 in H1 by exact Hk. congruence.
Qed.

End WithPrototype.

(** X16.  What a line of [.env] defines: a line that is blank, starts
    with [#] after its leading white space, or has no [=] after its
    first character defines nothing; otherwise the name is the text
    before the first [=] and the value the text after it, both trimmed,
    so that a name is never empty, never starts with [#] and never
    holds a [=], while a value may. *)
Theorem dotenv_line_shape (line : jstring) :
  match parse_line line with
  | Some (k, v) =>
      k <> [] /\ trimmed k /\ trimmed v /\ ~ In EQUALS k
      /\ startsWith k HASH = false
      /\ exists i, trim line !! i = Some EQUALS
                   /\ k = trim (take i (trim line))
                   /\ v = trim (drop (S i) (trim line))
                   /\ ~ In EQUALS (take i (trim line))
  | None =>
      trim line = [] \/ startsWith (trim line) HASH = true
      \/ ~ In EQUALS (trim line) \/ startsWith (trim line) [EQUALS] = true
  end.
Proof.
  unfold parse_line.
  destruct (trimStart_head line) as [E|(c & x & E & Hc)].
  { unfold trim at 1 2. rewrite E. cbn. left. unfold trim. now rewrite E. }
  assert (exists y, trim line = c :: y) as (y & Et).
  { unfold trim. rewrite E, trimEnd_cons by exact Hc. eauto. }
  rewrite Et. cbn [truthy_str andb].
  destruct (startsWith (c :: y) HASH) eqn:Hh; cbn [negb]; [auto|].
  destruct (indexOf_spec (c :: y) EQUALS) as [Hi|(H0 & Hn & Hl)].
  { rewrite Hi. right. right. left. now apply indexOf_absent. }
  destruct (Z.ltb_spec 0 (indexOf (c :: y) EQUALS)) as [Hpos|Hz].
  - set (i := Z.to_nat (indexOf (c :: y) EQUALS)) in *.
    assert (exists j, i = S j) as (j & Ej) by (exists (Nat.pred i); lia).
    assert (trim (take i (c :: y)) = c :: trimEnd (take j y)) as Ek.
    { rewrite Ej. cbn [take]. unfold trim.
      now rewrite trimStart_fixed, trimEnd_cons by exact Hc. }
    split; [rewrite Ek; discriminate|]. split; [apply trim_idem|].
    split; [apply trim_idem|]. split.
    { intros Hin. apply In_trim in Hin. exact (Hn Hin). }
    split.
    { rewrite Ek. cbn in Hh |- *. now destruct (N.eqb 35 c). }
    exists i. split; [exact Hl|]. split; [reflexivity|]. split; [|exact Hn].
    unfold slice. now replace (Z.to_nat (indexOf (c :: y) EQUALS + 1)) with (S i) by lia.
  - right. right. right. assert (indexOf (c :: y) EQUALS = 0) as Hzero by lia.
    rewrite Hzero in Hl. cbn in Hl. injection Hl as ->. reflexivity.
Qed.

End DotEnvProps.

(** ** The bridge's caller *)

Module BridgeClientProps.
Import Session CallQueue BridgeClient.

Lemma try_body_return attempt tool out v :
  try_body attempt tool out = TryReturn v
  <-> exists status, out = FetchResponse status (BodyJson v) /\ ok status = true.
Proof.
  unfold try_body. split.
  - destruct out as [e|status body]; [discriminate|].
    destruct (ok status) eqn:Hok.
    + destruct body; [|discriminate]. intros [= ->]. eauto.
    + destruct (error_message status body); [|discriminate].
      destruct (attempt =? 0)%nat; [|discriminate].
      destruct (session_error v0) as [[|]|]; discriminate.
  - intros (status & -> & ->). reflexivity.
Qed.

Lemma try_body_last tool out : try_body 1 tool out <> TryContinue.
Proof.
  unfold try_body. destruct out as [e|status body]; [discriminate|].
  destruct (ok status); [destruct body; discriminate|].
  destruct (error_message status body); discriminate.
Qed.

(** X17.  A call through the bridge asks for the tool once or twice.
    It returns at once when the first response is a success with a
    JSON body, and returns that body.  After any other end of the first
    request, whatever the status, the error text or the exception, it
    asks the bridge to reconnect, once, with the configured key, and
    asks again; the outcome is then the second request's alone: its
    JSON body on success, its error otherwise.  So a value returned is
    always the body of a successful response. *)
Theorem direct_call_behaviour (toolName : jstring) (params apiKey : value)
    (net : nat -> fetch_outcome) :
  let r := executeDirectCall toolName params apiKey net in
  ((exists status v, net 0%nat = FetchResponse status (BodyJson v)
                     /\ ok status = true /\ fst r = Ok v)
   /\ snd r = [ReqTool toolName params])
  \/ ((forall v, try_body 0 toolName (net 0%nat) <> TryReturn v)
      /\ snd r = [ReqTool toolName params; ReqReconnect apiKey;
                  ReqTool toolName params]
      /\ ((exists status v, net 1%nat = FetchResponse status (BodyJson v)
                            /\ ok status = true /\ fst r = Ok v)
          \/ (exists e, try_body 1 toolName (net 1%nat) = TryThrow e
                        /\ fst r = Err e))).
Proof.
  intros r. unfold r, executeDirectCall. cbn [direct_loop app Nat.eqb].
  destruct (try_body 0 toolName (net 0%nat)) as [v| |e] eqn:E0.
  - left. apply try_body_return in E0 as (status & En & Hok).
    split; [|reflexivity]. exists status, v. auto.
  - right. split; [discriminate|].
    destruct (try_body 1 toolName (net 1%nat)) as [v| |e] eqn:E1.
    + split; [reflexivity|]. left.
      apply try_body_return in E1 as (status & En & Hok). exists status, v. auto.
    + now destruct (try_body_last toolName (net 1%nat)).
    + split; [reflexivity|]. right. eauto.
  - right. split; [discriminate|].
    destruct (try_body 1 toolName (net 1%nat)) as [v| |e'] eqn:E1.
    + split; [reflexivity|]. left.
      apply try_body_return in E1 as (status & En & Hok). exists status, v. auto.
    + now destruct (try_body_last toolName (net 1%nat)).
    + split; [reflexivity|]. right. eauto.
Qed.

Lemma try_body_refusal attempt tool r msg :
  refusal r = Some msg ->
  try_body attempt tool (http_of r) <> TryContinue ->
  try_body attempt tool (http_of r) = TryThrow (bridge_error tool (VStr msg)).
Proof.
  intros Hr. unfold try_body.
  assert (exists st, http_of r = FetchResponse st
                       (BodyJson (VObj [(js "error", VStr msg)]))
                     /\ ok st = false) as (st & -> & ->).
  { destruct r; cbn in Hr; simplify_eq; eexists; split; reflexivity. }
  unfold error_message. cbn [prop assoc].
  rewrite bool_decide_eq_true_2 by reflexivity.
  assert ((if truthy (VStr msg) then VStr msg else VStr []) = VStr msg) as ->
    by (now destruct msg).
  destruct (attempt =? 0)%nat; [|reflexivity].
  cbn [session_error js_includes].
  destruct (includes msg (js "transport")); [congruence|].
  destruct (includes msg (js "session")); [congruence|].
  destruct (includes msg (js "Session")); [congruence|reflexivity].
Qed.

(** X18.  When the bridge answers both requests with an error (status
    500 with the message of the failed tool call, or 400 for a missing
    tool name), the call fails with [Bridge error for], the tool name
    and the message of the second answer; the first message decides
    nothing. *)
Theorem bridge_error_reaches_the_caller (toolName : jstring) (params apiKey : value)
    (net : nat -> fetch_outcome) (r0 r1 : response) (m0 m1 : error) :
  net 0%nat = http_of r0 -> net 1%nat = http_of r1 ->
  refusal r0 = Some m0 -> refusal r1 = Some m1 ->
  executeDirectCall toolName params apiKey net
  = (Err (js "Bridge error for " ++ toolName ++ js ": " ++ m1),
     [ReqTool toolName params; ReqReconnect apiKey; ReqTool toolName params]).
Proof.
  intros E0 E1 H0 H1. unfold executeDirectCall. cbn [direct_loop app Nat.eqb].
  rewrite E0, E1.
  rewrite (try_body_refusal 1 toolName r1 m1 H1 (try_body_last _ _)).
  destruct (try_body 0 toolName (http_of r0)) as [v| |e] eqn:T0;
    try reflexivity.
  apply try_body_return in T0 as (st & En & Hok).
  destruct r0; cbn in H0, En; simplify_eq; discriminate.
Qed.

End BridgeClientProps.

(** ** The cache *)

Module CacheProps.
Import Cache.

(** X19.  What was stored comes back until it expires: a [get] at or
    before the expiry time returns the value stored last under the key
    and leaves the store alone, a later one returns [null] and removes
    the entry; no [get] or [set] touches another key; and a stored
    [null] cannot be told from a miss by [has]. *)
Theorem cache_get_after_set (st : store) (key : jstring) (v : value)
    (ttl now now' t : Z) :
  let st' := set now now' key v ttl st in
  get t key st' = (if now + ttl <? t then (VNull, delete key st) else (v, st'))
  /\ (forall k, k <> key ->
        fst (get t k st') = fst (get t k st)
        /\ snd (get t key st') !! k = st !! k
        /\ snd (get t k st) !! key = st !! key)
  /\ (v = VNull -> fst (has t key st') = false).
Proof.
  intros st'. unfold st', get, set. rewrite lookup_insert_eq. cbn [expiresAt value_of].
  split; [|split].
  - destruct (now + ttl <? t); [|reflexivity]. now rewrite delete_insert_eq.
  - intros k Hk. rewrite lookup_insert_ne by auto. split; [|split].
    + destruct (st !! k) as [e|]; [|reflexivity]. now destruct (expiresAt e <? t).
    + destruct (now + ttl <? t); cbn [snd].
      * rewrite lookup_delete_ne by auto. now rewrite lookup_insert_ne by auto.
      * now rewrite lookup_insert_ne by auto.
    + destruct (st !! k) as [e|]; [|reflexivity].
      destruct (expiresAt e <? t); cbn [snd]; [|reflexivity].
      now rewrite lookup_delete_ne by auto.
  - intros ->. unfold has, get. rewrite lookup_insert_eq. cbn [expiresAt value_of].
    now destruct (now + ttl <? t).
Qed.

(** X20.  The cache in front of the bridge: an entry that has not
    expired and holds a truthy value is returned without running the
    call; after a miss the result is stored for the time the tool's
    name gives (five minutes for insights, sixty for creatives, thirty
    otherwise), and until then a call with the same key returns it
    without running, unless the result is falsy: such a result is
    stored but never served, and every call runs anew. *)
Theorem mcpCall_caching (toolName key : jstring) (st : store) (now now1 now2 : Z)
    (result : value) (t t1 t2 : Z) (again : option value) :
  truthy (fst (get now key st)) = false ->
  t <= now1 + BridgeClient.getTTLForTool toolName ->
  let first := mcpCall toolName key now (Some result) now1 now2 st in
  let st1 := snd first in
  fst first = (Some result, true)
  /\ mcpCall toolName key t again t1 t2 st1
     = if truthy result then (Some result, false, st1)
       else match again with
            | Some r' =>
                (Some r', true,
                 set t1 t2 key r' (BridgeClient.getTTLForTool toolName) st1)
            | None => (None, true, st1)
            end.
Proof.
  intros Hmiss Ht first st1. unfold st1, first, mcpCall.
  destruct (get now key st) as [c st0] eqn:G. cbn [fst] in Hmiss.
  rewrite Hmiss. cbn [fst snd]. split; [reflexivity|].
  unfold get at 1, set at 1 2. rewrite lookup_insert_eq. cbn [expiresAt value_of].
  destruct (Z.ltb_spec (now1 + BridgeClient.getTTLForTool toolName) t); [lia|].
  reflexivity.
Qed.

End CacheProps.

(** ** The properties on concrete runs *)

Module MoreExamples.
Import EventStream Session Correlator Retry CallQueue Scenarios.
Import JsStringSpec EventStreamText SessionFrame Handshake RetryCost CallQueueUse.
Import DotEnv BridgeClient EventSourceClass MoreScenarios.
Import EventStreamProps SettleProps RetryProps CallQueueProps.
Import EventStreamMore SessionFrameProps HandshakeProps RetryMore CallQueueMore.
Import DotEnvProps BridgeClientProps CacheProps EventSourceClassProps.

Lemma demo_spells_plain_names e :
  In e (snd (on_data initial (concat demo_chunks))) ->
  object_prototype (fst e) = false.
Proof.
  assert (snd (on_data initial (concat demo_chunks))
          = [ (js "endpoint", js "/mcp-api/messages?sessionId=abc");
              (js "message", js "payload-2") ]) as ->
    by (vm_compute; reflexivity).
  intros [<-|[<-|[]]]; vm_compute; reflexivity.
Qed.

(** X1 on the five chunks of [demo_chunks] against the same text in
    one chunk. *)
Lemma chunking_is_irrelevant_witness :
  concat demo_chunks = concat [concat demo_chunks]
  /\ on_chunks object_prototype demo_chunks listening
     = on_chunks object_prototype [concat demo_chunks] listening.
Proof.
  assert (concat demo_chunks = concat [concat demo_chunks]) as H
    by (vm_compute; reflexivity).
  split; [exact H|].
  destruct (chunking_is_irrelevant object_prototype listening initial demo_chunks
              [concat demo_chunks] eq_refl (fun x => x) H demo_spells_plain_names)
    as [A _].
  exact A.
Defined.

Lemma demo_emits_endpoint :
  In (js "endpoint", js "/mcp-api/messages?sessionId=abc")
     (snd (feed initial demo_chunks)).
Proof. vm_compute. left. reflexivity. Qed.

(** X3 on the first event of [demo_chunks], sent with blanks around
    its name and payload. *)
Lemma emitted_events_are_trimmed_witness :
  js "/mcp-api/messages?sessionId=abc" <> []
  /\ trimmed (js "/mcp-api/messages?sessionId=abc") /\ trimmed (js "endpoint").
Proof.
  exact (emitted_events_are_trimmed demo_chunks _ _ demo_emits_endpoint).
Defined.

Lemma crlf_lines_facts :
  Forall no_newline crlf_lines /\ no_newline (js "data: par").
Proof.
  split; [repeat apply List.Forall_cons; [..|apply List.Forall_nil]|];
    apply no_newline_check; vm_compute; reflexivity.
Qed.

(** X4 on an event sent with CR LF line ends, in one chunk. *)
Lemma crlf_stream_emits_nothing_witness :
  snd (feed initial [crlf_text crlf_lines ++ js "data: par"]) = []
  /\ buffer (fst (feed initial [crlf_text crlf_lines ++ js "data: par"]))
     = js "data: par".
Proof.
  destruct crlf_lines_facts as [H1 H2].
  apply (crlf_stream_emits_nothing crlf_lines (js "data: par")
           [crlf_text crlf_lines ++ js "data: par"] H1 H2).
  cbn [concat]. apply app_nil_r.
Defined.

Lemma passed_over_facts :
  no_newline (js " one") /\ no_newline (js " two") /\ no_newline (js ": keepalive")
  /\ startsWith (js ": keepalive") (js "event:") = false
  /\ startsWith (js ": keepalive") (js "data:") = false.
Proof.
  repeat split; try (apply no_newline_check); vm_compute; reflexivity.
Qed.

(** X23 on two payload lines and on a comment line, each before a
    blank line. *)
Lemma reader_passes_over_witness :
  on_data (Reader [] (js "message") [])
    ((js "data:" ++ js " one") ++ [NL] ++ (js "data:" ++ js " two") ++ [NL] ++ [NL])
  = on_data (Reader [] (js "message") []) ((js "data:" ++ js " two") ++ [NL] ++ [NL])
  /\ on_data (Reader [] (js "message") []) (js ": keepalive" ++ [NL] ++ [NL])
     = on_data (Reader [] (js "message") []) [NL].
Proof.
  destruct passed_over_facts as (H1 & H2 & H3 & H4 & H5).
  apply (reader_passes_over (js "message") [] (js " one") (js " two")
           (js ": keepalive") [NL] H1 H2 H3); [discriminate|exact H4|exact H5].
Defined.

Lemma bad_key_settles :
  result_of (run parse (new_session (js "key-1") (js "get_ads") VNull 60000 0)
               bad_key_script) = Some bad_key_outcome.
Proof. vm_compute. reflexivity. Qed.

(** X7 on a session rejected by an error response: the deadline and a
    late response leave the rejection as it is. *)
Lemma outcome_is_final_witness :
  result_of (run parse (new_session (js "key-1") (js "get_ads") VNull 60000 0)
               (bad_key_script ++ late_events)) = Some bad_key_outcome
  /\ settlement (run parse (new_session (js "key-1") (js "get_ads") VNull 60000 0)
                   (bad_key_script ++ late_events))
     = settlement (run parse (new_session (js "key-1") (js "get_ads") VNull 60000 0)
                     bad_key_script)
  /\ settled (run parse (new_session (js "key-1") (js "get_ads") VNull 60000 0)
                (bad_key_script ++ late_events)) = true.
Proof.
  exact (outcome_is_final parse (js "key-1") (js "get_ads") VNull 60000 0
           bad_key_script late_events bad_key_outcome bad_key_settles).
Defined.

Lemma tool_request_sent :
  requests (run parse (new_session (js "key-1") (js "get_ads") VNull 60000 0)
              (call_script call_text)) !! 1%nat = Some tool_request.
Proof. vm_compute. reflexivity. Qed.

(** X8 on the tool request of a session whose handshake went well. *)
Lemma tool_request_follows_handshake_witness :
  (rq_id tool_request = 1 /\ rq_method tool_request = js "initialize")
  \/ (rq_id tool_request = 2 /\ rq_method tool_request = tools_method (js "get_ads")
      /\ initialized (run parse (new_session (js "key-1") (js "get_ads") VNull 60000 0)
                        (call_script call_text)) (rq_owner tool_request)
      /\ notified (run parse (new_session (js "key-1") (js "get_ads") VNull 60000 0)
                     (call_script call_text))).
Proof.
  exact (tool_request_follows_handshake parse (js "get_ads") (js "key-1") VNull
           60000 0 (call_script call_text) 1%nat tool_request tool_request_sent).
Defined.

Lemma text_attempt_facts :
  attempts (mcpToolCall parse (js "key-1") (js "get_ads") VNull 3 always_text)
    !! 0%nat = Some text_attempt
  /\ result_of (ended text_attempt)
     = Some (Resolved (VObj [(js "data", VStr (js "not json"))])).
Proof. vm_compute. split; reflexivity. Qed.

(** X10 on a first attempt that succeeds: it is the only one. *)
Lemma first_success_is_returned_witness :
  length (attempts (mcpToolCall parse (js "key-1") (js "get_ads") VNull 3 always_text))
  = 1%nat
  /\ result (mcpToolCall parse (js "key-1") (js "get_ads") VNull 3 always_text)
     = Return (VObj [(js "data", VStr (js "not json"))]).
Proof.
  destruct text_attempt_facts as [H1 H2].
  destruct (first_success_is_returned parse (js "key-1") (js "get_ads") VNull 3
              always_text 0%nat text_attempt H1) as [A _].
  exact (A _ H2).
Defined.

Lemma silent_attempt_facts :
  attempts (mcpToolCall parse (js "key-1") (js "get_ads") VNull 3 always_silent)
    !! 0%nat = Some silent_attempt
  /\ result_of (ended silent_attempt) = Some (Rejected (js "Session timeout")).
Proof. vm_compute. split; reflexivity. Qed.

(** X11 on a session that hears nothing for 60 s: one attempt of the
    three allowed. *)
Lemma timeouts_are_not_retried_witness :
  length (attempts (mcpToolCall parse (js "key-1") (js "get_ads") VNull 3
                      always_silent)) = 1%nat
  /\ result (mcpToolCall parse (js "key-1") (js "get_ads") VNull 3 always_silent)
     = Throw (js "Session timeout").
Proof.
  destruct silent_attempt_facts as [H1 H2].
  exact (timeouts_are_not_retried parse (js "key-1") (js "get_ads") VNull 3
           always_silent 0%nat silent_attempt (js "Session timeout") H1 H2
           (or_introl eq_refl)).
Defined.



(** X18 on a bridge that answers 500 and then 400. *)
Lemma bridge_error_reaches_the_caller_witness :
  executeDirectCall (js "get_ads") VNull (VStr (js "key-1")) failing_bridge
  = (Err (js "Bridge error for " ++ js "get_ads" ++ js ": " ++ js "Missing tool name"),
     [ReqTool (js "get_ads") VNull; ReqReconnect (VStr (js "key-1"));
      ReqTool (js "get_ads") VNull]).
Proof.
  exact (bridge_error_reaches_the_caller (js "get_ads") VNull (VStr (js "key-1"))
           failing_bridge (Status500 (js "Session timeout")) Status400
           (js "Session timeout") (js "Missing tool name")
           eq_refl eq_refl eq_refl eq_refl).
Defined.

Lemma sample_env_facts :
  Forall (fun kv => object_prototype (c_string (fst kv)) = object_prototype (fst kv))
    (definitions sample_env)
  /\ load_env object_prototype (Some sample_env) sample_environment
     = <[js "VITE_GOMARBLE_API_KEY" := js "abc"]> sample_environment.
Proof.
  split.
  - assert (definitions sample_env
            = [ (js "VITE_GOMARBLE_API_KEY", []);
                (js "VITE_GOMARBLE_API_KEY", js "abc"); (js "PORT", js "8080") ])
      as -> by (vm_compute; reflexivity).
    repeat constructor.
  - apply map_eq. intros k. rewrite load_env_definitions.
    assert (definitions sample_env
            = [ (js "VITE_GOMARBLE_API_KEY", []);
                (js "VITE_GOMARBLE_API_KEY", js "abc"); (js "PORT", js "8080") ])
      as -> by (vm_compute; reflexivity).
    reflexivity.
Qed.

(** X15 on a file with two definitions of the key, the first empty,
    and a port that the environment has already. *)
Lemma dotenv_idempotent_witness :
  load_env object_prototype (Some sample_env)
    (load_env object_prototype (Some sample_env) sample_environment)
  = load_env object_prototype (Some sample_env) sample_environment.
Proof.
  destruct sample_env_facts as [H _].
  apply (dotenv_idempotent object_prototype (Some sample_env) sample_environment).
  intros c E. injection E as <-. exact H.
Defined.

(** Names and values are cut at their first NUL. *)
Lemma nul_cuts_names_and_values :
  load_env object_prototype (Some nul_env) ∅
  = <[js "K" := js "1"]> (<[js "A" := js "a"]> ∅).
Proof.
  rewrite load_env_definitions.
  assert (definitions nul_env
          = [ (js "A", js "a" ++ [0%N] ++ js "b"); (js "K" ++ [0%N] ++ js "X", js "1") ])
    as -> by (vm_compute; reflexivity).
  reflexivity.
Qed.

(** Without the proviso of X15 a second load can change a variable:
    the first load leaves [constructor] alone, which the prototype
    answers for, and then sets it, empty, under the name with the NUL;
    the second finds it set and empty and gives it the value 5. *)
Lemma alias_breaks_idempotence :
  load_env object_prototype (Some alias_env) ∅ = <[js "constructor" := []]> ∅
  /\ load_env object_prototype (Some alias_env)
       (load_env object_prototype (Some alias_env) ∅)
     = <[js "constructor" := js "5"]> ∅.
Proof.
  assert (definitions alias_env
          = [ (js "constructor", js "5"); (js "constructor" ++ [0%N] ++ js "x", []) ])
    as E by (vm_compute; reflexivity).
  assert (load_env object_prototype (Some alias_env) ∅ = <[js "constructor" := []]> ∅)
    as E1 by (rewrite load_env_definitions, E; reflexivity).
  split; [exact E1|]. rewrite E1, load_env_definitions, E.
  apply map_eq. intros k. cbn [fold_left]. unfold define, env_truthy.
  cbn [fst snd]. vm_compute c_string. unfold getenv, setenv.
  rewrite lookup_insert_eq. cbn [truthy_str].
  rewrite lookup_insert_eq. cbn [truthy_str].
  now rewrite insert_insert_eq.
Qed.

Lemma insights_ttl : 1000 <= 0 + getTTLForTool (js "get_insights").
Proof. vm_compute. discriminate. Qed.

(** X20 on an empty cache: the result of the first call is served to
    the second, one second later. *)
Lemma mcpCall_caching_witness :
  fst (Cache.mcpCall (js "get_insights") (js "get_insights:") 0
         (Some (VObj [])) 0 0 ∅) = (Some (VObj []), true)
  /\ Cache.mcpCall (js "get_insights") (js "get_insights:") 1000 None 1000 1000
       (snd (Cache.mcpCall (js "get_insights") (js "get_insights:") 0
               (Some (VObj [])) 0 0 ∅))
     = (Some (VObj []), false,
        snd (Cache.mcpCall (js "get_insights") (js "get_insights:") 0
               (Some (VObj [])) 0 0 ∅)).
Proof.
  exact (mcpCall_caching (js "get_insights") (js "get_insights:") ∅ 0 0 0
           (VObj []) 1000 1000 1000 None eq_refl insights_ttl).
Defined.

(** X21 on the text of [demo_chunks] in one chunk: the two listeners
    of [endpoint], then the one of [message]. *)
Lemma listeners_get_the_events_witness :
  on_chunk plain_names (concat demo_chunks) listening
  = (Source OPEN (_listeners listening) None true
       (Some (fst (on_data initial (concat demo_chunks)))),
     dispatch listening (snd (on_data initial (concat demo_chunks))), false).
Proof.
  destruct (listeners_get_the_events plain_names listening (concat demo_chunks)
              initial eq_refl (fun e _ => eq_refl)) as [A _].
  exact A.
Defined.

End MoreExamples.

